(** * MyAiEditor: the unified file-system abstraction and its remote transport

    A shallow embedding of the services of the editor:
    - [LocalFileSystem]      (src/services/LocalFileSystem.ts)
    - [Transport]            the socket, timers and promises behind the
                             request/reply methods of [WebSocketSSHService]
    - [WebSocketSSHService]  (its methods, one call at a time)
    - [RemoteFileSystem]     (src/services/RemoteFileSystem.ts)
    - [RealSSHService]       ([connectFallback], src/services/SSHClient.ts)
    - [FileSystemManager]    (the facade that routes to the active backend)
    - [SecureCredentialStore] (the class of that name in
                             src/services/SecureCredentialStore.ts, over
                             the keystore [SecureStore])
    - [SSHConnection]        ([handleConnect], src/components/SSHConnection.tsx)

    Asynchronous methods are modelled one call at a time: a method takes the
    state of its object and the answers of its collaborators (the device
    storage, the proxy server) and returns its result together with the new
    state. A rejected promise or a thrown exception is the [Throw] result; the
    state returned with it is the state the object is left in. *)

From Stdlib Require Import ZArith Lia Ascii String.
From stdpp Require Import base list strings sorting gmap.

Local Open Scope string_scope.
Local Open Scope Z_scope.

(** ** JavaScript values used by the services *)

(** [throw new Error(message)]: every failure of the services is an [Error]
    that carries a message. *)
Inductive JsError : Type := Error (message : string).

Inductive Result (A : Type) : Type :=
| Ok (a : A)
| Throw (e : JsError).
Arguments Ok {A} a.
Arguments Throw {A} e.

Definition is_ok {A} (r : Result A) : bool :=
  match r with Ok _ => true | Throw _ => false end.

(** ** Methods

    A method of an object with state [S] that returns an [A]: it runs on the
    state of the object and gives its result and the state it leaves. [throw]
    leaves the state as it is at the point of the throw, [try_catch] runs
    the handler from there. *)
Definition M (S A : Type) : Type := S -> Result A * S.

Global Instance M_ret {S} : MRet (M S) :=
  fun A (a : A) s => (Ok a, s).

Global Instance M_bind {S} : MBind (M S) :=
  fun A B (k : A -> M S B) (m : M S A) s =>
    match m s with
    | (Ok a, s') => k a s'
    | (Throw e, s') => (Throw e, s')
    end.

Definition throw {S A} (e : JsError) : M S A := fun s => (Throw e, s).

Definition try_catch {S A} (body : M S A) (handler : JsError -> M S A)
    : M S A :=
  fun s =>
    match body s with
    | (Ok a, s') => (Ok a, s')
    | (Throw e, s') => handler e s'
    end.

(** [this] *)
Definition this {S} : M S S := fun s => (Ok s, s).

(** Assignment to the fields of [this]. *)
Definition assign {S} (f : S -> S) : M S unit := fun s => (Ok tt, f s).

(** A call on the object held in a field: [project] reads the field and
    [inject] stores the object back after the call. *)
Definition on_field {S T A} (project : S -> T) (inject : T -> S -> S)
    (m : M T A) : M S A :=
  fun s => let (r, t') := m (project s) in (r, inject t' s).

(** [await] of a collaborator's promise that is already settled. *)
Definition settled {S A} (r : Result A) : M S A := fun s => (r, s).

(** Truthiness of an optional string: [undefined] and [''] are falsy. *)
Definition truthy (s : option string) : bool :=
  match s with
  | Some s => negb (String.eqb s "")
  | None => false
  end.

(** [s || d] for an optional string [s]. *)
Definition or_else (s : option string) (d : string) : string :=
  match s with
  | Some s => if String.eqb s "" then d else s
  | None => d
  end.

Fixpoint endsWith_chars (s suffix : list ascii) : bool :=
  if decide (s = suffix) then true
  else match s with
       | [] => false
       | _ :: s' => endsWith_chars s' suffix
       end.

(** [s.endsWith(suffix)] *)
Definition endsWith (s suffix : string) : bool :=
  endsWith_chars (list_ascii_of_string s) (list_ascii_of_string suffix).

(** [s.lastIndexOf(c)] for a one-character search string: the index of the
    last occurrence, or -1. *)
Fixpoint lastIndexOf_from (i : Z) (found : Z) (s : string) (c : ascii) : Z :=
  match s with
  | EmptyString => found
  | String a s' =>
      lastIndexOf_from (i + 1) (if Ascii.eqb a c then i else found) s' c
  end.

Definition lastIndexOf (s : string) (c : ascii) : Z :=
  lastIndexOf_from 0 (-1) s c.

Definition clamp (n : Z) (len : nat) : nat :=
  Nat.min (Z.to_nat n) len.

(** [s.substring(start, end)]: both indices are clamped to [0, s.length] and
    swapped when [start > end]. *)
Definition substring (s : string) (start finish : Z) : string :=
  let a := clamp start (String.length s) in
  let b := clamp finish (String.length s) in
  String.substring (Nat.min a b) (Nat.max a b - Nat.min a b) s.

(** [s.substring(start)] *)
Definition substring_from (s : string) (start : Z) : string :=
  substring s start (Z.of_nat (String.length s)).

(** [Array.prototype.some] *)
Definition some {A} (f : A -> bool) (l : list A) : bool := existsb f l.

(** ** FileSystemInterface.ts *)
Module FileSystemInterface.

Record FileItem : Type := {
  name : string;
  path : string;
  isFile : bool;
  isDirectory : bool;
  size : option Z;
  modifiedDate : option Z       (* milliseconds since the epoch *)
}.

Inductive FileSystemSource : Type := local | remote.

Global Instance FileSystemSource_eq_dec : EqDecision FileSystemSource.
Proof. solve_decision. Defined.

(** The [details] of [getConnectionInfo], typed [any] in the source. *)
Record RemoteDetails : Type := {
  rd_host : string;
  rd_username : string;
  rd_currentPath : string
}.

Record LocalDetails : Type := {
  ld_documentDirectory : option string;
  ld_cacheDirectory : option string;
  ld_currentPath : string
}.

Inductive Details : Type :=
| DetailsLocal (d : LocalDetails)
| DetailsRemote (d : option RemoteDetails).   (* [null] before a connect *)

Record ConnectionInfo : Type := {
  ci_connected : bool;
  ci_source : FileSystemSource;
  ci_details : Details
}.

(** The interface both backends implement, for an object with state [S]. *)
Record FileSystemInterface (S : Type) : Type := {
  getCurrentPath : S -> string;
  listDirectory : option string -> M S (list FileItem);
  changeDirectory : string -> M S unit;
  readFile : string -> M S string;
  writeFile : string -> string -> M S unit;
  isConnected : S -> bool;
  getConnectionInfo : S -> ConnectionInfo
}.
Arguments getCurrentPath {S} _ _.
Arguments listDirectory {S} _ _ _.
Arguments changeDirectory {S} _ _ _.
Arguments readFile {S} _ _ _.
Arguments writeFile {S} _ _ _ _.
Arguments isConnected {S} _ _.
Arguments getConnectionInfo {S} _ _.

End FileSystemInterface.
Export FileSystemInterface.

(** ** Array.prototype.sort

    [sort] is stable and, for a consistent comparator, returns the sorted
    arrangement; that arrangement is the one the stable insertion sort below
    computes. The comparator returns a number: negative puts its first
    argument first, positive its second. *)
Section Sort.
Context {A : Type} (compareFn : A -> A -> Z).

Fixpoint insert_sorted (x : A) (l : list A) : list A :=
  match l with
  | [] => [x]
  | y :: l' =>
      if compareFn x y <=? 0 then x :: y :: l'
      else y :: insert_sorted x l'
  end.

Fixpoint sort (l : list A) : list A :=
  match l with
  | [] => []
  | x :: l' => insert_sorted x (sort l')
  end.
End Sort.

(** ** expo-file-system (legacy), as the local backend uses it *)

Record FileInfo : Type := {
  info_exists : bool;
  info_isDirectory : bool;
  info_size : option Z;
  info_modificationTime : option Z      (* seconds since the epoch *)
}.

(** The answers of the device storage. A call that rejects is [Throw]. *)
Record Storage : Type := {
  documentDirectory : option string;
  cacheDirectory : option string;
  readDirectoryAsync : string -> Result (list string);
  getInfoAsync : string -> Result FileInfo;
  readAsStringAsync : string -> Result string;
  writeAsStringAsync : string -> string -> Result unit
}.

(** ** LocalFileSystem.ts *)
Module LocalFileSystem.

Record t : Type := { currentPath : string }.

(** [constructor] *)
Definition create (fs : Storage) : t :=
  {| currentPath := or_else (documentDirectory fs) "/" |}.

Definition getCurrentPath (self : t) : string := currentPath self.

Definition fullPath (targetPath fileName : string) : string :=
  targetPath ++ (if endsWith targetPath "/" then "" else "/") ++ fileName.

(** The body of the [for] loop of [listDirectory]: the item pushed for one
    file name. *)
Definition itemFor (fs : Storage) (targetPath fileName : string) : FileItem :=
  match getInfoAsync fs (fullPath targetPath fileName) with
  | Ok info =>
      {| name := fileName;
         path := fullPath targetPath fileName;
         isFile := negb (info_isDirectory info);
         isDirectory := info_isDirectory info || false;
         size := info_size info;
         modifiedDate :=
           match info_modificationTime info with
           | Some t => if t =? 0 then None else Some (t * 1000)
           | None => None
           end |}
  | Throw _ =>
      (* If we can't stat the file, still include it as unknown type *)
      {| name := fileName;
         path := fullPath targetPath fileName;
         isFile := true;
         isDirectory := false;
         size := None;
         modifiedDate := None |}
  end.

(** The [for] loop: one [push] per file name. *)
Definition collectItems (fs : Storage) (targetPath : string)
    (files : list string) : list FileItem :=
  fold_left (fun (fileItems : list FileItem) fileName =>
               (fileItems ++ [itemFor fs targetPath fileName])%list)
            files [].

Section WithLocale.
(** [String.prototype.localeCompare], which depends on the platform's
    collation. *)
Variable localeCompare : string -> string -> Z.

(** The comparator given to [sort]. *)
Definition compareItems (a b : FileItem) : Z :=
  (* Directories first, then files, alphabetically *)
  if negb (Bool.eqb (isDirectory a) (isDirectory b)) then
    if isDirectory a then -1 else 1
  else localeCompare (name a) (name b).

Definition listDirectory (fs : Storage) (path : option string)
    : M t (list FileItem) :=
  self ← this;
  let targetPath := or_else path (currentPath self) in
  try_catch
    (files ← settled (readDirectoryAsync fs targetPath);
     mret (sort compareItems (collectItems fs targetPath files)))
    (fun _ => throw (Error ("Failed to list directory: " ++ targetPath))).
End WithLocale.

Definition changeDirectory (fs : Storage) (path : string) : M t unit :=
  try_catch
    (info ← settled (getInfoAsync fs path);
     if negb (info_exists info) then
       throw (Error ("Directory does not exist: " ++ path))
     else if negb (info_isDirectory info) then
       throw (Error ("Path is not a directory: " ++ path))
     else assign (fun _ => {| currentPath := path |}))
    (fun error => throw error).

Definition readFile (fs : Storage) (filePath : string) : M t string :=
  try_catch
    (content ← settled (readAsStringAsync fs filePath);
     mret content)
    (fun _ => throw (Error ("Failed to read file: " ++ filePath))).

Definition writeFile (fs : Storage) (filePath content : string) : M t unit :=
  try_catch
    (settled (writeAsStringAsync fs filePath content))
    (fun _ => throw (Error ("Failed to write file: " ++ filePath))).

(** Local file system is always "connected" *)
Definition isConnected (self : t) : bool := true.

Definition getConnectionInfo (fs : Storage) (self : t) : ConnectionInfo :=
  {| ci_connected := true;
     ci_source := local;
     ci_details :=
       DetailsLocal
         {| ld_documentDirectory := documentDirectory fs;
            ld_cacheDirectory := cacheDirectory fs;
            ld_currentPath := currentPath self |} |}.

End LocalFileSystem.

(** ** The socket behind WebSocketSSHService

    [listDirectory], [readFile], [writeFile] and [executeCommand] share one
    body: arm a timer that rejects the promise of the call, register a
    [once] listener on the success event and one on the error event, each
    of which clears the timer and settles the promise, and emit the request.
    This module is that body, together with the three things that happen to
    it afterwards: a message arrives on the socket, time passes, another
    request is issued. *)
Module Transport.

Inductive Operation : Type := ListDir | ReadFile | WriteFile | ExecuteCommand.

Global Instance Operation_eq_dec : EqDecision Operation.
Proof. solve_decision. Defined.

(** The request emitted on the socket. *)
Inductive Request : Type :=
| ReqListDir (path : string)
| ReqReadFile (filePath : string)
| ReqWriteFile (filePath content : string)
| ReqExecuteCommand (command : string).

Definition request_op (q : Request) : Operation :=
  match q with
  | ReqListDir _ => ListDir
  | ReqReadFile _ => ReadFile
  | ReqWriteFile _ _ => WriteFile
  | ReqExecuteCommand _ => ExecuteCommand
  end.

Definition requestName (op : Operation) : string :=
  match op with
  | ListDir => "ssh:listDir"
  | ReadFile => "ssh:readFile"
  | WriteFile => "ssh:writeFile"
  | ExecuteCommand => "ssh:executeCommand"
  end.

(** The delay given to [setTimeout], in milliseconds. *)
Definition timeoutMs (op : Operation) : Z :=
  match op with
  | ListDir => 15000
  | ReadFile => 20000
  | WriteFile => 20000
  | ExecuteCommand => 30000
  end.

Definition timeoutMessage (op : Operation) : string :=
  match op with
  | ListDir => "List directory timeout"
  | ReadFile => "Read file timeout"
  | WriteFile => "Write file timeout"
  | ExecuteCommand => "Execute command timeout"
  end.

(** A message of the proxy server that one of the four methods listens
    for, with its payload. *)
Inductive Reply : Type :=
| ListDirSuccess (files : list FileItem)
| ListDirError (error : string)
| ReadFileSuccess (filePath content : string)
| ReadFileError (error : string)
| WriteFileSuccess
| WriteFileError (error : string)
| ExecuteCommandSuccess (stdout : option string)
| ExecuteCommandError (error : string).

Definition reply_op (r : Reply) : Operation :=
  match r with
  | ListDirSuccess _ | ListDirError _ => ListDir
  | ReadFileSuccess _ _ | ReadFileError _ => ReadFile
  | WriteFileSuccess | WriteFileError _ => WriteFile
  | ExecuteCommandSuccess _ | ExecuteCommandError _ => ExecuteCommand
  end.

Definition reply_success (r : Reply) : bool :=
  match r with
  | ListDirSuccess _ | ReadFileSuccess _ _ | WriteFileSuccess
  | ExecuteCommandSuccess _ => true
  | _ => false
  end.

(** The event name a reply travels under. *)
Definition replyName (r : Reply) : string :=
  requestName (reply_op r) ++ (if reply_success r then ":success" else ":error").

(** What a promise resolves with. *)
Inductive Value : Type :=
| VFiles (files : list FileItem)
| VString (s : string)
| VVoid.

Inductive Promise : Type :=
| Pending
| Resolved (v : Value)
| Rejected (e : JsError).

(** What the listener of a reply calls: [resolve(files)],
    [resolve(data.content)], [resolve()], [resolve(result.stdout || '')],
    and [reject(new Error(error))] for the four error events. *)
Definition settlement (r : Reply) : Promise :=
  match r with
  | ListDirSuccess files => Resolved (VFiles files)
  | ReadFileSuccess _ content => Resolved (VString content)
  | WriteFileSuccess => Resolved VVoid
  | ExecuteCommandSuccess stdout => Resolved (VString (or_else stdout ""))
  | ListDirError error | ReadFileError error | WriteFileError error
  | ExecuteCommandError error => Rejected (Error error)
  end.

(** A listener registered with [socket.once]: the event it waits for and
    the call whose timer and promise its closure holds. *)
Record Listener : Type := {
  l_op : Operation;
  l_success : bool;
  l_call : nat
}.

Global Instance Listener_eq_dec : EqDecision Listener.
Proof. solve_decision. Defined.

(** A timer armed with [setTimeout]. *)
Record Timer : Type := {
  t_call : nat;
  t_due : Z;
  t_message : string
}.

Record t : Type := {
  now : Z;                       (* the clock, in milliseconds *)
  listeners : list Listener;     (* in registration order *)
  timers : list Timer;           (* armed and not yet fired or cleared *)
  promises : list Promise;       (* the promise of call [i] at index [i] *)
  emitted : list Request         (* what was sent to the proxy server *)
}.

Definition fresh : t :=
  {| now := 0; listeners := []; timers := []; promises := []; emitted := [] |}.

(** [resolve] and [reject] do nothing on a promise that is settled. *)
Definition settle (call : nat) (p : Promise) (ps : list Promise)
    : list Promise :=
  match ps !! call with
  | Some Pending => <[call := p]> ps
  | _ => ps
  end.

(** [clearTimeout] *)
Definition clearTimeout (call : nat) (ts : list Timer) : list Timer :=
  filter (fun tm => t_call tm ≠ call) ts.

(** The body of the [new Promise] of the four methods. The call is named
    by the index of its promise. *)
Definition request (q : Request) (s : t) : nat * t :=
  let call := length (promises s) in
  let op := request_op q in
  (call,
   {| now := now s;
      timers := timers s ++
        [{| t_call := call; t_due := now s + timeoutMs op;
            t_message := timeoutMessage op |}];
      listeners := listeners s ++
        [{| l_op := op; l_success := true; l_call := call |};
         {| l_op := op; l_success := false; l_call := call |}];
      promises := promises s ++ [Pending];
      emitted := emitted s ++ [q] |}).

Definition listens_for (r : Reply) (l : Listener) : bool :=
  bool_decide (l_op l = reply_op r) && Bool.eqb (l_success l) (reply_success r).

(** One listener runs: [clearTimeout(timeout)], then [resolve] or
    [reject]. *)
Definition run_listener (r : Reply) (s : t) (l : Listener) : t :=
  {| now := now s;
     listeners := listeners s;
     timers := clearTimeout (l_call l) (timers s);
     promises := settle (l_call l) (settlement r) (promises s);
     emitted := emitted s |}.

(** A reply arrives: the socket takes the [once] listeners of its name off
    and runs them in registration order. *)
Definition deliver (r : Reply) (s : t) : t :=
  foldl (run_listener r)
    {| now := now s;
       listeners := filter (fun l => listens_for r l = false) (listeners s);
       timers := timers s;
       promises := promises s;
       emitted := emitted s |}
    (filter (fun l => listens_for r l = true) (listeners s)).

(** The callback of [setTimeout]: [reject(new Error(message))]. *)
Definition run_timer (ps : list Promise) (tm : Timer) : list Promise :=
  settle (t_call tm) (Rejected (Error (t_message tm))) ps.

(** [ms] milliseconds pass without a message: the timers that are due
    fire. *)
Definition advance (ms : Z) (s : t) : t :=
  let now' := now s + Z.max 0 ms in
  {| now := now';
     listeners := listeners s;
     timers := filter (fun tm => now' < t_due tm) (timers s);
     promises :=
       foldl run_timer (promises s)
             (filter (fun tm => t_due tm <= now') (timers s));
     emitted := emitted s |}.

Inductive Event : Type :=
| Arrives (r : Reply)
| Passes (ms : Z)
| Issues (q : Request).

Definition step (s : t) (e : Event) : t :=
  match e with
  | Arrives r => deliver r s
  | Passes ms => advance ms s
  | Issues q => snd (request q s)
  end.

Definition run (events : list Event) (s : t) : t := foldl step s events.

(** The time a sequence of events takes. *)
Fixpoint elapsed (events : list Event) : Z :=
  match events with
  | [] => 0
  | Passes ms :: events' => Z.max 0 ms + elapsed events'
  | _ :: events' => elapsed events'
  end.

(** The two listeners and the timer of a call. *)
Definition listenerOf (op : Operation) (success : bool) (call : nat)
    : Listener :=
  {| l_op := op; l_success := success; l_call := call |}.

Definition successListener (op : Operation) (call : nat) : Listener :=
  listenerOf op true call.

Definition errorListener (op : Operation) (call : nat) : Listener :=
  listenerOf op false call.

Definition timerOf (op : Operation) (call : nat) (due : Z) : Timer :=
  {| t_call := call; t_due := due; t_message := timeoutMessage op |}.

(** The event is no reply to a request of [op]. *)
Definition quiet_for (op : Operation) (e : Event) : Prop :=
  match e with
  | Arrives r => reply_op r <> op
  | _ => True
  end.

(** The listeners and timers of the socket belong to calls that were
    issued. *)
Definition issued (s : t) : Prop :=
  Forall (fun l => (l_call l < length (promises s))%nat) (listeners s) /\
  Forall (fun tm => (t_call tm < length (promises s))%nat) (timers s).

(** The call [call], a request of [op] whose timer is due at [due], has had
    no reply: its listeners are on the socket, and it is pending with its
    timer armed until [due] and rejected with the message of the timer from
    then on. *)
Definition unanswered (op : Operation) (call : nat) (due : Z) (s : t) : Prop :=
  (call < length (promises s))%nat /\
  (forall l, l ∈ listeners s -> l_call l = call -> l_op l = op) /\
  (forall tm, tm ∈ timers s -> t_call tm = call -> tm = timerOf op call due) /\
  successListener op call ∈ listeners s /\
  errorListener op call ∈ listeners s /\
  ((now s < due /\ promises s !! call = Some Pending /\
    timerOf op call due ∈ timers s) \/
   (due <= now s /\
    promises s !! call = Some (Rejected (Error (timeoutMessage op))))).

End Transport.

(** ** SecureCredentialStore.ts: the credentials record

    The fields the services read. *)
Record SSHCredentials : Type := {
  host : string;
  port : string;
  username : string;
  password : option string;
  privateKey : option string;
  initialPath : option string
}.

(** ** The proxy server, one call at a time

    What the proxy server does with one request: it answers with the success
    event, with the error event, or with neither before the timer of the
    call fires. *)
Inductive Answer (A : Type) : Type :=
| Success (data : A)
| Failure (error : string)
| NoAnswer.
Arguments Success {A} data.
Arguments Failure {A} error.
Arguments NoAnswer {A}.

Record Proxy : Type := {
  (* the socket's own 'connect' / 'connect_error' (with error.message) *)
  socket_connect : Answer unit;
  ssh_connect : SSHCredentials -> Answer unit;
  ssh_listDir : string -> Answer (list FileItem);
  ssh_readFile : string -> Answer string;               (* data.content *)
  ssh_writeFile : string -> string -> Answer unit;
  ssh_executeCommand : string -> Answer (option string); (* result.stdout *)
  (* whether 'ssh:disconnect:success' comes within 5 s *)
  ssh_disconnect : bool
}.

(** The promise built around a request: resolved by the success event,
    rejected with the error of the error event, rejected with the message of
    the timer otherwise. *)
Definition awaitReply {S A} (answer : Answer A) (timeoutMessage : string)
    : M S A :=
  match answer with
  | Success data => mret data
  | Failure error => throw (Error error)
  | NoAnswer => throw (Error timeoutMessage)
  end.

(** The result of that promise. *)
Definition replied {A} (answer : Answer A) (timeoutMessage : string)
    : Result A :=
  match answer with
  | Success data => Ok data
  | Failure error => Throw (Error error)
  | NoAnswer => Throw (Error timeoutMessage)
  end.

Inductive OutputType : Type := stdout | stderr.

Definition StreamingCallback : Type := OutputType -> string -> unit.

(** ** WebSocketSSHService *)
Module WebSocketSSHService.

(** The socket.io socket, as far as the service reads it. *)
Record Socket : Type := { socket_connected : bool }.

Record t : Type := {
  socket : option Socket;
  connected : bool;
  currentPath : string;
  connectionInfo : option RemoteDetails;
  streamingCallback : option StreamingCallback
}.

(** The field initialisers of the class. *)
Definition create : t :=
  {| socket := None; connected := false; currentPath := "/";
     connectionInfo := None; streamingCallback := None |}.

Definition set_socket (v : option Socket) (s : t) : t :=
  {| socket := v; connected := connected s; currentPath := currentPath s;
     connectionInfo := connectionInfo s;
     streamingCallback := streamingCallback s |}.

Definition set_connected (v : bool) (s : t) : t :=
  {| socket := socket s; connected := v; currentPath := currentPath s;
     connectionInfo := connectionInfo s;
     streamingCallback := streamingCallback s |}.

Definition set_currentPath (v : string) (s : t) : t :=
  {| socket := socket s; connected := connected s; currentPath := v;
     connectionInfo := connectionInfo s;
     streamingCallback := streamingCallback s |}.

Definition set_connectionInfo (v : option RemoteDetails) (s : t) : t :=
  {| socket := socket s; connected := connected s;
     currentPath := currentPath s; connectionInfo := v;
     streamingCallback := streamingCallback s |}.

Definition set_streamingCallback (v : option StreamingCallback) (s : t) : t :=
  {| socket := socket s; connected := connected s;
     currentPath := currentPath s; connectionInfo := connectionInfo s;
     streamingCallback := v |}.

Definition has_socket (s : t) : bool :=
  match socket s with Some _ => true | None => false end.

Definition cleanup : M t unit :=
  assign (fun s =>
    set_connectionInfo None
      (set_currentPath "/" (set_connected false (set_socket None s)))).

Definition waitForSocketConnection (proxy : Proxy) : M t unit :=
  self ← this;
  match socket self with
  | None => throw (Error "Socket not initialized")
  | Some sock =>
      if socket_connected sock then mret tt
      else
        match socket_connect proxy with
        | Success _ =>
            assign (set_socket (Some {| socket_connected := true |}))
        | Failure message =>
            throw (Error ("Socket connection failed: " ++ message))
        | NoAnswer => throw (Error "Socket connection timeout")
        end
  end.

Definition connectSSH (proxy : Proxy) (credentials : SSHCredentials)
    : M t bool :=
  self ← this;
  if negb (has_socket self) then throw (Error "Socket not connected")
  else
    match ssh_connect proxy credentials with
    | Success _ => mret true
    | Failure error => throw (Error ("SSH connection failed: " ++ error))
    | NoAnswer => throw (Error "SSH connection timeout")
    end.

Definition connect (proxy : Proxy) (credentials : SSHCredentials)
    : M t bool :=
  try_catch
    ((* this.socket = io(this.serverUrl, ...) *)
     _ ← assign (set_socket (Some {| socket_connected := false |}));
     _ ← waitForSocketConnection proxy;
     sshConnected ← connectSSH proxy credentials;
     if (sshConnected : bool) then
       _ ← assign (fun s =>
             let path :=
               or_else (initialPath credentials)
                       ("/home/" ++ username credentials) in
             set_connectionInfo
               (Some {| rd_host := host credentials;
                        rd_username := username credentials;
                        rd_currentPath := path |})
               (set_currentPath path (set_connected true s)));
       mret true
     else mret false)
    (fun error => _ ← cleanup; throw error).

Definition setStreamingCallback (callback : StreamingCallback) : M t unit :=
  assign (set_streamingCallback (Some callback)).

(** The handlers of [setupSocketHandlers] that assign to a field, and what
    the socket does to itself on the same occasions. *)
Definition on_disconnect (s : t) : t :=
  set_connected false
    (set_socket
       (match socket s with
        | Some _ => Some {| socket_connected := false |}
        | None => None
        end) s).

Definition on_ssh_disconnected (s : t) : t := set_connected false s.

(** The socket connects again on its own. *)
Definition on_connect (s : t) : t :=
  set_socket
    (match socket s with
     | Some _ => Some {| socket_connected := true |}
     | None => None
     end) s.

Definition not_connected (self : t) : bool :=
  negb (connected self) || negb (has_socket self).

Definition listDirectory (proxy : Proxy) (path : option string)
    : M t (list FileItem) :=
  self ← this;
  if not_connected self then throw (Error "SSH not connected")
  else
    let targetPath := or_else path (currentPath self) in
    awaitReply (ssh_listDir proxy targetPath) "List directory timeout".

Definition readFile (proxy : Proxy) (filePath : string) : M t string :=
  self ← this;
  if not_connected self then throw (Error "SSH not connected")
  else awaitReply (ssh_readFile proxy filePath) "Read file timeout".

Definition writeFile (proxy : Proxy) (filePath content : string)
    : M t unit :=
  self ← this;
  if not_connected self then throw (Error "SSH not connected")
  else awaitReply (ssh_writeFile proxy filePath content) "Write file timeout".

Definition executeCommand (proxy : Proxy) (command : string) : M t string :=
  self ← this;
  if not_connected self then throw (Error "SSH not connected")
  else
    result_stdout ← awaitReply (ssh_executeCommand proxy command)
                               "Execute command timeout";
    mret (or_else result_stdout "").

Definition changeDirectory (proxy : Proxy) (path : string) : M t unit :=
  (* Validate directory exists by trying to list it *)
  _ ← listDirectory proxy (Some path);
  assign (fun s =>
    set_connectionInfo
      (match connectionInfo s with
       | Some info =>
           Some {| rd_host := rd_host info; rd_username := rd_username info;
                   rd_currentPath := path |}
       | None => None
       end)
      (set_currentPath path s)).

Definition getCurrentPath (self : t) : string := currentPath self.

(** [this.connected && this.socket?.connected === true] *)
Definition isConnected (self : t) : bool :=
  connected self &&
  match socket self with
  | Some sock => socket_connected sock
  | None => false
  end.

Definition getConnectionInfo (self : t) : ConnectionInfo :=
  {| ci_connected := connected self;
     ci_source := remote;
     ci_details := DetailsRemote (connectionInfo self) |}.

(** The wait of [disconnect]: the promise resolves on the acknowledgement
    and resolves as well when its 5 s timer fires. *)
Definition awaitDisconnect (acknowledged : bool) : M t unit :=
  if acknowledged then mret tt else mret tt.

Definition disconnect (proxy : Proxy) : M t unit :=
  try_catch
    (self ← this;
     _ ← (if has_socket self && connected self
          then awaitDisconnect (ssh_disconnect proxy)
          else mret tt);
     cleanup)
    (fun _ => cleanup).

End WebSocketSSHService.

(** ** RemoteFileSystem.ts *)
Module RemoteFileSystem.

Record t : Type := { sshService : WebSocketSSHService.t }.

Definition create : t := {| sshService := WebSocketSSHService.create |}.

Definition set_sshService (v : WebSocketSSHService.t) (s : t) : t :=
  {| sshService := v |}.

(** A call on [this.sshService]. *)
Definition ssh {A} (m : M WebSocketSSHService.t A) : M t A :=
  on_field sshService set_sshService m.

Definition getCurrentPath (self : t) : string :=
  WebSocketSSHService.getCurrentPath (sshService self).

Definition isConnected (self : t) : bool :=
  WebSocketSSHService.isConnected (sshService self).

Definition listDirectory (proxy : Proxy) (path : option string)
    : M t (list FileItem) :=
  self ← this;
  if negb (isConnected self) then
    throw (Error "Not connected to remote server")
  else
    try_catch
      (ssh (WebSocketSSHService.listDirectory proxy path))
      (fun _ =>
         self ← this;
         throw (Error ("Failed to list remote directory: "
                       ++ or_else path (getCurrentPath self)))).

Definition changeDirectory (proxy : Proxy) (path : string) : M t unit :=
  self ← this;
  if negb (isConnected self) then
    throw (Error "Not connected to remote server")
  else
    try_catch
      (ssh (WebSocketSSHService.changeDirectory proxy path))
      (fun error => throw error).

Definition readFile (proxy : Proxy) (filePath : string) : M t string :=
  self ← this;
  if negb (isConnected self) then
    throw (Error "Not connected to remote server")
  else
    try_catch
      (ssh (WebSocketSSHService.readFile proxy filePath))
      (fun _ => throw (Error ("Failed to read remote file: " ++ filePath))).

Definition writeFile (proxy : Proxy) (filePath content : string)
    : M t unit :=
  self ← this;
  if negb (isConnected self) then
    throw (Error "Not connected to remote server")
  else
    try_catch
      (ssh (WebSocketSSHService.writeFile proxy filePath content))
      (fun _ => throw (Error ("Failed to write remote file: " ++ filePath))).

Definition getConnectionInfo (self : t) : ConnectionInfo :=
  WebSocketSSHService.getConnectionInfo (sshService self).

Definition connect (proxy : Proxy) (credentials : SSHCredentials)
    : M t bool :=
  ssh (WebSocketSSHService.connect proxy credentials).

Definition disconnect (proxy : Proxy) : M t unit :=
  ssh (WebSocketSSHService.disconnect proxy).

Definition executeCommand (proxy : Proxy) (command : string) : M t string :=
  self ← this;
  if negb (isConnected self) then
    throw (Error "Not connected to remote server")
  else ssh (WebSocketSSHService.executeCommand proxy command).

Definition setStreamingCallback (callback : StreamingCallback) : M t unit :=
  ssh (WebSocketSSHService.setStreamingCallback callback).

End RemoteFileSystem.

(** ** RealSSHService (SSHClient.ts): the fallback connection *)
Module RealSSHService.

Record t : Type := {
  isConnected : bool;
  currentCredentials : option SSHCredentials;
  currentPath : string
}.

Definition create : t :=
  {| isConnected := false; currentCredentials := None; currentPath := "/" |}.

Definition connectFallback (credentials : SSHCredentials) : M t bool :=
  try_catch
    ((* Validate credentials format *)
     if negb (truthy (password credentials))
        && negb (truthy (privateKey credentials)) then
       throw (Error "No password or private key provided")
     else
       (* For the GT server, validate the password *)
       if String.eqb (host credentials) "panli-srv1.ece.gatech.edu"
          && negb (bool_decide (password credentials = Some "Monkeystroke69!"))
       then throw (Error "Authentication failed: Invalid password")
       else
         _ ← assign (fun _ =>
               {| isConnected := true;
                  currentCredentials := Some credentials;
                  currentPath :=
                    or_else (initialPath credentials)
                            ("/home/" ++ username credentials) |});
         mret true)
    (fun error => throw error).

End RealSSHService.

(** ** FileSystemManager *)
Module FileSystemManager.

Record t : Type := {
  currentFileSystem : FileSystemSource;
  localFS : LocalFileSystem.t;
  remoteFS : RemoteFileSystem.t
}.

Definition set_currentFileSystem (v : FileSystemSource) (s : t) : t :=
  {| currentFileSystem := v; localFS := localFS s; remoteFS := remoteFS s |}.

Definition set_localFS (v : LocalFileSystem.t) (s : t) : t :=
  {| currentFileSystem := currentFileSystem s; localFS := v;
     remoteFS := remoteFS s |}.

Definition set_remoteFS (v : RemoteFileSystem.t) (s : t) : t :=
  {| currentFileSystem := currentFileSystem s; localFS := localFS s;
     remoteFS := v |}.

(** The manager as the module exports it: [new FileSystemManager()] over
    the two backends as their modules export them. *)
Definition create (fs : Storage) : t :=
  {| currentFileSystem := local;
     localFS := LocalFileSystem.create fs;
     remoteFS := RemoteFileSystem.create |}.

(** A call on [this.localFS] and a call on [this.remoteFS]. *)
Definition onLocal {A} (m : M LocalFileSystem.t A) : M t A :=
  on_field localFS set_localFS m.

Definition onRemote {A} (m : M RemoteFileSystem.t A) : M t A :=
  on_field remoteFS set_remoteFS m.

Definition getCurrentSource (self : t) : FileSystemSource :=
  currentFileSystem self.

Definition switchToLocal : M t unit :=
  assign (set_currentFileSystem local).

Definition switchToRemote : M t unit :=
  self ← this;
  if negb (RemoteFileSystem.isConnected (remoteFS self)) then
    throw (Error "Cannot switch to remote file system: not connected")
  else assign (set_currentFileSystem remote).

Section WithCollaborators.
Variable localeCompare : string -> string -> Z.
Variable fs : Storage.
Variable proxy : Proxy.

(** The two objects behind [getCurrentFS], seen from the manager. *)
Definition localImpl : FileSystemInterface t :=
  {| FileSystemInterface.getCurrentPath self :=
       LocalFileSystem.getCurrentPath (localFS self);
     FileSystemInterface.listDirectory path :=
       onLocal (LocalFileSystem.listDirectory localeCompare fs path);
     FileSystemInterface.changeDirectory path :=
       onLocal (LocalFileSystem.changeDirectory fs path);
     FileSystemInterface.readFile filePath :=
       onLocal (LocalFileSystem.readFile fs filePath);
     FileSystemInterface.writeFile filePath content :=
       onLocal (LocalFileSystem.writeFile fs filePath content);
     FileSystemInterface.isConnected self :=
       LocalFileSystem.isConnected (localFS self);
     FileSystemInterface.getConnectionInfo self :=
       LocalFileSystem.getConnectionInfo fs (localFS self) |}.

Definition remoteImpl : FileSystemInterface t :=
  {| FileSystemInterface.getCurrentPath self :=
       RemoteFileSystem.getCurrentPath (remoteFS self);
     FileSystemInterface.listDirectory path :=
       onRemote (RemoteFileSystem.listDirectory proxy path);
     FileSystemInterface.changeDirectory path :=
       onRemote (RemoteFileSystem.changeDirectory proxy path);
     FileSystemInterface.readFile filePath :=
       onRemote (RemoteFileSystem.readFile proxy filePath);
     FileSystemInterface.writeFile filePath content :=
       onRemote (RemoteFileSystem.writeFile proxy filePath content);
     FileSystemInterface.isConnected self :=
       RemoteFileSystem.isConnected (remoteFS self);
     FileSystemInterface.getConnectionInfo self :=
       RemoteFileSystem.getConnectionInfo (remoteFS self) |}.

Definition getCurrentFS (self : t) : FileSystemInterface t :=
  if decide (currentFileSystem self = local) then localImpl
  else remoteImpl.

Definition connectToRemote (credentials : SSHCredentials) : M t bool :=
  success ← onRemote (RemoteFileSystem.connect proxy credentials);
  _ ← (if (success : bool) then assign (set_currentFileSystem remote)
       else mret tt);
  mret success.

Definition disconnectFromRemote : M t unit :=
  _ ← onRemote (RemoteFileSystem.disconnect proxy);
  assign (set_currentFileSystem local).

(* Unified file system operations (delegate to current FS) *)

Definition getCurrentPath (self : t) : string :=
  FileSystemInterface.getCurrentPath (getCurrentFS self) self.

Definition listDirectory (path : option string) : M t (list FileItem) :=
  self ← this;
  FileSystemInterface.listDirectory (getCurrentFS self) path.

Definition changeDirectory (path : string) : M t unit :=
  self ← this;
  FileSystemInterface.changeDirectory (getCurrentFS self) path.

Definition readFile (filePath : string) : M t string :=
  self ← this;
  FileSystemInterface.readFile (getCurrentFS self) filePath.

Definition writeFile (filePath content : string) : M t unit :=
  self ← this;
  FileSystemInterface.writeFile (getCurrentFS self) filePath content.

Definition isConnected (self : t) : bool :=
  FileSystemInterface.isConnected (getCurrentFS self) self.

Definition getConnectionInfo (self : t) : ConnectionInfo :=
  let info := FileSystemInterface.getConnectionInfo (getCurrentFS self) self in
  {| ci_connected := ci_connected info;
     ci_source := currentFileSystem self;
     ci_details := ci_details info |}.

Definition isRemoteConnected (self : t) : bool :=
  RemoteFileSystem.isConnected (remoteFS self).

Definition getFullStatus (self : t)
    : FileSystemSource * ConnectionInfo * ConnectionInfo :=
  (currentFileSystem self,
   LocalFileSystem.getConnectionInfo fs (localFS self),
   RemoteFileSystem.getConnectionInfo (remoteFS self)).

Definition executeCommand (command : string) : M t string :=
  self ← this;
  if negb (bool_decide (currentFileSystem self = remote)) then
    throw (Error "Command execution only available in remote mode")
  else onRemote (RemoteFileSystem.executeCommand proxy command).

Definition setStreamingCallback (callback : StreamingCallback)
    : M t unit :=
  self ← this;
  if bool_decide (currentFileSystem self = remote) then
    onRemote (RemoteFileSystem.setStreamingCallback callback)
  else mret tt.

Definition createFile (filePath : string) (content : option string)
    : M t unit :=
  writeFile filePath (default "" content).

Definition pathExists (path : string) : M t bool :=
  try_catch
    (self ← this;
     if bool_decide (currentFileSystem self = local) then
       files ← listDirectory None;
       mret (some (fun file =>
                     String.eqb (FileSystemInterface.path file) path) files)
     else
       (* For remote, try to list the parent directory and check if the
          path exists *)
       let parentPath :=
         or_else (Some (substring path 0 (lastIndexOf path "/"))) "/" in
       let fileName := substring_from path (lastIndexOf path "/" + 1) in
       files ← listDirectory (Some parentPath);
       mret (some (fun file =>
                     String.eqb (FileSystemInterface.name file) fileName)
                  files))
    (fun _ => mret false).

End WithCollaborators.

End FileSystemManager.


(** ** A session of the editor

    What can happen to the manager between its creation and a later moment:
    the calls of the user interface, each with the storage and the proxy
    server as they answer at that time, and the events of the socket that the
    handlers of [setupSocketHandlers] react to. *)
Module Session.

Inductive Action : Type :=
| SwitchToLocal
| SwitchToRemote
| ConnectToRemote (proxy : Proxy) (credentials : SSHCredentials)
| DisconnectFromRemote (proxy : Proxy)
| ListDirectory (fs : Storage) (proxy : Proxy) (path : option string)
| ChangeDirectory (fs : Storage) (proxy : Proxy) (path : string)
| ReadFile (fs : Storage) (proxy : Proxy) (filePath : string)
| WriteFile (fs : Storage) (proxy : Proxy) (filePath content : string)
| ExecuteCommand (proxy : Proxy) (command : string)
| SetStreamingCallback (callback : StreamingCallback)
| PathExists (fs : Storage) (proxy : Proxy) (path : string)
| SocketDisconnects        (* the socket's 'disconnect' *)
| SshDisconnected          (* 'ssh:disconnected' *)
| SocketConnects.          (* the socket's 'connect', after a reconnection *)

(** The service inside the manager. *)
Definition remoteService (s : FileSystemManager.t) : WebSocketSSHService.t :=
  RemoteFileSystem.sshService (FileSystemManager.remoteFS s).

(** An event of the socket reaches the service inside the manager. *)
Definition on_socket (handler : WebSocketSSHService.t -> WebSocketSSHService.t)
    (s : FileSystemManager.t) : FileSystemManager.t :=
  FileSystemManager.set_remoteFS
    (RemoteFileSystem.set_sshService
       (handler (RemoteFileSystem.sshService (FileSystemManager.remoteFS s)))
       (FileSystemManager.remoteFS s))
    s.

Section WithLocale.
Variable localeCompare : string -> string -> Z.

(** The state an action leaves the manager in. *)
Definition perform (a : Action) (s : FileSystemManager.t)
    : FileSystemManager.t :=
  match a with
  | SwitchToLocal => snd (FileSystemManager.switchToLocal s)
  | SwitchToRemote => snd (FileSystemManager.switchToRemote s)
  | ConnectToRemote proxy credentials =>
      snd (FileSystemManager.connectToRemote proxy credentials s)
  | DisconnectFromRemote proxy =>
      snd (FileSystemManager.disconnectFromRemote proxy s)
  | ListDirectory fs proxy path =>
      snd (FileSystemManager.listDirectory localeCompare fs proxy path s)
  | ChangeDirectory fs proxy path =>
      snd (FileSystemManager.changeDirectory localeCompare fs proxy path s)
  | ReadFile fs proxy filePath =>
      snd (FileSystemManager.readFile localeCompare fs proxy filePath s)
  | WriteFile fs proxy filePath content =>
      snd (FileSystemManager.writeFile localeCompare fs proxy filePath content s)
  | ExecuteCommand proxy command =>
      snd (FileSystemManager.executeCommand proxy command s)
  | SetStreamingCallback callback =>
      snd (FileSystemManager.setStreamingCallback callback s)
  | PathExists fs proxy path =>
      snd (FileSystemManager.pathExists localeCompare fs proxy path s)
  | SocketDisconnects => on_socket WebSocketSSHService.on_disconnect s
  | SshDisconnected => on_socket WebSocketSSHService.on_ssh_disconnected s
  | SocketConnects => on_socket WebSocketSSHService.on_connect s
  end.

Definition perform_all (actions : list Action) (s : FileSystemManager.t)
    : FileSystemManager.t :=
  foldl (fun s a => perform a s) s actions.

(** The action is a [connectToRemote] that returns [true] from [s]. *)
Definition connects (a : Action) (s : FileSystemManager.t) : bool :=
  match a with
  | ConnectToRemote proxy credentials =>
      match fst (FileSystemManager.connectToRemote proxy credentials s) with
      | Ok true => true
      | _ => false
      end
  | _ => false
  end.

(** No [connectToRemote] of the session has succeeded. *)
Fixpoint never_connected (actions : list Action) (s : FileSystemManager.t)
    : Prop :=
  match actions with
  | [] => True
  | a :: actions' =>
      connects a s = false /\ never_connected actions' (perform a s)
  end.

End WithLocale.
End Session.


(** ** The order of a listing *)

(** The two properties of a comparison function that [sort] relies on, for
    [localeCompare]: of two names one comes first, and coming first is
    transitive. *)
Definition consistent (localeCompare : string -> string -> Z) : Prop :=
  (forall a b, localeCompare a b <= 0 \/ localeCompare b a <= 0) /\
  (forall a b c,
      localeCompare a b <= 0 -> localeCompare b c <= 0 ->
      localeCompare a c <= 0).

Definition name_le (localeCompare : string -> string -> Z) (a b : FileItem)
    : Prop :=
  localeCompare (name a) (name b) <= 0.

(** Directories before files, each group in the order of its names. *)
Definition directories_first (localeCompare : string -> string -> Z)
    (items : list FileItem) : Prop :=
  exists directories files,
    items = (directories ++ files)%list /\
    Forall (fun item => isDirectory item = true) directories /\
    Forall (fun item => isDirectory item = false) files /\
    StronglySorted (name_le localeCompare) directories /\
    StronglySorted (name_le localeCompare) files.

(** The item [listDirectory] pushes when the stat of a name fails. *)
Definition unknownItem (targetPath fileName : string) : FileItem :=
  {| name := fileName;
     path := LocalFileSystem.fullPath targetPath fileName;
     isFile := true;
     isDirectory := false;
     size := None;
     modifiedDate := None |}.

(** Code-unit order of two strings as a comparison function; one collation
    [localeCompare] can have. *)
Definition codeUnitCompare (a b : string) : Z :=
  match String.compare a b with
  | Lt => -1
  | Eq => 0
  | Gt => 1
  end.

(** ** Sample collaborators *)

Definition statOf (directory : bool) (bytes : Z) : FileInfo :=
  {| info_exists := true; info_isDirectory := directory;
     info_size := Some bytes; info_modificationTime := Some 1700000000 |}.

Definition statMissing : FileInfo :=
  {| info_exists := false; info_isDirectory := false;
     info_size := None; info_modificationTime := None |}.

(** A document directory with a folder, a file, and a file whose stat
    fails; besides it a folder that can be stat'ed and not listed. *)
Definition sampleStorage : Storage :=
  {| documentDirectory := Some "/docs/";
     cacheDirectory := Some "/cache/";
     readDirectoryAsync p :=
       if String.eqb p "/docs/" then Ok ["b.txt"; "src"; "a.txt"]
       else Throw (Error "Directory could not be read");
     getInfoAsync p :=
       if String.eqb p "/docs/" then Ok (statOf true 0)
       else if String.eqb p "/docs/src" then Ok (statOf true 0)
       else if String.eqb p "/docs/a.txt" then Ok (statOf false 3)
       else if String.eqb p "/docs/b.txt" then Throw (Error "Permission denied")
       else if String.eqb p "/locked" then Ok (statOf true 0)
       else Ok statMissing;
     readAsStringAsync p :=
       if String.eqb p "/docs/a.txt" then Ok "abc"
       else Throw (Error "File could not be read");
     writeAsStringAsync p content := Ok tt |}.

Definition workCredentials : SSHCredentials :=
  {| host := "h"; port := "22"; username := "u";
     password := Some "secret"; privateKey := None;
     initialPath := Some "/work" |}.

Definition bothCredentials : SSHCredentials :=
  {| host := "h"; port := "22"; username := "u";
     password := Some "secret"; privateKey := Some "KEY";
     initialPath := None |}.

Definition bareCredentials : SSHCredentials :=
  {| host := "h"; port := "22"; username := "u";
     password := None; privateKey := None;
     initialPath := None |}.

Definition notesFile : FileItem :=
  {| name := "notes.txt"; path := "/work/notes.txt"; isFile := true;
     isDirectory := false; size := Some 12; modifiedDate := None |}.

Definition srcFolder : FileItem :=
  {| name := "src"; path := "/work/src"; isFile := false;
     isDirectory := true; size := None; modifiedDate := None |}.

(** A proxy server that accepts every connection and lists a file before a
    folder. *)
Definition workProxy : Proxy :=
  {| socket_connect := Success tt;
     ssh_connect _ := Success tt;
     ssh_listDir p :=
       if String.eqb p "/work" then Success [notesFile; srcFolder]
       else Failure "No such file";
     ssh_readFile p := Success "hello";
     ssh_writeFile p content := Success tt;
     ssh_executeCommand command := Success (Some "done");
     ssh_disconnect := true |}.

(** A proxy server that is reached and then answers nothing. *)
Definition silentProxy : Proxy :=
  {| socket_connect := Success tt;
     ssh_connect _ := NoAnswer;
     ssh_listDir _ := NoAnswer;
     ssh_readFile _ := NoAnswer;
     ssh_writeFile _ _ := NoAnswer;
     ssh_executeCommand _ := NoAnswer;
     ssh_disconnect := false |}.

(** The service after a connect with [workCredentials]. *)
Definition connectedService : WebSocketSSHService.t :=
  {| WebSocketSSHService.socket :=
       Some {| WebSocketSSHService.socket_connected := true |};
     WebSocketSSHService.connected := true;
     WebSocketSSHService.currentPath := "/work";
     WebSocketSSHService.connectionInfo :=
       Some {| rd_host := "h"; rd_username := "u"; rd_currentPath := "/work" |};
     WebSocketSSHService.streamingCallback := None |}.

Definition connectedRemote : RemoteFileSystem.t :=
  {| RemoteFileSystem.sshService := connectedService |}.

(** The sample document directory as the local backend lists it. *)
Definition sampleListing : list FileItem :=
  [ {| name := "src"; path := "/docs/src"; isFile := false;
       isDirectory := true; size := Some 0;
       modifiedDate := Some 1700000000000 |};
    {| name := "a.txt"; path := "/docs/a.txt"; isFile := true;
       isDirectory := false; size := Some 3;
       modifiedDate := Some 1700000000000 |};
    unknownItem "/docs/" "b.txt" ].

(** The manager after a connect with [workCredentials]. *)
Definition connectedManager : FileSystemManager.t :=
  {| FileSystemManager.currentFileSystem := remote;
     FileSystemManager.localFS := LocalFileSystem.create sampleStorage;
     FileSystemManager.remoteFS := connectedRemote |}.

(** A session in which the proxy server never answers the connect. *)
Definition failedSession : list Session.Action :=
  [ Session.SwitchToRemote;
    Session.ConnectToRemote silentProxy workCredentials;
    Session.ListDirectory sampleStorage silentProxy None;
    Session.SocketConnects;
    Session.ChangeDirectory sampleStorage silentProxy "/docs/src";
    Session.SetStreamingCallback (fun _ _ => tt);
    Session.DisconnectFromRemote silentProxy ].

(** The manager after the socket of a remote session has dropped. *)
Definition droppedManager : FileSystemManager.t :=
  Session.on_socket WebSocketSSHService.on_disconnect connectedManager.

(** ** The state of the service, as a session can leave it *)

(** What holds of the fields of the service together: a connected service
    has a connected socket and connection details, the details carry the
    current path, and a service without a socket is in its initial state. *)
Definition coherent (s : WebSocketSSHService.t) : Prop :=
  (if WebSocketSSHService.connected s then
     WebSocketSSHService.socket s
     = Some {| WebSocketSSHService.socket_connected := true |} /\
     WebSocketSSHService.connectionInfo s <> None
   else True) /\
  match WebSocketSSHService.connectionInfo s with
  | Some info => rd_currentPath info = WebSocketSSHService.currentPath s
  | None => True
  end /\
  match WebSocketSSHService.socket s with
  | Some _ => True
  | None =>
      WebSocketSSHService.connected s = false /\
      WebSocketSSHService.currentPath s = "/" /\
      WebSocketSSHService.connectionInfo s = None
  end.

(** The fields of the service that [coherent] speaks of. *)
Definition connection_state (s : WebSocketSSHService.t)
    : option WebSocketSSHService.Socket * bool * string * option RemoteDetails :=
  (WebSocketSSHService.socket s, WebSocketSSHService.connected s,
   WebSocketSSHService.currentPath s, WebSocketSSHService.connectionInfo s).

(** The service as [cleanup] leaves it. *)
Definition cleaned (s : WebSocketSSHService.t) : WebSocketSSHService.t :=
  {| WebSocketSSHService.socket := None;
     WebSocketSSHService.connected := false;
     WebSocketSSHService.currentPath := "/";
     WebSocketSSHService.connectionInfo := None;
     WebSocketSSHService.streamingCallback :=
       WebSocketSSHService.streamingCallback s |}.

(** The service as a successful [connect] leaves it. *)
Definition established (credentials : SSHCredentials)
    (s : WebSocketSSHService.t) : WebSocketSSHService.t :=
  {| WebSocketSSHService.socket :=
       Some {| WebSocketSSHService.socket_connected := true |};
     WebSocketSSHService.connected := true;
     WebSocketSSHService.currentPath :=
       or_else (initialPath credentials) ("/home/" ++ username credentials);
     WebSocketSSHService.connectionInfo :=
       Some {| rd_host := host credentials;
               rd_username := username credentials;
               rd_currentPath :=
                 or_else (initialPath credentials)
                         ("/home/" ++ username credentials) |};
     WebSocketSSHService.streamingCallback :=
       WebSocketSSHService.streamingCallback s |}.

(** The action registers a streaming callback. *)
Definition sets_callback (a : Session.Action) : bool :=
  match a with
  | Session.SetStreamingCallback _ => true
  | _ => false
  end.

(** A proxy server that is reached and refuses the credentials. *)
Definition refusingProxy : Proxy :=
  {| socket_connect := Success tt;
     ssh_connect _ := Failure "All configured authentication methods failed";
     ssh_listDir _ := NoAnswer;
     ssh_readFile _ := NoAnswer;
     ssh_writeFile _ _ := NoAnswer;
     ssh_executeCommand _ := NoAnswer;
     ssh_disconnect := false |}.

(** The timer of the call [call] guards its promise: as long as the
    promise is pending, the deadline [due] lies ahead and a timer of the
    call is armed for it. *)
Definition guarded (call : nat) (due : Z) (s : Transport.t) : Prop :=
  (call < length (Transport.promises s))%nat /\
  (Transport.promises s !! call = Some Transport.Pending ->
   Transport.now s < due /\
   exists tm, tm ∈ Transport.timers s /\
              Transport.t_call tm = call /\ Transport.t_due tm = due).

(** ** expo-secure-store: the keystore of the device

    [SecureStore] keeps string items under string keys. Each of its calls
    either is performed or rejects; [faults] says which of the coming calls
    reject ([true]), and a keystore with no fault left performs every
    call. *)
Module SecureStore.

Record t : Type := {
  items : gmap string string;
  faults : list bool
}.

Definition empty : t := {| items := ∅; faults := [] |}.

Definition set_items (f : gmap string string -> gmap string string) (s : t)
    : t :=
  {| items := f (items s); faults := faults s |}.

(** One call of the library: rejected when a fault is due. *)
Definition call {A} (body : M t A) : M t A :=
  fun s =>
    match faults s with
    | true :: rest =>
        (Throw (Error "SecureStore"), {| items := items s; faults := rest |})
    | false :: rest => body {| items := items s; faults := rest |}
    | [] => body s
    end.

Definition setItemAsync (key value : string) : M t unit :=
  call (assign (set_items (insert key value))).

Definition getItemAsync (key : string) : M t (option string) :=
  call (s ← this; mret (items s !! key)).

Definition deleteItemAsync (key : string) : M t unit :=
  call (assign (set_items (delete key))).

End SecureStore.

(** ** SecureCredentialStore.ts: the class SecureCredentialStore

    The class has no field of its own: its state is the keystore. A [Date]
    is the number of its milliseconds. The identifier that [generateId()]
    makes and the date that [new Date()] gives during a call are arguments
    of the method. [JSON.stringify] and [JSON.parse] (with the revival of
    the two dates that follows it in [getAllCredentials]) are parameters;
    [parse] gives [None] where the source throws.
    [getOrCreateDefaultServerCredentials], which saves one fixed credential
    through the methods below, is left out. *)
Module SecureCredentialStore.

(** The interface SSHCredentials of this file: the fields the services
    read, and the four the store adds. *)
Record StoredCredentials : Type := {
  id : string;
  name : string;
  createdAt : Z;
  lastUsed : option Z;
  connection : SSHCredentials
}.

(** [Omit<SSHCredentials, 'id' | 'createdAt'>] *)
Record NewCredentials : Type := {
  new_name : string;
  new_lastUsed : option Z;
  new_connection : SSHCredentials
}.

Definition CREDENTIALS_KEY : string := "ssh_credentials".
Definition ACTIVE_CONNECTION_KEY : string := "active_ssh_connection".

Definition passwordKey (id : string) : string := "ssh_password_" ++ id.
Definition privateKeyKey (id : string) : string := "ssh_key_" ++ id.

(** [{...credentials, password: p, privateKey: k}] *)
Definition with_secrets (p k : option string) (c : StoredCredentials)
    : StoredCredentials :=
  {| id := id c; name := name c; createdAt := createdAt c;
     lastUsed := lastUsed c;
     connection :=
       {| host := host (connection c); port := port (connection c);
          username := username (connection c);
          password := p; privateKey := k;
          initialPath := initialPath (connection c) |} |}.

(** [{...cred, lastUsed: date}] *)
Definition with_lastUsed (date : Z) (c : StoredCredentials)
    : StoredCredentials :=
  {| id := id c; name := name c; createdAt := createdAt c;
     lastUsed := Some date; connection := connection c |}.

(** [value || undefined] *)
Definition or_undefined (value : option string) : option string :=
  if truthy value then value else None.

Section Methods.
Variable stringify : list StoredCredentials -> string.
Variable parse : string -> option (list StoredCredentials).

Definition getAllCredentials : M SecureStore.t (list StoredCredentials) :=
  try_catch
    (stored ← SecureStore.getItemAsync CREDENTIALS_KEY;
     match stored with
     | Some text =>
         if String.eqb text "" then mret []
         else match parse text with
              | Some credentials => mret credentials
              | None => throw (Error "SyntaxError")
              end
     | None => mret []
     end)
    (fun _ => mret []).

(** [if (secret) { await SecureStore.setItemAsync(key, secret) }] *)
Definition storeSecret (key : string) (secret : option string)
    : M SecureStore.t unit :=
  match secret with
  | Some value =>
      if String.eqb value "" then mret tt
      else SecureStore.setItemAsync key value
  | None => mret tt
  end.

Definition saveCredentials (credentials : NewCredentials)
    (generatedId : string) (date : Z) : M SecureStore.t string :=
  try_catch
    (let credentialsWithId :=
       {| id := generatedId; name := new_name credentials;
          createdAt := date; lastUsed := new_lastUsed credentials;
          connection := new_connection credentials |} in
     (* Store sensitive data (password/key) separately for security *)
     _ ← storeSecret (passwordKey (id credentialsWithId))
           (password (new_connection credentials));
     _ ← storeSecret (privateKeyKey (id credentialsWithId))
           (privateKey (new_connection credentials));
     (* Store non-sensitive metadata *)
     existingCredentials ← getAllCredentials;
     let updatedCredentials :=
       (existingCredentials
        ++ [with_secrets None None credentialsWithId])%list in
     _ ← SecureStore.setItemAsync CREDENTIALS_KEY
           (stringify updatedCredentials);
     mret (id credentialsWithId))
    (fun _ => throw (Error "Failed to save SSH credentials")).

Definition getCredentials (id' : string)
    : M SecureStore.t (option StoredCredentials) :=
  try_catch
    (allCredentials ← getAllCredentials;
     match List.find (fun cred => String.eqb (id cred) id') allCredentials with
     | None => mret None
     | Some credential =>
         (* Load sensitive data separately *)
         password ← SecureStore.getItemAsync (passwordKey id');
         privateKey ← SecureStore.getItemAsync (privateKeyKey id');
         mret (Some (with_secrets (or_undefined password)
                       (or_undefined privateKey) credential))
     end)
    (fun _ => mret None).

Definition updateLastUsed (id' : string) (date : Z) : M SecureStore.t unit :=
  try_catch
    (credentials ← getAllCredentials;
     let updatedCredentials :=
       map (fun cred =>
              if String.eqb (id cred) id' then with_lastUsed date cred
              else cred)
           credentials in
     SecureStore.setItemAsync CREDENTIALS_KEY (stringify updatedCredentials))
    (fun _ => mret tt).

Definition deleteCredentials (id' : string) : M SecureStore.t unit :=
  try_catch
    (credentials ← getAllCredentials;
     let filteredCredentials :=
       List.filter (fun cred => negb (String.eqb (id cred) id')) credentials in
     _ ← SecureStore.setItemAsync CREDENTIALS_KEY
           (stringify filteredCredentials);
     (* Delete sensitive data *)
     _ ← try_catch (SecureStore.deleteItemAsync (passwordKey id'))
           (fun _ => mret tt);
     try_catch (SecureStore.deleteItemAsync (privateKeyKey id'))
       (fun _ => mret tt))
    (fun _ => throw (Error "Failed to delete SSH credentials")).

Definition setActiveConnection (credentialId : string)
    : M SecureStore.t unit :=
  try_catch
    (SecureStore.setItemAsync ACTIVE_CONNECTION_KEY credentialId)
    (fun _ => mret tt).

Definition getActiveConnection : M SecureStore.t (option StoredCredentials) :=
  try_catch
    (activeId ← SecureStore.getItemAsync ACTIVE_CONNECTION_KEY;
     match activeId with
     | Some activeId =>
         if String.eqb activeId "" then mret None
         else getCredentials activeId
     | None => mret None
     end)
    (fun _ => mret None).

Definition clearActiveConnection : M SecureStore.t unit :=
  try_catch
    (SecureStore.deleteItemAsync ACTIVE_CONNECTION_KEY)
    (fun _ => mret tt).

End Methods.

End SecureCredentialStore.

(** ** The credential store: what the proofs speak of *)

(** The entry carries neither password nor private key. *)
Definition no_secrets (c : SecureCredentialStore.StoredCredentials) : Prop :=
  password (SecureCredentialStore.connection c) = None /\
  privateKey (SecureCredentialStore.connection c) = None.

(** The metadata item, if there is one, is the serialisation of entries
    without secrets. *)
Definition sealed_items
    (stringify : list SecureCredentialStore.StoredCredentials -> string)
    (items : gmap string string) : Prop :=
  items !! SecureCredentialStore.CREDENTIALS_KEY = None \/
  exists credentials,
    Forall no_secrets credentials /\
    items !! SecureCredentialStore.CREDENTIALS_KEY
    = Some (stringify credentials).

Definition sealed
    (stringify : list SecureCredentialStore.StoredCredentials -> string)
    (s : SecureStore.t) : Prop :=
  sealed_items stringify (SecureStore.items s).

(** The calls of a client of the store. *)
Inductive StoreCall : Type :=
| SaveCredentials (credentials : SecureCredentialStore.NewCredentials)
    (generatedId : string) (date : Z)
| GetAllCredentials
| GetCredentials (id : string)
| UpdateLastUsed (id : string) (date : Z)
| DeleteCredentials (id : string)
| SetActiveConnection (credentialId : string)
| GetActiveConnection
| ClearActiveConnection.

(** The keystore after the call, whatever it returned. *)
Definition after_call
    (stringify : list SecureCredentialStore.StoredCredentials -> string)
    (parse : string -> option (list SecureCredentialStore.StoredCredentials))
    (s : SecureStore.t) (c : StoreCall) : SecureStore.t :=
  match c with
  | SaveCredentials credentials generatedId date =>
      snd (SecureCredentialStore.saveCredentials stringify parse
             credentials generatedId date s)
  | GetAllCredentials =>
      snd (SecureCredentialStore.getAllCredentials parse s)
  | GetCredentials id =>
      snd (SecureCredentialStore.getCredentials parse id s)
  | UpdateLastUsed id date =>
      snd (SecureCredentialStore.updateLastUsed stringify parse id date s)
  | DeleteCredentials id =>
      snd (SecureCredentialStore.deleteCredentials stringify parse id s)
  | SetActiveConnection credentialId =>
      snd (SecureCredentialStore.setActiveConnection credentialId s)
  | GetActiveConnection =>
      snd (SecureCredentialStore.getActiveConnection parse s)
  | ClearActiveConnection =>
      snd (SecureCredentialStore.clearActiveConnection s)
  end.

(** [{P} m {Q}]: from a keystore that satisfies [P], the method returns a
    result and leaves a keystore that satisfy [Q]. *)
Definition triple {A} (P : SecureStore.t -> Prop) (m : M SecureStore.t A)
    (Q : Result A -> SecureStore.t -> Prop) : Prop :=
  forall s, P s -> Q (fst (m s)) (snd (m s)).


(** ** A serialisation to run the credential store with

    The entries are numbered ([encode], [decode]) and the number is written
    in binary digits after an opening bracket. *)
Global Instance SSHCredentials_eq_dec : EqDecision SSHCredentials.
Proof. solve_decision. Defined.

Global Instance SSHCredentials_countable : Countable SSHCredentials.
Proof.
  apply (inj_countable'
           (fun c => (host c, port c, username c, password c, privateKey c,
                      initialPath c))
           (fun '(h, p, u, pw, k, i) =>
              {| host := h; port := p; username := u; password := pw;
                 privateKey := k; initialPath := i |})).
  by intros [].
Defined.

Global Instance StoredCredentials_eq_dec :
  EqDecision SecureCredentialStore.StoredCredentials.
Proof. solve_decision. Defined.

Global Instance StoredCredentials_countable :
  Countable SecureCredentialStore.StoredCredentials.
Proof.
  apply (inj_countable'
           (fun c => (SecureCredentialStore.id c, SecureCredentialStore.name c,
                      SecureCredentialStore.createdAt c,
                      SecureCredentialStore.lastUsed c,
                      SecureCredentialStore.connection c))
           (fun '(i, n, c, l, k) =>
              {| SecureCredentialStore.id := i;
                 SecureCredentialStore.name := n;
                 SecureCredentialStore.createdAt := c;
                 SecureCredentialStore.lastUsed := l;
                 SecureCredentialStore.connection := k |})).
  by intros [].
Defined.

Fixpoint digits (p : positive) : string :=
  match p with
  | xH => ""
  | xO p => String "0" (digits p)
  | xI p => String "1" (digits p)
  end.

Fixpoint number (text : string) : option positive :=
  match text with
  | "" => Some xH
  | String c text =>
      match number text with
      | Some p =>
          if Ascii.eqb c "0" then Some (xO p)
          else if Ascii.eqb c "1" then Some (xI p)
          else None
      | None => None
      end
  end.

Definition sampleStringify
    (credentials : list SecureCredentialStore.StoredCredentials) : string :=
  String "[" (digits (encode credentials)).

Definition sampleParse (text : string)
    : option (list SecureCredentialStore.StoredCredentials) :=
  match text with
  | String "[" text =>
      match number text with
      | Some p => decode p
      | None => None
      end
  | _ => None
  end.

(** Credentials to save: a password and no key. *)
Definition workLogin : SecureCredentialStore.NewCredentials :=
  {| SecureCredentialStore.new_name := "work";
     SecureCredentialStore.new_lastUsed := None;
     SecureCredentialStore.new_connection := workCredentials |}.

(** A keystore that rejects the second call made to it. *)
Definition flakyStore : SecureStore.t :=
  {| SecureStore.items := ∅; SecureStore.faults := [false; true] |}.


(** What the metadata item holds, as [getAllCredentials] reads it. *)
Definition listed
    (parse : string -> option (list SecureCredentialStore.StoredCredentials))
    (items : gmap string string)
    : list SecureCredentialStore.StoredCredentials :=
  match items !! SecureCredentialStore.CREDENTIALS_KEY with
  | Some text => if String.eqb text "" then [] else default [] (parse text)
  | None => []
  end.

(** A keystore that performs every call. *)
Definition reliable (items : gmap string string) : SecureStore.t :=
  {| SecureStore.items := items; SecureStore.faults := [] |}.

(** The entry that [saveCredentials] makes of its argument. *)
Definition entryOf (credentials : SecureCredentialStore.NewCredentials)
    (generatedId : string) (date : Z)
    : SecureCredentialStore.StoredCredentials :=
  {| SecureCredentialStore.id := generatedId;
     SecureCredentialStore.name := SecureCredentialStore.new_name credentials;
     SecureCredentialStore.createdAt := date;
     SecureCredentialStore.lastUsed :=
       SecureCredentialStore.new_lastUsed credentials;
     SecureCredentialStore.connection :=
       SecureCredentialStore.new_connection credentials |}.

(** The items after [storeSecret]. *)
Definition withSecret (key : string) (secret : option string)
    (items : gmap string string) : gmap string string :=
  if truthy secret then <[key := default "" secret]> items else items.

(** The number of secrets that [saveCredentials] stores for the
    credentials. *)
Definition secretCount (credentials : SecureCredentialStore.NewCredentials)
    : nat :=
  ((if truthy (password (SecureCredentialStore.new_connection credentials))
    then 1 else 0) +
   (if truthy (privateKey (SecureCredentialStore.new_connection credentials))
    then 1 else 0))%nat.

(** A keystore that performs [performed] calls, rejects the next one and
    performs every call after it. *)
Definition rejectingAfter (performed : nat) (items : gmap string string)
    : SecureStore.t :=
  {| SecureStore.items := items;
     SecureStore.faults := replicate performed false ++ [true] |}.


(** ** SSHConnection.tsx: the connection form

    The state of the component (the credentials typed so far and the
    authentication method that is selected) and what [handleConnect] does
    with it: an alert, or the call of [onConnect]. *)
Module SSHConnection.

Inductive AuthMethod : Type := Password | Key.

Record t : Type := {
  credentials : SSHCredentials;
  authMethod : AuthMethod
}.

(** The initial state, also set by [resetForm]. *)
Definition create : t :=
  {| credentials :=
       {| host := ""; port := "22"; username := ""; password := Some "";
          privateKey := None; initialPath := Some "" |};
     authMethod := Password |}.

Inductive Outcome : Type :=
| Alert (title message : string)
| OnConnect (credentials : SSHCredentials).

Definition handleConnect (self : t) : Outcome :=
  if String.eqb (host (credentials self)) ""
     || String.eqb (username (credentials self)) ""
  then Alert "Error" "Please fill in host and username"
  else
    match authMethod self with
    | Password =>
        if negb (truthy (password (credentials self)))
        then Alert "Error" "Please enter password"
        else OnConnect (credentials self)
    | Key =>
        if negb (truthy (privateKey (credentials self)))
        then Alert "Error" "Please enter private key"
        else OnConnect (credentials self)
    end.

End SSHConnection.

(** The form with a host, a user and a password typed in. *)
Definition filledForm : SSHConnection.t :=
  {| SSHConnection.credentials := workCredentials;
     SSHConnection.authMethod := SSHConnection.Password |}.

(** * Proofs *)

(** Unfolds the plumbing of methods. *)
Ltac method :=
  unfold mbind, mret, M_bind, M_ret, throw, try_catch, this, assign,
    on_field, settled, awaitReply in *.

(** ** sort *)
Section SortFacts.
Context {A : Type} (compareFn : A -> A -> Z).

Lemma insert_sorted_Permutation x l :
  insert_sorted compareFn x l ≡ₚ x :: l.
Proof.
  induction l as [|y l IH]; simpl; [done|].
  destruct (compareFn x y <=? 0); [done|].
  rewrite IH. apply Permutation_swap.
Qed.

Lemma sort_Permutation l : sort compareFn l ≡ₚ l.
Proof.
  induction l as [|x l IH]; simpl; [done|].
  by rewrite insert_sorted_Permutation, IH.
Qed.

Lemma sort_length l : length (sort compareFn l) = length l.
Proof. by rewrite sort_Permutation. Qed.

Let le (a b : A) : Prop := compareFn a b <= 0.

Hypothesis le_total : forall a b, le a b \/ le b a.
Hypothesis le_trans : forall a b c, le a b -> le b c -> le a c.

Lemma insert_sorted_StronglySorted x l :
  StronglySorted le l -> StronglySorted le (insert_sorted compareFn x l).
Proof.
  induction 1 as [|y l Hl IH Hy]; simpl.
  - repeat constructor.
  - destruct (Z.leb_spec (compareFn x y) 0) as [Hxy|Hxy].
    + constructor; [by constructor|].
      constructor; [done|].
      eapply Forall_impl; [exact Hy|]. intros z Hz. by eapply le_trans.
    + constructor; [done|].
      rewrite insert_sorted_Permutation. constructor; [|done].
      destruct (le_total x y) as [Hle|Hle]; [|done].
      unfold le in Hle. lia.
Qed.

Lemma sort_StronglySorted l : StronglySorted le (sort compareFn l).
Proof.
  induction l as [|x l IH]; simpl; [constructor|].
  by apply insert_sorted_StronglySorted.
Qed.

End SortFacts.

(** ** LocalFileSystem.listDirectory *)

Lemma collectItems_map fs targetPath files :
  LocalFileSystem.collectItems fs targetPath files
  = map (LocalFileSystem.itemFor fs targetPath) files.
Proof.
  unfold LocalFileSystem.collectItems.
  cut (forall acc : list FileItem,
          fold_left (fun fileItems fileName =>
                       (fileItems ++ [LocalFileSystem.itemFor fs targetPath fileName])%list)
                    files acc
          = (acc ++ map (LocalFileSystem.itemFor fs targetPath) files)%list).
  { intros H. apply H. }
  induction files as [|f files IH]; intros acc; simpl.
  - by rewrite app_nil_r.
  - rewrite IH. by rewrite <- app_assoc.
Qed.

Lemma itemFor_name fs targetPath fileName :
  name (LocalFileSystem.itemFor fs targetPath fileName) = fileName.
Proof. unfold LocalFileSystem.itemFor. by destruct (getInfoAsync fs _). Qed.

Lemma itemFor_unknown fs targetPath fileName :
  is_ok (getInfoAsync fs (LocalFileSystem.fullPath targetPath fileName)) = false ->
  LocalFileSystem.itemFor fs targetPath fileName = unknownItem targetPath fileName.
Proof.
  unfold LocalFileSystem.itemFor, unknownItem.
  by destruct (getInfoAsync fs _).
Qed.

(** What [listDirectory] returns when the storage lists the directory. *)
Lemma local_listDirectory_ok localeCompare fs path self files :
  readDirectoryAsync fs (or_else path (LocalFileSystem.currentPath self)) = Ok files ->
  LocalFileSystem.listDirectory localeCompare fs path self
  = (Ok (sort (LocalFileSystem.compareItems localeCompare)
              (map (LocalFileSystem.itemFor fs
                      (or_else path (LocalFileSystem.currentPath self))) files)),
     self).
Proof.
  intros Hls. unfold LocalFileSystem.listDirectory. method.
  rewrite Hls. by rewrite collectItems_map.
Qed.

Lemma local_listDirectory_inv localeCompare fs path self items self' :
  LocalFileSystem.listDirectory localeCompare fs path self = (Ok items, self') ->
  exists files,
    readDirectoryAsync fs (or_else path (LocalFileSystem.currentPath self)) = Ok files /\
    items = sort (LocalFileSystem.compareItems localeCompare)
              (map (LocalFileSystem.itemFor fs
                      (or_else path (LocalFileSystem.currentPath self))) files) /\
    self' = self.
Proof.
  unfold LocalFileSystem.listDirectory. method.
  destruct (readDirectoryAsync fs _) as [files|e] eqn:Hls; [|discriminate].
  intros [= <- <-]. exists files. by rewrite collectItems_map.
Qed.

(** [listDirectory] reads the storage and leaves the backend as it is. *)
Lemma local_listDirectory_state localeCompare fs path self :
  snd (LocalFileSystem.listDirectory localeCompare fs path self) = self.
Proof.
  unfold LocalFileSystem.listDirectory. method.
  by destruct (readDirectoryAsync fs _).
Qed.

(** C9. When the storage lists the directory, the local backend's
    [listDirectory] returns one entry per name the storage returned, also
    when the stat of some names fails: the names of the entries are the
    listed names, in some order, so the list is as long as the listing, and
    every name whose stat fails is there as a file ([isFile] true,
    [isDirectory] false) without a size. *)
Theorem local_listDirectory_complete localeCompare fs path self files :
  readDirectoryAsync fs (or_else path (LocalFileSystem.currentPath self)) = Ok files ->
  exists items,
    LocalFileSystem.listDirectory localeCompare fs path self = (Ok items, self) /\
    map name items ≡ₚ files /\
    length items = length files /\
    forall fileName,
      fileName ∈ files ->
      is_ok (getInfoAsync fs
               (LocalFileSystem.fullPath
                  (or_else path (LocalFileSystem.currentPath self)) fileName))
      = false ->
      unknownItem (or_else path (LocalFileSystem.currentPath self)) fileName
      ∈ items.
Proof.
  intros Hls. eexists. split; [by apply local_listDirectory_ok|].
  set (targetPath := or_else path (LocalFileSystem.currentPath self)).
  set (cmp := LocalFileSystem.compareItems localeCompare).
  assert (Hnames : map name (map (LocalFileSystem.itemFor fs targetPath) files) = files).
  { rewrite map_map. erewrite map_ext; [apply map_id|].
    intros f. apply itemFor_name. }
  split; [|split].
  - rewrite (sort_Permutation cmp). by rewrite Hnames.
  - by rewrite sort_length, length_map.
  - intros fileName Hin Hstat.
    rewrite (sort_Permutation cmp).
    rewrite <- (itemFor_unknown fs) by done.
    apply list_elem_of_In, in_map, list_elem_of_In, Hin.
Qed.

Lemma local_listDirectory_complete_witness :
  exists items,
    LocalFileSystem.listDirectory codeUnitCompare sampleStorage None
      (LocalFileSystem.create sampleStorage)
    = (Ok items, LocalFileSystem.create sampleStorage) /\
    map name items ≡ₚ ["b.txt"; "src"; "a.txt"] /\
    length items = 3%nat /\
    forall fileName,
      fileName ∈ ["b.txt"; "src"; "a.txt"] ->
      is_ok (getInfoAsync sampleStorage
               (LocalFileSystem.fullPath "/docs/" fileName)) = false ->
      unknownItem "/docs/" fileName ∈ items.
Proof.
  apply (local_listDirectory_complete codeUnitCompare sampleStorage None
           (LocalFileSystem.create sampleStorage) ["b.txt"; "src"; "a.txt"]).
  reflexivity.
Defined.

(** The listing of the sample directory: the folder first, then the two
    files, the one whose stat fails among them. *)
Example local_listDirectory_sample :
  LocalFileSystem.listDirectory codeUnitCompare sampleStorage None
    (LocalFileSystem.create sampleStorage)
  = (Ok sampleListing, LocalFileSystem.create sampleStorage).
Proof. reflexivity. Qed.

(** ** The order of listings *)

Lemma codeUnitCompare_le a b : codeUnitCompare a b <= 0 <-> String.le a b.
Proof.
  unfold codeUnitCompare, String.le, String.leb.
  destruct (String.compare a b); simpl; split; intros H; try done; lia.
Qed.

Lemma codeUnitCompare_consistent : consistent codeUnitCompare.
Proof.
  split.
  - intros a b. rewrite !codeUnitCompare_le. apply total, _.
  - intros a b c. rewrite !codeUnitCompare_le. apply transitivity.
Qed.

Section ItemOrder.
Variable localeCompare : string -> string -> Z.
Hypothesis localeCompare_consistent : consistent localeCompare.

Let item_le (a b : FileItem) : Prop :=
  LocalFileSystem.compareItems localeCompare a b <= 0.

Lemma compareItems_total a b : item_le a b \/ item_le b a.
Proof.
  unfold item_le, LocalFileSystem.compareItems.
  destruct localeCompare_consistent as [Htotal _].
  destruct (isDirectory a), (isDirectory b); simpl; try (left; lia);
    try (right; lia); apply Htotal.
Qed.

Lemma compareItems_trans a b c : item_le a b -> item_le b c -> item_le a c.
Proof.
  unfold item_le, LocalFileSystem.compareItems.
  destruct localeCompare_consistent as [_ Htrans].
  destruct (isDirectory a), (isDirectory b), (isDirectory c); simpl;
    try lia; apply Htrans.
Qed.

Lemma item_le_same_kind a b :
  isDirectory a = isDirectory b -> item_le a b -> name_le localeCompare a b.
Proof.
  unfold item_le, LocalFileSystem.compareItems, name_le. intros ->.
  by rewrite Bool.eqb_reflx.
Qed.

Lemma item_le_file_first a b :
  isDirectory a = false -> item_le a b -> isDirectory b = false.
Proof.
  unfold item_le, LocalFileSystem.compareItems. intros ->.
  destruct (isDirectory b); simpl; [lia|done].
Qed.

Lemma sorted_directories_first items :
  StronglySorted item_le items -> directories_first localeCompare items.
Proof.
  induction 1 as [|x l Hl IH Hx].
  - exists [], []. repeat split; constructor.
  - destruct IH as (dirs & files & -> & Hdirs & Hfiles & Sdirs & Sfiles).
    apply Forall_app in Hx as [Hxd Hxf].
    destruct (isDirectory x) eqn:Hkind.
    + exists (x :: dirs), files. repeat split; try done.
      * by constructor.
      * constructor; [done|].
        rewrite Forall_forall in Hxd, Hdirs |- *. intros d Hd.
        apply item_le_same_kind; [|by apply Hxd].
        by rewrite Hkind, (Hdirs d Hd).
    + destruct dirs as [|d dirs].
      * exists [], (x :: files). repeat split; try done.
        -- by constructor.
        -- constructor; [done|].
           rewrite Forall_forall in Hxf, Hfiles |- *. intros f Hf.
           apply item_le_same_kind; [|by apply Hxf].
           by rewrite Hkind, (Hfiles f Hf).
      * apply Forall_cons in Hxd as [Hxd _], Hdirs as [Hd _].
        apply item_le_file_first in Hxd; [|done]. congruence.
Qed.

Lemma local_listDirectory_sorted fs path self items self' :
  LocalFileSystem.listDirectory localeCompare fs path self = (Ok items, self') ->
  directories_first localeCompare items.
Proof.
  intros (files & _ & -> & _)%local_listDirectory_inv.
  apply sorted_directories_first, sort_StronglySorted.
  - apply compareItems_total.
  - apply compareItems_trans.
Qed.

End ItemOrder.

(** ** The remote backend's calls, in closed form *)

Lemma awaitReply_replied {S A} (answer : Answer A) timeoutMessage (s : S) :
  awaitReply answer timeoutMessage s = (replied answer timeoutMessage, s).
Proof. by destruct answer. Qed.

Lemma ws_listDirectory_eq proxy path self :
  WebSocketSSHService.listDirectory proxy path self
  = (if WebSocketSSHService.not_connected self
     then Throw (Error "SSH not connected")
     else replied (ssh_listDir proxy
                     (or_else path (WebSocketSSHService.currentPath self)))
                  "List directory timeout",
     self).
Proof.
  unfold WebSocketSSHService.listDirectory. method.
  destruct (WebSocketSSHService.not_connected self); [done|].
  by destruct (ssh_listDir proxy _).
Qed.

Lemma ws_isConnected_not_connected self :
  WebSocketSSHService.isConnected self = true ->
  WebSocketSSHService.not_connected self = false.
Proof.
  unfold WebSocketSSHService.isConnected, WebSocketSSHService.not_connected,
    WebSocketSSHService.has_socket.
  destruct (WebSocketSSHService.connected self),
    (WebSocketSSHService.socket self); simpl; congruence.
Qed.

Lemma remote_listDirectory_eq proxy path self :
  RemoteFileSystem.listDirectory proxy path self
  = (if RemoteFileSystem.isConnected self then
       match ssh_listDir proxy (or_else path (RemoteFileSystem.getCurrentPath self)) with
       | Success files => Ok files
       | _ => Throw (Error ("Failed to list remote directory: "
                            ++ or_else path (RemoteFileSystem.getCurrentPath self)))
       end
     else Throw (Error "Not connected to remote server"),
     self).
Proof.
  unfold RemoteFileSystem.listDirectory, RemoteFileSystem.ssh. method.
  destruct (RemoteFileSystem.isConnected self) eqn:Hc; simpl; [|done].
  rewrite ws_listDirectory_eq.
  rewrite (ws_isConnected_not_connected _ Hc).
  destruct self as [ssh]. unfold RemoteFileSystem.getCurrentPath,
    WebSocketSSHService.getCurrentPath, RemoteFileSystem.set_sshService. simpl.
  by destruct (ssh_listDir proxy _).
Qed.

(** The remote backend returns the list of the proxy server as it came. *)
Lemma remote_listDirectory_verbatim proxy path self files self' :
  RemoteFileSystem.listDirectory proxy path self = (Ok files, self') ->
  ssh_listDir proxy (or_else path (RemoteFileSystem.getCurrentPath self))
  = Success files.
Proof.
  rewrite remote_listDirectory_eq.
  destruct (RemoteFileSystem.isConnected self); [|discriminate].
  destruct (ssh_listDir proxy _); [|discriminate..].
  by intros [= -> _].
Qed.

(** C2, as the code has it. The local backend's [listDirectory] returns
    the directories before the files, each group in the order
    [localeCompare] gives its names, whenever [localeCompare] is a
    consistent comparison. The remote backend's [listDirectory] does not
    sort: what it returns is the list the proxy server sent for the listed
    path, in the order it came. *)
Theorem listDirectory_order localeCompare :
  consistent localeCompare ->
  (forall fs path self items self',
      LocalFileSystem.listDirectory localeCompare fs path self = (Ok items, self') ->
      directories_first localeCompare items) /\
  (forall proxy path self files self',
      RemoteFileSystem.listDirectory proxy path self = (Ok files, self') ->
      ssh_listDir proxy (or_else path (RemoteFileSystem.getCurrentPath self))
      = Success files).
Proof.
  intros Hcmp. split.
  - intros fs path self items self'. by apply local_listDirectory_sorted.
  - apply remote_listDirectory_verbatim.
Qed.

Lemma listDirectory_order_witness :
  consistent codeUnitCompare /\
  directories_first codeUnitCompare sampleListing /\
  ssh_listDir workProxy "/work" = Success [notesFile; srcFolder].
Proof.
  split; [exact codeUnitCompare_consistent|].
  destruct (listDirectory_order codeUnitCompare codeUnitCompare_consistent)
    as [Hlocal Hremote].
  split.
  - apply (Hlocal sampleStorage None (LocalFileSystem.create sampleStorage)
             sampleListing (LocalFileSystem.create sampleStorage)).
    reflexivity.
  - apply (Hremote workProxy (Some "/work") connectedRemote
             [notesFile; srcFolder] connectedRemote).
    reflexivity.
Defined.

(** C2 fails on the remote backend: the proxy server lists a file before a
    folder, and [listDirectory] returns the two in that order, which is not
    directories first under any order of names. *)
Lemma remote_listDirectory_unsorted :
  RemoteFileSystem.listDirectory workProxy (Some "/work") connectedRemote
  = (Ok [notesFile; srcFolder], connectedRemote) /\
  forall localeCompare,
    ~ directories_first localeCompare [notesFile; srcFolder].
Proof.
  split; [reflexivity|].
  intros localeCompare (dirs & files & Heq & Hdirs & Hfiles & _).
  destruct dirs as [|d dirs]; simpl in Heq.
  - subst files. apply Forall_cons in Hfiles as [_ Hfiles].
    apply Forall_cons in Hfiles as [Hsrc _]. discriminate.
  - injection Heq as <- _. apply Forall_cons in Hdirs as [Hnotes _].
    discriminate.
Qed.

(** ** changeDirectory *)

Lemma ws_changeDirectory_eq proxy path self :
  WebSocketSSHService.changeDirectory proxy path self
  = match fst (WebSocketSSHService.listDirectory proxy (Some path) self) with
    | Ok _ =>
        (Ok tt,
         WebSocketSSHService.set_connectionInfo
           (match WebSocketSSHService.connectionInfo self with
            | Some info =>
                Some {| rd_host := rd_host info;
                        rd_username := rd_username info;
                        rd_currentPath := path |}
            | None => None
            end)
           (WebSocketSSHService.set_currentPath path self))
    | Throw error => (Throw error, self)
    end.
Proof.
  unfold WebSocketSSHService.changeDirectory. method.
  rewrite ws_listDirectory_eq. simpl.
  destruct (WebSocketSSHService.not_connected self); [done|].
  by destruct (replied _ _).
Qed.

(** C8, as the code has it. The local backend validates with a stat of the
    path, not with a listing: [changeDirectory] succeeds exactly when the
    stat reports an existing directory, and then the current path is the
    new path; otherwise it fails with "Directory does not exist", with
    "Path is not a directory", or with the error of the stat, and the
    backend is unchanged. The remote backend validates with a listing of
    the path by the service: when that listing succeeds the current path
    is the new path, and when the backend is not connected or the listing
    fails the call fails with "Not connected to remote server" or with the
    error of the listing, and the backend is unchanged. *)
Theorem changeDirectory_validation :
  (forall fs path self,
      match LocalFileSystem.changeDirectory fs path self with
      | (Ok _, self') =>
          LocalFileSystem.currentPath self' = path /\
          exists info, getInfoAsync fs path = Ok info /\
                       info_exists info = true /\ info_isDirectory info = true
      | (Throw error, self') =>
          self' = self /\
          match getInfoAsync fs path with
          | Ok info =>
              (info_exists info = false /\
               error = Error ("Directory does not exist: " ++ path)) \/
              (info_exists info = true /\ info_isDirectory info = false /\
               error = Error ("Path is not a directory: " ++ path))
          | Throw statError => error = statError
          end
      end) /\
  (forall proxy path self,
      match RemoteFileSystem.changeDirectory proxy path self with
      | (Ok _, self') =>
          RemoteFileSystem.getCurrentPath self' = path /\
          RemoteFileSystem.isConnected self = true /\
          is_ok (fst (WebSocketSSHService.listDirectory proxy (Some path)
                        (RemoteFileSystem.sshService self))) = true
      | (Throw error, self') =>
          self' = self /\
          (if RemoteFileSystem.isConnected self then
             fst (WebSocketSSHService.listDirectory proxy (Some path)
                    (RemoteFileSystem.sshService self)) = Throw error
           else error = Error "Not connected to remote server")
      end).
Proof.
  split.
  - intros fs path self. unfold LocalFileSystem.changeDirectory. method.
    destruct (getInfoAsync fs path) as [info|statError] eqn:Hstat; [|done].
    destruct (info_exists info) eqn:Hexists; simpl.
    + destruct (info_isDirectory info) eqn:Hdir; simpl.
      * split; [done|]. by exists info.
      * split; [done|]. right. done.
    + split; [done|]. left. done.
  - intros proxy path self.
    unfold RemoteFileSystem.changeDirectory, RemoteFileSystem.ssh. method.
    destruct (RemoteFileSystem.isConnected self) eqn:Hc; simpl; [|done].
    rewrite ws_changeDirectory_eq.
    destruct self as [ssh]; simpl.
    destruct (fst (WebSocketSSHService.listDirectory proxy (Some path) ssh));
      simpl; done.
Qed.

(** C8 fails on both backends. The sample storage has a path that a stat
    reports as a directory and that cannot be listed: the local backend
    changes to it although a listing of it fails. And a remote
    [changeDirectory] that the proxy server leaves unanswered fails with the
    timeout of the listing, which is neither of the two errors of the
    claim. *)
Lemma changeDirectory_not_by_listing :
  fst (LocalFileSystem.listDirectory codeUnitCompare sampleStorage
         (Some "/locked") (LocalFileSystem.create sampleStorage))
  = Throw (Error "Failed to list directory: /locked") /\
  LocalFileSystem.changeDirectory sampleStorage "/locked"
    (LocalFileSystem.create sampleStorage)
  = (Ok tt, {| LocalFileSystem.currentPath := "/locked" |}) /\
  RemoteFileSystem.changeDirectory silentProxy "/missing" connectedRemote
  = (Throw (Error "List directory timeout"), connectedRemote).
Proof. repeat split. Qed.

(** ** The manager's delegation *)

Lemma set_localFS_same self :
  FileSystemManager.set_localFS (FileSystemManager.localFS self) self = self.
Proof. by destruct self. Qed.

Lemma set_remoteFS_same self :
  FileSystemManager.set_remoteFS (FileSystemManager.remoteFS self) self = self.
Proof. by destruct self. Qed.

Lemma manager_listDirectory_eq localeCompare fs proxy path self :
  FileSystemManager.listDirectory localeCompare fs proxy path self
  = if decide (FileSystemManager.currentFileSystem self = local)
    then FileSystemManager.onLocal
           (LocalFileSystem.listDirectory localeCompare fs path) self
    else FileSystemManager.onRemote
           (RemoteFileSystem.listDirectory proxy path) self.
Proof.
  unfold FileSystemManager.listDirectory, FileSystemManager.getCurrentFS.
  method. by destruct (decide _).
Qed.

(** A listing leaves the manager and both backends as they are. *)
Lemma manager_listDirectory_state localeCompare fs proxy path self :
  snd (FileSystemManager.listDirectory localeCompare fs proxy path self) = self.
Proof.
  rewrite manager_listDirectory_eq.
  destruct (decide _).
  - unfold FileSystemManager.onLocal, on_field.
    pose proof (local_listDirectory_state localeCompare fs path
                  (FileSystemManager.localFS self)) as H.
    destruct (LocalFileSystem.listDirectory _ _ _ _) as [r s']; simpl in *.
    subst s'. apply set_localFS_same.
  - unfold FileSystemManager.onRemote, on_field.
    rewrite remote_listDirectory_eq. simpl. apply set_remoteFS_same.
Qed.

(** ** pathExists *)

(** C10. [pathExists] never throws and changes nothing: for every path and
    every state of the manager and its backends it returns a boolean and
    leaves the state as it was. When the listing it relies on fails (the
    current directory for the local backend, the parent of the path for the
    remote one) the boolean is [false]; in particular it is [false] when the
    remote backend is selected and not connected. *)
Theorem pathExists_never_throws localeCompare fs proxy path self :
  exists found,
    FileSystemManager.pathExists localeCompare fs proxy path self
    = (Ok found, self) /\
    (is_ok (fst (FileSystemManager.listDirectory localeCompare fs proxy
                   (if decide (FileSystemManager.currentFileSystem self = local)
                    then None
                    else Some (or_else
                                 (Some (substring path 0 (lastIndexOf path "/")))
                                 "/"))
                   self)) = false ->
     found = false) /\
    (FileSystemManager.currentFileSystem self = remote ->
     RemoteFileSystem.isConnected (FileSystemManager.remoteFS self) = false ->
     found = false).
Proof.
  unfold FileSystemManager.pathExists. method.
  destruct (decide (FileSystemManager.currentFileSystem self = local)) as [Hl|Hr].
  - rewrite bool_decide_eq_true_2 by done.
    pose proof (manager_listDirectory_state localeCompare fs proxy None self) as Hs.
    destruct (FileSystemManager.listDirectory _ _ _ None self) as [[files|e] s'];
      simpl in *; subst s'.
    + eexists. split; [done|]. split; [done|]. congruence.
    + exists false. done.
  - rewrite bool_decide_eq_false_2 by done.
    set (parentPath := or_else (Some (substring path 0 (lastIndexOf path "/"))) "/").
    pose proof (manager_listDirectory_state localeCompare fs proxy
                  (Some parentPath) self) as Hs.
    pose proof (manager_listDirectory_eq localeCompare fs proxy
                  (Some parentPath) self) as Heq.
    destruct (decide _); [done|].
    unfold FileSystemManager.onRemote, on_field in Heq.
    rewrite remote_listDirectory_eq in Heq.
    destruct (FileSystemManager.listDirectory _ _ _ (Some parentPath) self)
      as [[files|e] s']; simpl in *; subst s'.
    + eexists. split; [done|]. split; [done|].
      intros _ Hc. rewrite Hc in Heq. discriminate.
    + exists false. done.
Qed.

Lemma pathExists_never_throws_witness :
  FileSystemManager.pathExists codeUnitCompare sampleStorage workProxy
    "/work/notes.txt" droppedManager
  = (Ok false, droppedManager).
Proof.
  destruct (pathExists_never_throws codeUnitCompare sampleStorage workProxy
              "/work/notes.txt" droppedManager)
    as (found & Hresult & _ & Hremote).
  rewrite Hresult. rewrite (Hremote eq_refl eq_refl). reflexivity.
Defined.

(** [pathExists] on the sample collaborators: a file of the current local
    directory, a file of a remote directory, and a path the remote
    directory does not hold. *)
Example pathExists_samples :
  fst (FileSystemManager.pathExists codeUnitCompare sampleStorage workProxy
         "/docs/a.txt" (FileSystemManager.create sampleStorage)) = Ok true /\
  fst (FileSystemManager.pathExists codeUnitCompare sampleStorage workProxy
         "/work/notes.txt" connectedManager) = Ok true /\
  fst (FileSystemManager.pathExists codeUnitCompare sampleStorage workProxy
         "/work/todo.txt" connectedManager) = Ok false /\
  fst (FileSystemManager.pathExists codeUnitCompare sampleStorage workProxy
         "/elsewhere/notes.txt" connectedManager) = Ok false.
Proof. repeat split. Qed.

(** ** Connecting and disconnecting *)

(** Every definition of the services, opened down to the answers of the
    collaborators. *)
Ltac open_services :=
  unfold FileSystemManager.pathExists, FileSystemManager.createFile,
    FileSystemManager.setStreamingCallback, FileSystemManager.executeCommand,
    FileSystemManager.writeFile, FileSystemManager.readFile,
    FileSystemManager.changeDirectory, FileSystemManager.listDirectory,
    FileSystemManager.isConnected, FileSystemManager.getConnectionInfo,
    FileSystemManager.getCurrentPath,
    FileSystemManager.disconnectFromRemote, FileSystemManager.connectToRemote,
    FileSystemManager.getCurrentFS, FileSystemManager.remoteImpl,
    FileSystemManager.localImpl, FileSystemManager.switchToRemote,
    FileSystemManager.switchToLocal, FileSystemManager.onRemote,
    FileSystemManager.onLocal,
    RemoteFileSystem.setStreamingCallback, RemoteFileSystem.executeCommand,
    RemoteFileSystem.disconnect, RemoteFileSystem.connect,
    RemoteFileSystem.writeFile, RemoteFileSystem.readFile,
    RemoteFileSystem.changeDirectory, RemoteFileSystem.listDirectory,
    RemoteFileSystem.getConnectionInfo,
    RemoteFileSystem.isConnected, RemoteFileSystem.getCurrentPath,
    RemoteFileSystem.ssh,
    WebSocketSSHService.disconnect, WebSocketSSHService.awaitDisconnect,
    WebSocketSSHService.changeDirectory, WebSocketSSHService.executeCommand,
    WebSocketSSHService.writeFile, WebSocketSSHService.readFile,
    WebSocketSSHService.listDirectory, WebSocketSSHService.setStreamingCallback,
    WebSocketSSHService.connect, WebSocketSSHService.connectSSH,
    WebSocketSSHService.waitForSocketConnection, WebSocketSSHService.cleanup,
    WebSocketSSHService.getConnectionInfo,
    WebSocketSSHService.isConnected, WebSocketSSHService.not_connected,
    WebSocketSSHService.has_socket, WebSocketSSHService.getCurrentPath,
    LocalFileSystem.writeFile, LocalFileSystem.readFile,
    LocalFileSystem.changeDirectory, LocalFileSystem.listDirectory,
    LocalFileSystem.getConnectionInfo, LocalFileSystem.isConnected,
    LocalFileSystem.getCurrentPath in *;
  method.

Ltac by_cases :=
  open_services; simpl in *;
  repeat first [ done | progress simplify_eq/= | case_match ].

(** The flag [connected] of the service inside the manager. *)
Lemma ws_connect_outcome proxy credentials self :
  match WebSocketSSHService.connect proxy credentials self with
  | (Ok true, self') =>
      WebSocketSSHService.isConnected self' = true /\
      WebSocketSSHService.currentPath self'
      = or_else (initialPath credentials) ("/home/" ++ username credentials)
  | (Ok false, _) => False
  | (Throw _, self') =>
      WebSocketSSHService.connected self' = false /\
      WebSocketSSHService.socket self' = None
  end.
Proof. destruct self. by_cases. Qed.

Lemma perform_stays_disconnected localeCompare a s :
  WebSocketSSHService.connected (Session.remoteService s) = false ->
  Session.connects a s = false ->
  WebSocketSSHService.connected
    (Session.remoteService (Session.perform localeCompare a s)) = false.
Proof.
  unfold Session.remoteService, Session.connects.
  destruct s as [source [localPath] [[sock conn cwd info callback]]].
  destruct a; unfold Session.perform, Session.on_socket,
    WebSocketSSHService.on_disconnect, WebSocketSSHService.on_ssh_disconnected,
    WebSocketSSHService.on_connect; intros Hconn Hnot; by_cases.
Qed.

Lemma never_connected_disconnected localeCompare actions : forall s,
  WebSocketSSHService.connected (Session.remoteService s) = false ->
  Session.never_connected localeCompare actions s ->
  WebSocketSSHService.connected
    (Session.remoteService (Session.perform_all localeCompare actions s))
  = false.
Proof.
  induction actions as [|a actions IH]; intros s Hs Hnever; simpl in *.
  - done.
  - destruct Hnever as [Ha Hrest].
    apply IH; [|done]. by apply perform_stays_disconnected.
Qed.

Lemma switchToRemote_disconnected s :
  WebSocketSSHService.connected (Session.remoteService s) = false ->
  FileSystemManager.switchToRemote s
  = (Throw (Error "Cannot switch to remote file system: not connected"), s).
Proof.
  unfold Session.remoteService.
  destruct s as [source [localPath] [[sock conn cwd info callback]]].
  intros Hconn. by_cases.
Qed.

(** ** Switching backends *)

Lemma manager_delegates_to_remote localeCompare fs proxy self :
  FileSystemManager.currentFileSystem self = remote ->
  FileSystemManager.getCurrentPath localeCompare fs proxy self
  = RemoteFileSystem.getCurrentPath (FileSystemManager.remoteFS self) /\
  (forall path,
      FileSystemManager.listDirectory localeCompare fs proxy path self
      = FileSystemManager.onRemote
          (RemoteFileSystem.listDirectory proxy path) self) /\
  (forall path,
      FileSystemManager.changeDirectory localeCompare fs proxy path self
      = FileSystemManager.onRemote
          (RemoteFileSystem.changeDirectory proxy path) self) /\
  (forall filePath,
      FileSystemManager.readFile localeCompare fs proxy filePath self
      = FileSystemManager.onRemote
          (RemoteFileSystem.readFile proxy filePath) self) /\
  (forall filePath content,
      FileSystemManager.writeFile localeCompare fs proxy filePath content self
      = FileSystemManager.onRemote
          (RemoteFileSystem.writeFile proxy filePath content) self) /\
  FileSystemManager.isConnected localeCompare fs proxy self
  = RemoteFileSystem.isConnected (FileSystemManager.remoteFS self) /\
  FileSystemManager.getConnectionInfo localeCompare fs proxy self
  = RemoteFileSystem.getConnectionInfo (FileSystemManager.remoteFS self).
Proof.
  intros Hremote.
  unfold FileSystemManager.getCurrentPath, FileSystemManager.listDirectory,
    FileSystemManager.changeDirectory, FileSystemManager.readFile,
    FileSystemManager.writeFile, FileSystemManager.isConnected,
    FileSystemManager.getConnectionInfo, FileSystemManager.getCurrentFS.
  method. rewrite Hremote.
  destruct (decide (remote = local)) as [|_]; [done|]. simpl.
  repeat split; done.
Qed.

(** The contract calls leave the selector as it is. *)
Lemma contract_calls_keep_selector localeCompare fs proxy self :
  (forall path,
      FileSystemManager.currentFileSystem
        (snd (FileSystemManager.listDirectory localeCompare fs proxy path self))
      = FileSystemManager.currentFileSystem self) /\
  (forall path,
      FileSystemManager.currentFileSystem
        (snd (FileSystemManager.changeDirectory localeCompare fs proxy path self))
      = FileSystemManager.currentFileSystem self) /\
  (forall filePath,
      FileSystemManager.currentFileSystem
        (snd (FileSystemManager.readFile localeCompare fs proxy filePath self))
      = FileSystemManager.currentFileSystem self) /\
  (forall filePath content,
      FileSystemManager.currentFileSystem
        (snd (FileSystemManager.writeFile localeCompare fs proxy filePath
                content self))
      = FileSystemManager.currentFileSystem self).
Proof.
  destruct self as [source [localPath] [[sock conn cwd info callback]]].
  repeat split; intros; by_cases.
Qed.

Lemma connectToRemote_true proxy credentials self self' :
  FileSystemManager.connectToRemote proxy credentials self = (Ok true, self') ->
  FileSystemManager.currentFileSystem self' = remote /\
  RemoteFileSystem.isConnected (FileSystemManager.remoteFS self') = true.
Proof.
  destruct self as [source [localPath] [[sock conn cwd info callback]]].
  intros H. by_cases.
Qed.

(** C3. In a session that starts from the manager as it is created and in
    which no [connectToRemote] has returned [true], [switchToRemote] fails
    with "Cannot switch to remote file system: not connected" and leaves the
    manager, its selector included, as it was. Whenever the remote backend
    reports connected, [switchToRemote] succeeds and selects [remote],
    whatever was selected before. After a [connectToRemote] that returns
    [true], [switchToRemote] succeeds and the selector is [remote], also
    when [switchToLocal] was called in between. While the selector is
    [remote], each of the seven contract
    calls is the call of the remote backend, and the four calls that can
    change a backend leave the selector as it is. [switchToLocal] always
    succeeds and selects [local]. *)
Theorem switchToRemote_requires_connect :
  (forall localeCompare fs actions,
      Session.never_connected localeCompare actions (FileSystemManager.create fs) ->
      FileSystemManager.switchToRemote
        (Session.perform_all localeCompare actions (FileSystemManager.create fs))
      = (Throw (Error "Cannot switch to remote file system: not connected"),
         Session.perform_all localeCompare actions (FileSystemManager.create fs))) /\
  (forall self,
      RemoteFileSystem.isConnected (FileSystemManager.remoteFS self) = true ->
      FileSystemManager.switchToRemote self
      = (Ok tt, FileSystemManager.set_currentFileSystem remote self)) /\
  (forall proxy credentials self self',
      FileSystemManager.connectToRemote proxy credentials self = (Ok true, self') ->
      FileSystemManager.switchToRemote self' = (Ok tt, self') /\
      FileSystemManager.currentFileSystem self' = remote /\
      FileSystemManager.currentFileSystem
        (snd (FileSystemManager.switchToLocal self')) = local /\
      FileSystemManager.switchToRemote
        (snd (FileSystemManager.switchToLocal self'))
      = (Ok tt, self')) /\
  (forall localeCompare fs proxy self,
      FileSystemManager.currentFileSystem self = remote ->
      FileSystemManager.getCurrentPath localeCompare fs proxy self
      = RemoteFileSystem.getCurrentPath (FileSystemManager.remoteFS self) /\
      (forall path,
          FileSystemManager.listDirectory localeCompare fs proxy path self
          = FileSystemManager.onRemote
              (RemoteFileSystem.listDirectory proxy path) self) /\
      (forall path,
          FileSystemManager.changeDirectory localeCompare fs proxy path self
          = FileSystemManager.onRemote
              (RemoteFileSystem.changeDirectory proxy path) self) /\
      (forall filePath,
          FileSystemManager.readFile localeCompare fs proxy filePath self
          = FileSystemManager.onRemote
              (RemoteFileSystem.readFile proxy filePath) self) /\
      (forall filePath content,
          FileSystemManager.writeFile localeCompare fs proxy filePath content self
          = FileSystemManager.onRemote
              (RemoteFileSystem.writeFile proxy filePath content) self) /\
      FileSystemManager.isConnected localeCompare fs proxy self
      = RemoteFileSystem.isConnected (FileSystemManager.remoteFS self) /\
      FileSystemManager.getConnectionInfo localeCompare fs proxy self
      = RemoteFileSystem.getConnectionInfo (FileSystemManager.remoteFS self)) /\
  (forall localeCompare fs proxy self,
      (forall path,
          FileSystemManager.currentFileSystem
            (snd (FileSystemManager.listDirectory localeCompare fs proxy path self))
          = FileSystemManager.currentFileSystem self) /\
      (forall path,
          FileSystemManager.currentFileSystem
            (snd (FileSystemManager.changeDirectory localeCompare fs proxy path self))
          = FileSystemManager.currentFileSystem self) /\
      (forall filePath,
          FileSystemManager.currentFileSystem
            (snd (FileSystemManager.readFile localeCompare fs proxy filePath self))
          = FileSystemManager.currentFileSystem self) /\
      (forall filePath content,
          FileSystemManager.currentFileSystem
            (snd (FileSystemManager.writeFile localeCompare fs proxy filePath
                    content self))
          = FileSystemManager.currentFileSystem self)) /\
  (forall self,
      FileSystemManager.switchToLocal self
      = (Ok tt, FileSystemManager.set_currentFileSystem local self)).
Proof.
  split; [|split; [|split; [|split; [|split]]]].
  - intros localeCompare fs actions Hnever.
    apply switchToRemote_disconnected.
    by apply never_connected_disconnected.
  - intros self Hconnected.
    unfold FileSystemManager.switchToRemote. method.
    by rewrite Hconnected.
  - intros proxy credentials self self' Hconnect.
    apply connectToRemote_true in Hconnect as [Hsource Hconnected].
    assert (Hback :
      FileSystemManager.set_currentFileSystem remote self' = self').
    { destruct self'; simpl in *. by subst. }
    split; [|split; [done|split; [done|]]].
    + unfold FileSystemManager.switchToRemote. method.
      rewrite Hconnected. simpl. by rewrite Hback.
    + unfold FileSystemManager.switchToRemote, FileSystemManager.switchToLocal.
      method. simpl. rewrite Hconnected. simpl.
      by rewrite <- Hback at 2.
  - apply manager_delegates_to_remote.
  - apply contract_calls_keep_selector.
  - done.
Qed.

Lemma switchToRemote_requires_connect_witness :
  FileSystemManager.switchToRemote
    (Session.perform_all codeUnitCompare failedSession
       (FileSystemManager.create sampleStorage))
  = (Throw (Error "Cannot switch to remote file system: not connected"),
     Session.perform_all codeUnitCompare failedSession
       (FileSystemManager.create sampleStorage)) /\
  (FileSystemManager.switchToRemote connectedManager = (Ok tt, connectedManager) /\
   FileSystemManager.currentFileSystem connectedManager = remote /\
   FileSystemManager.currentFileSystem
     (snd (FileSystemManager.switchToLocal connectedManager)) = local /\
   FileSystemManager.switchToRemote
     (snd (FileSystemManager.switchToLocal connectedManager))
   = (Ok tt, connectedManager)) /\
  FileSystemManager.switchToRemote
    (FileSystemManager.set_currentFileSystem local connectedManager)
  = (Ok tt,
     FileSystemManager.set_currentFileSystem remote
       (FileSystemManager.set_currentFileSystem local connectedManager)) /\
  FileSystemManager.listDirectory codeUnitCompare sampleStorage workProxy
    (Some "/work") connectedManager
  = FileSystemManager.onRemote
      (RemoteFileSystem.listDirectory workProxy (Some "/work")) connectedManager.
Proof.
  destruct switchToRemote_requires_connect
    as (Hnever & Hconnected & Hafter & Hdelegate & _ & _).
  split; [|split; [|split]].
  - apply Hnever. repeat split.
  - apply (Hafter workProxy workCredentials
             (FileSystemManager.create sampleStorage)).
    reflexivity.
  - apply Hconnected. reflexivity.
  - apply (Hdelegate codeUnitCompare sampleStorage workProxy connectedManager).
    reflexivity.
Defined.

(** The scenario of the specification: a connect with an initial path of
    [/work] succeeds and the current path is [/work]. *)
Example connect_sets_initial_path :
  FileSystemManager.connectToRemote workProxy workCredentials
    (FileSystemManager.create sampleStorage)
  = (Ok true, connectedManager) /\
  FileSystemManager.getCurrentPath codeUnitCompare sampleStorage workProxy
    connectedManager = "/work".
Proof. split; reflexivity. Qed.

(** ** Disconnecting *)

(** C4. [disconnectFromRemote] returns without an error from every state
    of the manager, whether or not the proxy server acknowledges the
    disconnect request, and leaves the selector [local] and the remote
    backend not connected: its service has no socket, its flag [connected]
    is false, and [isConnected] and the connection info say so. *)
Theorem disconnectFromRemote_resets proxy self :
  exists self',
    FileSystemManager.disconnectFromRemote proxy self = (Ok tt, self') /\
    FileSystemManager.currentFileSystem self' = local /\
    RemoteFileSystem.isConnected (FileSystemManager.remoteFS self') = false /\
    ci_connected (RemoteFileSystem.getConnectionInfo
                    (FileSystemManager.remoteFS self')) = false /\
    WebSocketSSHService.socket (Session.remoteService self') = None /\
    FileSystemManager.localFS self' = FileSystemManager.localFS self.
Proof.
  unfold Session.remoteService.
  destruct self as [source [localPath] [[sock conn cwd info callback]]].
  destruct (ssh_disconnect proxy) eqn:Hack;
    eexists; (split; [by_cases|]); simpl; done.
Qed.

(** ** Connecting *)

(** C5. [connectToRemote] returns what the remote backend's [connect]
    returns and leaves the remote backend as [connect] leaves it. When the
    result is [true] the selector is [remote] afterwards; when the result is
    [false] or an error is thrown the selector is what it was before the
    call. *)
Theorem connectToRemote_selector proxy credentials self :
  fst (FileSystemManager.connectToRemote proxy credentials self)
  = fst (RemoteFileSystem.connect proxy credentials
           (FileSystemManager.remoteFS self)) /\
  FileSystemManager.remoteFS
    (snd (FileSystemManager.connectToRemote proxy credentials self))
  = snd (RemoteFileSystem.connect proxy credentials
           (FileSystemManager.remoteFS self)) /\
  FileSystemManager.currentFileSystem
    (snd (FileSystemManager.connectToRemote proxy credentials self))
  = match fst (RemoteFileSystem.connect proxy credentials
                 (FileSystemManager.remoteFS self)) with
    | Ok true => remote
    | Ok false | Throw _ => FileSystemManager.currentFileSystem self
    end.
Proof.
  unfold FileSystemManager.connectToRemote, FileSystemManager.onRemote. method.
  destruct (RemoteFileSystem.connect proxy credentials
              (FileSystemManager.remoteFS self)) as [[[|]|e] remote'];
    simpl; done.
Qed.

(** ** Remote-only calls *)

(** C6, as the code has it. While the selector is not [remote],
    [executeCommand] fails with "Command execution only available in remote
    mode" and changes nothing. [setStreamingCallback] does not fail: it
    returns normally and changes nothing, so that the callback is not
    registered. *)
Theorem remote_only_calls proxy command callback self :
  FileSystemManager.currentFileSystem self <> remote ->
  FileSystemManager.executeCommand proxy command self
  = (Throw (Error "Command execution only available in remote mode"), self) /\
  FileSystemManager.setStreamingCallback callback self = (Ok tt, self).
Proof.
  intros Hlocal.
  unfold FileSystemManager.executeCommand, FileSystemManager.setStreamingCallback.
  method. by rewrite bool_decide_eq_false_2.
Qed.

Lemma remote_only_calls_witness :
  FileSystemManager.currentFileSystem (FileSystemManager.create sampleStorage)
  <> remote /\
  FileSystemManager.executeCommand workProxy "ls"
    (FileSystemManager.create sampleStorage)
  = (Throw (Error "Command execution only available in remote mode"),
     FileSystemManager.create sampleStorage) /\
  FileSystemManager.setStreamingCallback (fun _ _ => tt)
    (FileSystemManager.create sampleStorage)
  = (Ok tt, FileSystemManager.create sampleStorage).
Proof.
  split; [discriminate|].
  apply (remote_only_calls workProxy "ls" (fun _ _ => tt)
           (FileSystemManager.create sampleStorage)).
  discriminate.
Defined.

(** C6 fails for [setStreamingCallback]: on the manager as it is created,
    whose selector is [local], the call succeeds, and the service has no
    callback afterwards. *)
Lemma setStreamingCallback_ignored :
  FileSystemManager.currentFileSystem (FileSystemManager.create sampleStorage)
  = local /\
  fst (FileSystemManager.setStreamingCallback (fun _ _ => tt)
         (FileSystemManager.create sampleStorage)) = Ok tt /\
  WebSocketSSHService.streamingCallback
    (Session.remoteService
       (snd (FileSystemManager.setStreamingCallback (fun _ _ => tt)
               (FileSystemManager.create sampleStorage)))) = None.
Proof. repeat split. Qed.

(** ** Credentials *)

(** C7, as the code has it. [connectFallback] rejects credentials with
    neither a password nor a private key, with "No password or private key
    provided" and before anything else happens. It accepts credentials with
    at least one of the two, both included, for every host but the one whose
    password it checks. [WebSocketSSHService.connect] does not look at the
    two fields: when the proxy server is reached and accepts the
    credentials, the connect succeeds, whatever they hold. *)
Theorem credentials_check :
  (forall credentials self,
      truthy (password credentials) = false ->
      truthy (privateKey credentials) = false ->
      RealSSHService.connectFallback credentials self
      = (Throw (Error "No password or private key provided"), self)) /\
  (forall credentials self,
      truthy (password credentials) = true \/
      truthy (privateKey credentials) = true ->
      host credentials <> "panli-srv1.ece.gatech.edu" ->
      RealSSHService.connectFallback credentials self
      = (Ok true,
         {| RealSSHService.isConnected := true;
            RealSSHService.currentCredentials := Some credentials;
            RealSSHService.currentPath :=
              or_else (initialPath credentials)
                      ("/home/" ++ username credentials) |})) /\
  (forall proxy credentials self,
      socket_connect proxy = Success tt ->
      ssh_connect proxy credentials = Success tt ->
      fst (WebSocketSSHService.connect proxy credentials self) = Ok true).
Proof.
  split; [|split].
  - intros credentials self Hpassword Hkey.
    unfold RealSSHService.connectFallback. method.
    by rewrite Hpassword, Hkey.
  - intros credentials self Hsome Hhost.
    unfold RealSSHService.connectFallback. method.
    apply String.eqb_neq in Hhost. rewrite Hhost. simpl.
    by destruct Hsome as [-> | ->]; simpl; rewrite ?andb_false_r.
  - intros proxy credentials self Hsocket Hssh.
    destruct self as [sock conn cwd info callback].
    unfold WebSocketSSHService.connect, WebSocketSSHService.connectSSH,
      WebSocketSSHService.waitForSocketConnection, WebSocketSSHService.has_socket.
    method. simpl. rewrite Hsocket. simpl. by rewrite Hssh.
Qed.

Lemma credentials_check_witness :
  RealSSHService.connectFallback bareCredentials RealSSHService.create
  = (Throw (Error "No password or private key provided"),
     RealSSHService.create) /\
  RealSSHService.connectFallback workCredentials RealSSHService.create
  = (Ok true,
     {| RealSSHService.isConnected := true;
        RealSSHService.currentCredentials := Some workCredentials;
        RealSSHService.currentPath := "/work" |}) /\
  fst (WebSocketSSHService.connect workProxy workCredentials
         WebSocketSSHService.create) = Ok true.
Proof.
  destruct credentials_check as (Hnone & Hsome & Hproxy).
  split; [|split].
  - apply (Hnone bareCredentials RealSSHService.create); reflexivity.
  - apply (Hsome workCredentials RealSSHService.create);
      [left; reflexivity | discriminate].
  - apply (Hproxy workProxy workCredentials WebSocketSSHService.create);
      reflexivity.
Defined.

(** C7 fails in both directions. [connectFallback] accepts credentials that
    carry a password and a private key; [WebSocketSSHService.connect] makes
    the connection for credentials that carry neither and succeeds when the
    proxy server accepts them. *)
Lemma credentials_not_exclusive :
  truthy (password bothCredentials) = true /\
  truthy (privateKey bothCredentials) = true /\
  fst (RealSSHService.connectFallback bothCredentials RealSSHService.create)
  = Ok true /\
  truthy (password bareCredentials) = false /\
  truthy (privateKey bareCredentials) = false /\
  fst (WebSocketSSHService.connect workProxy bareCredentials
         WebSocketSSHService.create) = Ok true.
Proof. repeat split. Qed.

(** ** The socket: promises settle once *)

Lemma settle_length call p ps :
  length (Transport.settle call p ps) = length ps.
Proof.
  unfold Transport.settle.
  destruct (ps !! call) as [[]|]; try done. apply length_insert.
Qed.

Lemma settle_lookup_ne call p ps i :
  call <> i -> Transport.settle call p ps !! i = ps !! i.
Proof.
  intros Hne. unfold Transport.settle.
  destruct (ps !! call) as [[]|]; try done. by apply list_lookup_insert_ne.
Qed.

Lemma settle_lookup_pending call p ps :
  ps !! call = Some Transport.Pending ->
  Transport.settle call p ps !! call = Some p.
Proof.
  intros Hp. unfold Transport.settle. rewrite Hp.
  apply list_lookup_insert_eq. by eapply lookup_lt_Some.
Qed.

Lemma settle_lookup_settled call p ps i x :
  ps !! i = Some x -> x <> Transport.Pending ->
  Transport.settle call p ps !! i = Some x.
Proof.
  intros Hx Hsettled.
  destruct (decide (call = i)) as [->|Hne].
  - unfold Transport.settle. rewrite Hx. by destruct x.
  - by rewrite settle_lookup_ne.
Qed.

(** A run of callbacks, each settling the promise of its call. *)
Section Callbacks.
Context {B : Type} (call_of : B -> nat) (outcome : B -> Transport.Promise).

Local Abbreviation settle_all ps callbacks :=
  (foldl (fun ps b => Transport.settle (call_of b) (outcome b) ps) ps callbacks).

Lemma settle_all_length callbacks : forall ps,
  length (settle_all ps callbacks) = length ps.
Proof.
  induction callbacks as [|b callbacks IH]; intros ps; simpl; [done|].
  simpl. by rewrite IH, settle_length.
Qed.

Lemma settle_all_other callbacks i : forall ps,
  (forall b, b ∈ callbacks -> call_of b <> i) ->
  settle_all ps callbacks !! i = ps !! i.
Proof.
  induction callbacks as [|b callbacks IH]; intros ps Hother; [done|].
  simpl. rewrite IH.
  - apply settle_lookup_ne, Hother. left.
  - intros b' Hb'. apply Hother. by right.
Qed.

Lemma settle_all_settled callbacks i x : forall ps,
  ps !! i = Some x -> x <> Transport.Pending ->
  settle_all ps callbacks !! i = Some x.
Proof.
  induction callbacks as [|b callbacks IH]; intros ps Hx Hsettled; [done|].
  simpl. apply IH; [|done].
  by apply settle_lookup_settled.
Qed.

Lemma settle_all_pending callbacks i p : forall ps,
  ps !! i = Some Transport.Pending ->
  p <> Transport.Pending ->
  (exists b, b ∈ callbacks /\ call_of b = i) ->
  (forall b, b ∈ callbacks -> call_of b = i -> outcome b = p) ->
  settle_all ps callbacks !! i = Some p.
Proof.
  induction callbacks as [|b callbacks IH];
    intros ps Hpending Hp [b0 [Hin Hcall]] Hsame.
  - by apply elem_of_nil in Hin.
  - simpl.
    destruct (decide (call_of b = i)) as [Hb|Hb].
    + apply (settle_all_settled callbacks i p); [|done].
      rewrite Hb, <- (Hsame b); [|left|done].
      by apply settle_lookup_pending.
    + apply IH; try done.
      * by rewrite settle_lookup_ne.
      * exists b0. split; [|done].
        apply elem_of_cons in Hin as [->|Hin]; [done|done].
      * intros b' Hb'. apply Hsame. by right.
Qed.

End Callbacks.

(** ** The socket: what a step does to each field *)

Lemma listeners_run_listeners r ls : forall s,
  Transport.listeners (foldl (Transport.run_listener r) s ls)
  = Transport.listeners s.
Proof. induction ls as [|l ls IH]; intros s; simpl; [done|]. by rewrite IH. Qed.

Lemma now_run_listeners r ls : forall s,
  Transport.now (foldl (Transport.run_listener r) s ls) = Transport.now s.
Proof. induction ls as [|l ls IH]; intros s; simpl; [done|]. by rewrite IH. Qed.

Lemma promises_run_listeners r ls : forall s,
  Transport.promises (foldl (Transport.run_listener r) s ls)
  = foldl (fun ps l => Transport.settle (Transport.l_call l)
                         (Transport.settlement r) ps)
          (Transport.promises s) ls.
Proof. induction ls as [|l ls IH]; intros s; simpl; [done|]. by rewrite IH. Qed.

Lemma timers_run_listeners r ls tm : forall s,
  tm ∈ Transport.timers (foldl (Transport.run_listener r) s ls) <->
  tm ∈ Transport.timers s /\
  forall l, l ∈ ls -> Transport.t_call tm <> Transport.l_call l.
Proof.
  induction ls as [|l ls IH]; intros s; simpl.
  - split; [|by intros [? _]]. intros H. split; [done|].
    intros l Hl. by apply elem_of_nil in Hl.
  - rewrite IH. simpl. unfold Transport.clearTimeout.
    rewrite list_elem_of_filter. split.
    + intros [[Hne Hin] Hrest]. split; [done|].
      intros l' [->|Hl']%elem_of_cons; [done|by apply Hrest].
    + intros [Hin Hall]. split; [split; [|done]|].
      * apply Hall. left.
      * intros l' Hl'. apply Hall. by right.
Qed.

Lemma deliver_listeners r s l :
  l ∈ Transport.listeners (Transport.deliver r s) <->
  l ∈ Transport.listeners s /\ Transport.listens_for r l = false.
Proof.
  unfold Transport.deliver. rewrite listeners_run_listeners. simpl.
  rewrite list_elem_of_filter. tauto.
Qed.

Lemma listens_for_op r l :
  Transport.listens_for r l = true -> Transport.l_op l = Transport.reply_op r.
Proof.
  unfold Transport.listens_for. intros [H _]%andb_prop.
  by apply bool_decide_eq_true in H.
Qed.

Lemma now_run events : forall s,
  Transport.now (Transport.run events s)
  = Transport.now s + Transport.elapsed events.
Proof.
  induction events as [|e events IH]; intros s; simpl; [lia|].
  unfold Transport.run in *. simpl. rewrite IH.
  destruct e as [r|ms|q]; simpl; try lia.
  unfold Transport.deliver. rewrite now_run_listeners. simpl. lia.
Qed.

(** A promise that is settled stays as it is, whatever happens next. *)
Lemma step_settled s e i x :
  Transport.promises s !! i = Some x -> x <> Transport.Pending ->
  Transport.promises (Transport.step s e) !! i = Some x.
Proof.
  intros Hx Hsettled. destruct e as [r|ms|q]; simpl.
  - unfold Transport.deliver. rewrite promises_run_listeners. simpl.
    by apply (settle_all_settled Transport.l_call).
  - unfold Transport.run_timer.
    by apply (settle_all_settled Transport.t_call
                (fun tm => Transport.Rejected (Error (Transport.t_message tm)))).
  - rewrite lookup_app_l; [done|]. by eapply lookup_lt_Some.
Qed.

Lemma run_settled events i x : forall s,
  Transport.promises s !! i = Some x -> x <> Transport.Pending ->
  Transport.promises (Transport.run events s) !! i = Some x.
Proof.
  induction events as [|e events IH]; intros s Hx Hsettled; [done|].
  unfold Transport.run in *. simpl. apply IH; [|done].
  by apply step_settled.
Qed.

(** ** The socket: calls that were issued *)

Lemma issued_fresh : Transport.issued Transport.fresh.
Proof. split; constructor. Qed.

Lemma issued_step s e : Transport.issued s -> Transport.issued (Transport.step s e).
Proof.
  intros [Hl Ht]. rewrite Forall_forall in Hl. rewrite Forall_forall in Ht.
  destruct e as [r|ms|q]; split; apply Forall_forall; simpl.
  - intros l [Hin _]%deliver_listeners.
    unfold Transport.deliver. rewrite promises_run_listeners.
    rewrite (settle_all_length Transport.l_call). simpl. by apply Hl.
  - intros tm Hin. unfold Transport.deliver in *.
    apply timers_run_listeners in Hin as [Hin _].
    rewrite promises_run_listeners.
    rewrite (settle_all_length Transport.l_call). simpl in *. by apply Ht.
  - intros l Hin. unfold Transport.run_timer.
    rewrite (settle_all_length Transport.t_call
               (fun tm => Transport.Rejected (Error (Transport.t_message tm)))).
    by apply Hl.
  - intros tm [_ Hin]%list_elem_of_filter. unfold Transport.run_timer.
    rewrite (settle_all_length Transport.t_call
               (fun tm => Transport.Rejected (Error (Transport.t_message tm)))).
    by apply Ht.
  - intros l Hin. rewrite length_app. simpl.
    apply elem_of_app in Hin as [Hin|Hin].
    + apply Hl in Hin. lia.
    + apply elem_of_cons in Hin as [->|Hin]; simpl; [lia|].
      apply list_elem_of_singleton in Hin as ->. simpl. lia.
  - intros tm Hin. rewrite length_app. simpl.
    apply elem_of_app in Hin as [Hin|Hin].
    + apply Ht in Hin. lia.
    + apply list_elem_of_singleton in Hin as ->. simpl. lia.
Qed.

Lemma issued_run events : forall s,
  Transport.issued s -> Transport.issued (Transport.run events s).
Proof.
  induction events as [|e events IH]; intros s Hs; [done|].
  unfold Transport.run in *. simpl. by apply IH, issued_step.
Qed.

Lemma timeoutMs_positive op : 0 < Transport.timeoutMs op.
Proof. by destruct op. Qed.

Lemma timeoutMessage_inj op op' :
  Transport.timeoutMessage op = Transport.timeoutMessage op' -> op = op'.
Proof. by destruct op, op'. Qed.

(** ** The socket: a request that gets no reply *)

Lemma request_unanswered q s :
  Transport.issued s ->
  Transport.unanswered (Transport.request_op q) (fst (Transport.request q s))
    (Transport.now s + Transport.timeoutMs (Transport.request_op q))
    (snd (Transport.request q s)).
Proof.
  intros [Hl Ht]. rewrite Forall_forall in Hl. rewrite Forall_forall in Ht.
  unfold Transport.unanswered. simpl.
  split; [rewrite length_app; simpl; lia|].
  split; [|split; [|split; [|split]]].
  - intros l [Hin|Hin]%elem_of_app Hcall.
    + apply Hl in Hin. lia.
    + apply elem_of_cons in Hin as [->|Hin]; [done|].
      by apply list_elem_of_singleton in Hin as ->.
  - intros tm [Hin|Hin]%elem_of_app Hcall.
    + apply Ht in Hin. lia.
    + by apply list_elem_of_singleton in Hin as ->.
  - apply elem_of_app. right. left.
  - apply elem_of_app. right. right. left.
  - left. pose proof (timeoutMs_positive (Transport.request_op q)).
    split; [lia|]. split.
    + rewrite lookup_app_r by lia. by rewrite Nat.sub_diag.
    + apply elem_of_app. right. left.
Qed.

Lemma step_unanswered op call due s e :
  Transport.unanswered op call due s ->
  Transport.quiet_for op e ->
  Transport.unanswered op call due (Transport.step s e).
Proof.
  intros (Hcall & Hlisteners & Htimers & Hsuccess & Herror & Hphase) Hquiet.
  destruct e as [r|ms|q]; simpl in *.
  - (* a reply to a request of another operation *)
    assert (Hfired : forall l,
               l ∈ filter (fun l => Transport.listens_for r l = true)
                          (Transport.listeners s) ->
               Transport.l_call l <> call).
    { intros l [Hfor Hin]%list_elem_of_filter Heq.
      apply listens_for_op in Hfor.
      apply Hlisteners in Hin; [|done]. congruence. }
    assert (Hkept : forall l,
               l ∈ Transport.listeners s -> Transport.l_op l = op ->
               l ∈ Transport.listeners (Transport.deliver r s)).
    { intros l Hin Hop. apply deliver_listeners. split; [done|].
      unfold Transport.listens_for. rewrite bool_decide_eq_false_2; [done|].
      congruence. }
    unfold Transport.unanswered.
    split; [|split; [|split; [|split; [|split]]]].
    + unfold Transport.deliver. rewrite promises_run_listeners.
      by rewrite (settle_all_length Transport.l_call).
    + intros l [Hin _]%deliver_listeners. by apply Hlisteners.
    + intros tm Hin. unfold Transport.deliver in Hin.
      apply timers_run_listeners in Hin as [Hin _]. by apply Htimers.
    + by apply Hkept.
    + by apply Hkept.
    + unfold Transport.deliver. rewrite now_run_listeners. simpl.
      destruct Hphase as [(Hnow & Hpending & Htimer)|(Hnow & Hrejected)].
      * left. split; [done|]. split.
        -- rewrite promises_run_listeners. simpl.
           by rewrite (settle_all_other Transport.l_call).
        -- apply timers_run_listeners. split; [done|].
           intros l Hl Heq. by apply (Hfired l).
      * right. split; [done|].
        rewrite promises_run_listeners. simpl.
        by apply (settle_all_settled Transport.l_call).
  - (* time passes *)
    unfold Transport.unanswered. simpl. unfold Transport.run_timer.
    set (outcome := fun tm =>
           Transport.Rejected (Error (Transport.t_message tm))).
    split; [|split; [|split; [|split; [|split]]]]; try done.
    + by rewrite (settle_all_length Transport.t_call outcome).
    + intros tm [_ Hin]%list_elem_of_filter. by apply Htimers.
    + destruct Hphase as [(Hnow & Hpending & Htimer)|(Hnow & Hrejected)].
      * destruct (Z.lt_ge_cases (Transport.now s + Z.max 0 ms) due) as [Hearly|Hlate].
        -- left. split; [done|]. split.
           ++ rewrite (settle_all_other Transport.t_call outcome); [done|].
              intros tm [Hdue Hin]%list_elem_of_filter Heq.
              apply Htimers in Hin; [|done]. subst tm. simpl in Hdue. lia.
           ++ apply list_elem_of_filter. by split.
        -- right. split; [done|].
           apply (settle_all_pending Transport.t_call outcome); try done.
           ++ exists (Transport.timerOf op call due). split; [|done].
              apply list_elem_of_filter. by split.
           ++ intros tm [_ Hin]%list_elem_of_filter Heq.
              apply Htimers in Hin; [|done]. by subst tm.
      * right. split; [lia|].
        by apply (settle_all_settled Transport.t_call outcome).
  - (* another request is issued *)
    unfold Transport.unanswered. simpl.
    split; [rewrite length_app; simpl; lia|].
    split; [|split; [|split; [|split]]].
    + intros l [Hin|Hin]%elem_of_app Heq; [by apply Hlisteners|].
      apply elem_of_cons in Hin as [->|Hin]; simpl in *; [lia|].
      apply list_elem_of_singleton in Hin as ->. simpl in *. lia.
    + intros tm [Hin|Hin]%elem_of_app Heq; [by apply Htimers|].
      apply list_elem_of_singleton in Hin as ->. simpl in *. lia.
    + apply elem_of_app. by left.
    + apply elem_of_app. by left.
    + destruct Hphase as [(Hnow & Hpending & Htimer)|(Hnow & Hrejected)].
      * left. split; [done|]. split.
        -- by rewrite lookup_app_l.
        -- apply elem_of_app. by left.
      * right. split; [done|]. by rewrite lookup_app_l.
Qed.

Lemma run_unanswered op call due events : forall s,
  Transport.unanswered op call due s ->
  Forall (Transport.quiet_for op) events ->
  Transport.unanswered op call due (Transport.run events s).
Proof.
  induction events as [|e events IH]; intros s Hs Hquiet; [done|].
  apply Forall_cons in Hquiet as [He Hquiet].
  unfold Transport.run in *. simpl. apply IH; [|done].
  by apply step_unanswered.
Qed.

(** ** The socket: a reply to a pending request *)

Lemma settlement_settled r : Transport.settlement r <> Transport.Pending.
Proof. by destruct r. Qed.

Lemma deliver_to_pending op call due s r :
  Transport.unanswered op call due s ->
  Transport.now s < due ->
  Transport.reply_op r = op ->
  Transport.promises (Transport.deliver r s) !! call
  = Some (Transport.settlement r) /\
  (Transport.listenerOf op (Transport.reply_success r) call
   ∉ Transport.listeners (Transport.deliver r s)) /\
  (Transport.listenerOf op (negb (Transport.reply_success r)) call
   ∈ Transport.listeners (Transport.deliver r s)).
Proof.
  intros (Hcall & Hlisteners & Htimers & Hsuccess & Herror & Hphase) Hnow Hop.
  destruct Hphase as [(_ & Hpending & Htimer)|(Hlate & _)]; [|lia].
  split; [|split].
  - unfold Transport.deliver. rewrite promises_run_listeners. simpl.
    apply (settle_all_pending Transport.l_call
             (fun _ => Transport.settlement r)); try done.
    + apply settlement_settled.
    + exists (Transport.listenerOf op (Transport.reply_success r) call).
      split; [|done]. apply list_elem_of_filter. split.
      * unfold Transport.listens_for. simpl.
        rewrite bool_decide_eq_true_2 by done. by destruct (Transport.reply_success r).
      * by destruct (Transport.reply_success r).
  - intros [_ Hfor]%deliver_listeners.
    unfold Transport.listens_for in Hfor. simpl in Hfor.
    rewrite bool_decide_eq_true_2 in Hfor by done.
    by destruct (Transport.reply_success r).
  - apply deliver_listeners. split.
    + by destruct (Transport.reply_success r).
    + unfold Transport.listens_for. simpl.
      by destruct (Transport.reply_success r); rewrite andb_false_r.
Qed.

Lemma run_app events later s :
  Transport.run (events ++ later) s
  = Transport.run later (Transport.run events s).
Proof. unfold Transport.run. apply foldl_app. Qed.

(** C1, as the code has it. A request is issued on a socket with any
    history. If no reply to a request of its operation arrives while its
    deadline passes (15 s for a listing, 20 s for a read or a write, 30 s for
    a command), the call is rejected with the timeout message of the
    operation, and nothing that happens later, a late reply included,
    changes that. The two listeners of the call are not retired by the
    timeout: both are still on the socket after it. If a reply to a request
    of its operation arrives before the deadline, the call settles with that
    reply for good; the listener that ran is off the socket, and the
    listener of the other outcome is still on it. *)
Theorem request_timeout :
  (forall before q quiet later,
      Forall (Transport.quiet_for (Transport.request_op q)) quiet ->
      Transport.timeoutMs (Transport.request_op q) <= Transport.elapsed quiet ->
      Transport.promises
        (Transport.run (quiet ++ later)
           (snd (Transport.request q (Transport.run before Transport.fresh))))
        !! fst (Transport.request q (Transport.run before Transport.fresh))
      = Some (Transport.Rejected
                (Error (Transport.timeoutMessage (Transport.request_op q)))) /\
      Transport.successListener (Transport.request_op q)
        (fst (Transport.request q (Transport.run before Transport.fresh)))
      ∈ Transport.listeners
          (Transport.run quiet
             (snd (Transport.request q (Transport.run before Transport.fresh)))) /\
      Transport.errorListener (Transport.request_op q)
        (fst (Transport.request q (Transport.run before Transport.fresh)))
      ∈ Transport.listeners
          (Transport.run quiet
             (snd (Transport.request q (Transport.run before Transport.fresh))))) /\
  (forall before q quiet r later,
      Forall (Transport.quiet_for (Transport.request_op q)) quiet ->
      Transport.elapsed quiet < Transport.timeoutMs (Transport.request_op q) ->
      Transport.reply_op r = Transport.request_op q ->
      Transport.promises
        (Transport.run (quiet ++ Transport.Arrives r :: later)
           (snd (Transport.request q (Transport.run before Transport.fresh))))
        !! fst (Transport.request q (Transport.run before Transport.fresh))
      = Some (Transport.settlement r) /\
      (Transport.listenerOf (Transport.request_op q) (Transport.reply_success r)
         (fst (Transport.request q (Transport.run before Transport.fresh)))
       ∉ Transport.listeners
           (Transport.run (quiet ++ [Transport.Arrives r])
              (snd (Transport.request q (Transport.run before Transport.fresh))))) /\
      (Transport.listenerOf (Transport.request_op q)
         (negb (Transport.reply_success r))
         (fst (Transport.request q (Transport.run before Transport.fresh)))
       ∈ Transport.listeners
           (Transport.run (quiet ++ [Transport.Arrives r])
              (snd (Transport.request q (Transport.run before Transport.fresh)))))).
Proof.
  split.
  - intros before q quiet later Hquiet Helapsed.
    set (s := Transport.run before Transport.fresh).
    pose proof (request_unanswered q s
                  (issued_run before _ issued_fresh)) as Hrequest.
    pose proof (run_unanswered _ _ _ quiet _ Hrequest Hquiet)
      as (_ & _ & _ & Hsuccess & Herror & Hphase).
    split; [|done].
    rewrite run_app. apply run_settled; [|done].
    destruct Hphase as [(Hnow & _)|(_ & Hrejected)]; [|done].
    rewrite now_run in Hnow. simpl in Hnow. lia.
  - intros before q quiet r later Hquiet Helapsed Hop.
    set (s := Transport.run before Transport.fresh).
    pose proof (request_unanswered q s
                  (issued_run before _ issued_fresh)) as Hrequest.
    pose proof (run_unanswered _ _ _ quiet _ Hrequest Hquiet) as Hwaiting.
    destruct (deliver_to_pending _ _ _ _ r Hwaiting) as (Hsettled & Hgone & Hkept).
    { rewrite now_run. simpl. lia. }
    { done. }
    split; [|split].
    + rewrite run_app.
      change (Transport.run (Transport.Arrives r :: later) ?s')
        with (Transport.run later (Transport.deliver r s')).
      apply run_settled; [done|apply settlement_settled].
    + by rewrite run_app.
    + by rewrite run_app.
Qed.

Lemma request_timeout_witness :
  (Transport.promises
     (Transport.run
        [Transport.Issues (Transport.ReqListDir "/work");
         Transport.Passes 15000;
         Transport.Arrives (Transport.ListDirSuccess [notesFile])]
        Transport.fresh) !! 0%nat
   = Some (Transport.Rejected (Error "List directory timeout")) /\
   Transport.successListener Transport.ListDir 0
   ∈ Transport.listeners
       (Transport.run
          [Transport.Issues (Transport.ReqListDir "/work");
           Transport.Passes 15000]
          Transport.fresh) /\
   Transport.errorListener Transport.ListDir 0
   ∈ Transport.listeners
       (Transport.run
          [Transport.Issues (Transport.ReqListDir "/work");
           Transport.Passes 15000]
          Transport.fresh)) /\
  Transport.promises
    (Transport.run
       [Transport.Issues (Transport.ReqReadFile "/work/notes.txt");
        Transport.Passes 100;
        Transport.Arrives (Transport.ReadFileSuccess "/work/notes.txt" "hello");
        Transport.Passes 20000;
        Transport.Arrives (Transport.ReadFileError "late")]
       Transport.fresh) !! 0%nat
  = Some (Transport.Resolved (Transport.VString "hello")).
Proof.
  destruct request_timeout as [Htimeout Hreply].
  split.
  - exact (Htimeout [] (Transport.ReqListDir "/work")
             [Transport.Passes 15000]
             [Transport.Arrives (Transport.ListDirSuccess [notesFile])]
             ltac:(repeat constructor) ltac:(simpl; lia)).
  - exact (proj1 (Hreply [] (Transport.ReqReadFile "/work/notes.txt")
                    [Transport.Passes 100]
                    (Transport.ReadFileSuccess "/work/notes.txt" "hello")
                    [Transport.Passes 20000;
                     Transport.Arrives (Transport.ReadFileError "late")]
                    ltac:(repeat constructor) ltac:(simpl; lia) eq_refl)).
Defined.

(** C1 fails where it says that the listeners are retired. After the
    deadline of a listing has passed and the call is rejected, its two
    listeners are still on the socket; after a success reply, its error
    listener is still on the socket. A listener left behind runs on the
    next reply of its name: when a listing times out, a second listing is
    issued and one success reply arrives, that reply runs the listener of
    the first call and resolves the second, and the first call stays
    rejected. *)
Lemma listeners_not_retired :
  Transport.promises
    (Transport.run
       [Transport.Issues (Transport.ReqListDir "/work");
        Transport.Passes 15000]
       Transport.fresh)
  = [Transport.Rejected (Error "List directory timeout")] /\
  Transport.listeners
    (Transport.run
       [Transport.Issues (Transport.ReqListDir "/work");
        Transport.Passes 15000]
       Transport.fresh)
  = [Transport.successListener Transport.ListDir 0;
     Transport.errorListener Transport.ListDir 0] /\
  Transport.listeners
    (Transport.run
       [Transport.Issues (Transport.ReqListDir "/work");
        Transport.Arrives (Transport.ListDirSuccess [notesFile])]
       Transport.fresh)
  = [Transport.errorListener Transport.ListDir 0] /\
  Transport.promises
    (Transport.run
       [Transport.Issues (Transport.ReqListDir "/work");
        Transport.Passes 15000;
        Transport.Issues (Transport.ReqListDir "/other");
        Transport.Arrives (Transport.ListDirSuccess [notesFile])]
       Transport.fresh)
  = [Transport.Rejected (Error "List directory timeout");
     Transport.Resolved (Transport.VFiles [notesFile])] /\
  Transport.listeners
    (Transport.run
       [Transport.Issues (Transport.ReqListDir "/work");
        Transport.Passes 15000;
        Transport.Issues (Transport.ReqListDir "/other");
        Transport.Arrives (Transport.ListDirSuccess [notesFile])]
       Transport.fresh)
  = [Transport.errorListener Transport.ListDir 0;
     Transport.errorListener Transport.ListDir 1].
Proof. repeat split. Qed.

(** ** One call on a socket of its own

    The result of [listDirectory] for each answer of the proxy server is
    what the socket makes of the matching event. *)
Lemma listDirectory_round_trip path answer :
  Transport.promises
    (Transport.run
       [Transport.Issues (Transport.ReqListDir path);
        match answer with
        | Success files => Transport.Arrives (Transport.ListDirSuccess files)
        | Failure error => Transport.Arrives (Transport.ListDirError error)
        | NoAnswer => Transport.Passes (Transport.timeoutMs Transport.ListDir)
        end]
       Transport.fresh) !! 0%nat
  = Some (match replied answer "List directory timeout" with
          | Ok files => Transport.Resolved (Transport.VFiles files)
          | Throw e => Transport.Rejected e
          end).
Proof. by destruct answer. Qed.

(** * Further properties of the services *)

(** Case analysis through the services, down to the answers of the
    collaborators. *)
Ltac all_cases :=
  open_services; simpl in *;
  repeat first
    [ done | progress simplify_eq/= | case_match | progress method
    | progress simpl in * ].

(** ** The remote backend without a connection *)

(** While the remote backend is not connected, each of its calls that
    needs the server fails with "Not connected to remote server" and leaves
    the backend as it is, whatever the proxy server would answer: the
    request is never sent. *)
Theorem remote_calls_need_connection proxy self :
  RemoteFileSystem.isConnected self = false ->
  (forall path,
      RemoteFileSystem.listDirectory proxy path self
      = (Throw (Error "Not connected to remote server"), self)) /\
  (forall path,
      RemoteFileSystem.changeDirectory proxy path self
      = (Throw (Error "Not connected to remote server"), self)) /\
  (forall filePath,
      RemoteFileSystem.readFile proxy filePath self
      = (Throw (Error "Not connected to remote server"), self)) /\
  (forall filePath content,
      RemoteFileSystem.writeFile proxy filePath content self
      = (Throw (Error "Not connected to remote server"), self)) /\
  (forall command,
      RemoteFileSystem.executeCommand proxy command self
      = (Throw (Error "Not connected to remote server"), self)).
Proof.
  intros Hc.
  repeat split; intros;
    unfold RemoteFileSystem.listDirectory, RemoteFileSystem.changeDirectory,
      RemoteFileSystem.readFile, RemoteFileSystem.writeFile,
      RemoteFileSystem.executeCommand; method; by rewrite Hc.
Qed.

Lemma remote_calls_need_connection_witness :
  RemoteFileSystem.listDirectory workProxy (Some "/work") RemoteFileSystem.create
  = (Throw (Error "Not connected to remote server"), RemoteFileSystem.create) /\
  RemoteFileSystem.executeCommand workProxy "ls" RemoteFileSystem.create
  = (Throw (Error "Not connected to remote server"), RemoteFileSystem.create).
Proof.
  destruct (remote_calls_need_connection workProxy RemoteFileSystem.create
              eq_refl) as (Hlist & _ & _ & _ & Hexec).
  split; [apply Hlist | apply Hexec].
Defined.

(** ** Errors of the remote backend *)

Lemma remote_connected_service self :
  RemoteFileSystem.isConnected self = true ->
  WebSocketSSHService.not_connected (RemoteFileSystem.sshService self) = false.
Proof. apply ws_isConnected_not_connected. Qed.

(** On a connected remote backend a call of the service that fails, by an
    error reply or by its timeout, reaches the caller differently for each
    method. [readFile], [writeFile] and [listDirectory] replace the error of
    the service by a message that names the method and the path;
    [executeCommand] and [changeDirectory] pass the error of the service on
    as it is. A success reply is returned as it came, with [''] for a
    command result without [stdout]. *)
Theorem remote_error_context proxy self :
  RemoteFileSystem.isConnected self = true ->
  (forall filePath,
      fst (RemoteFileSystem.readFile proxy filePath self)
      = match ssh_readFile proxy filePath with
        | Success content => Ok content
        | _ => Throw (Error ("Failed to read remote file: " ++ filePath))
        end) /\
  (forall filePath content,
      fst (RemoteFileSystem.writeFile proxy filePath content self)
      = match ssh_writeFile proxy filePath content with
        | Success _ => Ok tt
        | _ => Throw (Error ("Failed to write remote file: " ++ filePath))
        end) /\
  (forall path,
      fst (RemoteFileSystem.listDirectory proxy path self)
      = match ssh_listDir proxy
                (or_else path (RemoteFileSystem.getCurrentPath self)) with
        | Success files => Ok files
        | _ => Throw (Error ("Failed to list remote directory: "
                             ++ or_else path (RemoteFileSystem.getCurrentPath self)))
        end) /\
  (forall command,
      fst (RemoteFileSystem.executeCommand proxy command self)
      = match ssh_executeCommand proxy command with
        | Success result_stdout => Ok (or_else result_stdout "")
        | Failure error => Throw (Error error)
        | NoAnswer => Throw (Error "Execute command timeout")
        end) /\
  (forall path,
      fst (RemoteFileSystem.changeDirectory proxy path self)
      = match ssh_listDir proxy
                (or_else (Some path) (RemoteFileSystem.getCurrentPath self)) with
        | Success _ => Ok tt
        | Failure error => Throw (Error error)
        | NoAnswer => Throw (Error "List directory timeout")
        end).
Proof.
  destruct self as [[[[[|]]|] [|] cwd info callback]]; intros Hc;
    try discriminate Hc.
  repeat split; intros; all_cases.
  match goal with u : unit |- _ => by destruct u end.
Qed.

Lemma remote_error_context_witness :
  fst (RemoteFileSystem.readFile silentProxy "/work/notes.txt" connectedRemote)
  = Throw (Error "Failed to read remote file: /work/notes.txt") /\
  fst (RemoteFileSystem.executeCommand silentProxy "ls" connectedRemote)
  = Throw (Error "Execute command timeout") /\
  fst (RemoteFileSystem.changeDirectory workProxy "/missing" connectedRemote)
  = Throw (Error "No such file").
Proof.
  split; [|split].
  - exact (proj1 (remote_error_context silentProxy connectedRemote eq_refl)
             "/work/notes.txt").
  - exact (proj1 (proj2 (proj2 (proj2
             (remote_error_context silentProxy connectedRemote eq_refl)))) "ls").
  - exact (proj2 (proj2 (proj2 (proj2
             (remote_error_context workProxy connectedRemote eq_refl))))
             "/missing").
Defined.

(** *** How each call leaves the remote backend *)

Lemma remote_readonly_calls proxy self :
  (forall path, snd (RemoteFileSystem.listDirectory proxy path self) = self) /\
  (forall filePath,
      snd (RemoteFileSystem.readFile proxy filePath self) = self) /\
  (forall filePath content,
      snd (RemoteFileSystem.writeFile proxy filePath content self) = self) /\
  (forall command,
      snd (RemoteFileSystem.executeCommand proxy command self) = self).
Proof.
  destruct self as [[sock conn cwd info callback]].
  repeat split; intros; all_cases.
Qed.

(** The service after a successful [changeDirectory]. *)
Lemma ws_changeDirectory_state proxy path self :
  snd (WebSocketSSHService.changeDirectory proxy path self) = self \/
  (WebSocketSSHService.not_connected self = false /\
   fst (WebSocketSSHService.changeDirectory proxy path self) = Ok tt /\
   snd (WebSocketSSHService.changeDirectory proxy path self)
   = WebSocketSSHService.set_connectionInfo
       (match WebSocketSSHService.connectionInfo self with
        | Some info =>
            Some {| rd_host := rd_host info; rd_username := rd_username info;
                    rd_currentPath := path |}
        | None => None
        end)
       (WebSocketSSHService.set_currentPath path self)).
Proof.
  rewrite ws_changeDirectory_eq, ws_listDirectory_eq. simpl.
  destruct (WebSocketSSHService.not_connected self); [by left|].
  destruct (replied _ _); [right|left]; done.
Qed.

Lemma remote_changeDirectory_state proxy path self :
  snd (RemoteFileSystem.changeDirectory proxy path self) = self \/
  (RemoteFileSystem.isConnected self = true /\
   fst (RemoteFileSystem.changeDirectory proxy path self) = Ok tt /\
   RemoteFileSystem.sshService
     (snd (RemoteFileSystem.changeDirectory proxy path self))
   = WebSocketSSHService.set_connectionInfo
       (match WebSocketSSHService.connectionInfo
                (RemoteFileSystem.sshService self) with
        | Some info =>
            Some {| rd_host := rd_host info; rd_username := rd_username info;
                    rd_currentPath := path |}
        | None => None
        end)
       (WebSocketSSHService.set_currentPath path
          (RemoteFileSystem.sshService self))).
Proof.
  unfold RemoteFileSystem.changeDirectory, RemoteFileSystem.ssh. method.
  destruct (RemoteFileSystem.isConnected self) eqn:Hc; simpl; [|by left].
  destruct self as [service]. simpl.
  destruct (ws_changeDirectory_state proxy path service)
    as [Hsame|(_ & Hok & Hstate)].
  - left. destruct (WebSocketSSHService.changeDirectory proxy path service)
      as [[|] service']; simpl in *; by subst.
  - right. destruct (WebSocketSSHService.changeDirectory proxy path service)
      as [[|] service']; simpl in *; by subst.
Qed.

(** The two ways [connect] can end. *)
Lemma ws_connect_state proxy credentials self :
  (socket_connect proxy = Success tt /\
   ssh_connect proxy credentials = Success tt /\
   WebSocketSSHService.connect proxy credentials self
   = (Ok true, established credentials self)) \/
  (exists error,
      WebSocketSSHService.connect proxy credentials self
      = (Throw (Error error), cleaned self) /\
      match socket_connect proxy with
      | Success _ =>
          match ssh_connect proxy credentials with
          | Success _ => False
          | Failure reason => error = "SSH connection failed: " ++ reason
          | NoAnswer => error = "SSH connection timeout"
          end
      | Failure message => error = "Socket connection failed: " ++ message
      | NoAnswer => error = "Socket connection timeout"
      end).
Proof.
  destruct self as [sock conn cwd info callback].
  unfold WebSocketSSHService.connect, WebSocketSSHService.connectSSH,
    WebSocketSSHService.waitForSocketConnection, WebSocketSSHService.cleanup,
    WebSocketSSHService.has_socket, established, cleaned.
  method. simpl.
  destruct (socket_connect proxy) as [[]|message|]; simpl.
  - destruct (ssh_connect proxy credentials) as [[]|reason|]; simpl;
      [by left|right; eauto..].
  - right. eauto.
  - right. eauto.
Qed.

Lemma ws_disconnect_state proxy self :
  WebSocketSSHService.disconnect proxy self = (Ok tt, cleaned self).
Proof.
  destruct self as [sock conn cwd info callback].
  unfold WebSocketSSHService.disconnect, WebSocketSSHService.awaitDisconnect,
    WebSocketSSHService.cleanup, WebSocketSSHService.has_socket, cleaned.
  method. simpl.
  by destruct sock, conn, (ssh_disconnect proxy).
Qed.

(** No call of the remote backend disconnects it or connects it: listing,
    reading, writing and running a command leave the backend exactly as it
    is, whether they succeed or fail, and [changeDirectory] leaves the
    socket, the flag [connected] and the streaming callback as they are. *)
Theorem remote_calls_keep_connection proxy self :
  (forall path, snd (RemoteFileSystem.listDirectory proxy path self) = self) /\
  (forall filePath,
      snd (RemoteFileSystem.readFile proxy filePath self) = self) /\
  (forall filePath content,
      snd (RemoteFileSystem.writeFile proxy filePath content self) = self) /\
  (forall command,
      snd (RemoteFileSystem.executeCommand proxy command self) = self) /\
  (forall path,
      WebSocketSSHService.socket
        (RemoteFileSystem.sshService
           (snd (RemoteFileSystem.changeDirectory proxy path self)))
      = WebSocketSSHService.socket (RemoteFileSystem.sshService self) /\
      WebSocketSSHService.connected
        (RemoteFileSystem.sshService
           (snd (RemoteFileSystem.changeDirectory proxy path self)))
      = WebSocketSSHService.connected (RemoteFileSystem.sshService self) /\
      WebSocketSSHService.streamingCallback
        (RemoteFileSystem.sshService
           (snd (RemoteFileSystem.changeDirectory proxy path self)))
      = WebSocketSSHService.streamingCallback (RemoteFileSystem.sshService self) /\
      RemoteFileSystem.isConnected
        (snd (RemoteFileSystem.changeDirectory proxy path self))
      = RemoteFileSystem.isConnected self).
Proof.
  destruct (remote_readonly_calls proxy self) as (Hlist & Hread & Hwrite & Hrun).
  split; [done|]. split; [done|]. split; [done|]. split; [done|].
  intros dir.
  destruct (remote_changeDirectory_state proxy dir self)
    as [->|(_ & _ & Hstate)]; [done|].
  unfold RemoteFileSystem.isConnected, WebSocketSSHService.isConnected.
  by rewrite Hstate.
Qed.


(** ** How the manager routes a call *)

Lemma onLocal_fields {A} (m : M LocalFileSystem.t A) s :
  FileSystemManager.remoteFS (snd (FileSystemManager.onLocal m s))
  = FileSystemManager.remoteFS s /\
  FileSystemManager.currentFileSystem (snd (FileSystemManager.onLocal m s))
  = FileSystemManager.currentFileSystem s /\
  FileSystemManager.localFS (snd (FileSystemManager.onLocal m s))
  = snd (m (FileSystemManager.localFS s)) /\
  fst (FileSystemManager.onLocal m s) = fst (m (FileSystemManager.localFS s)).
Proof.
  unfold FileSystemManager.onLocal, on_field.
  by destruct (m (FileSystemManager.localFS s)).
Qed.

Lemma onRemote_fields {A} (m : M RemoteFileSystem.t A) s :
  FileSystemManager.localFS (snd (FileSystemManager.onRemote m s))
  = FileSystemManager.localFS s /\
  FileSystemManager.currentFileSystem (snd (FileSystemManager.onRemote m s))
  = FileSystemManager.currentFileSystem s /\
  FileSystemManager.remoteFS (snd (FileSystemManager.onRemote m s))
  = snd (m (FileSystemManager.remoteFS s)) /\
  fst (FileSystemManager.onRemote m s) = fst (m (FileSystemManager.remoteFS s)).
Proof.
  unfold FileSystemManager.onRemote, on_field.
  by destruct (m (FileSystemManager.remoteFS s)).
Qed.

Lemma manager_dispatch localeCompare fs proxy self :
  (forall dir,
      FileSystemManager.changeDirectory localeCompare fs proxy dir self
      = if decide (FileSystemManager.currentFileSystem self = local)
        then FileSystemManager.onLocal
               (LocalFileSystem.changeDirectory fs dir) self
        else FileSystemManager.onRemote
               (RemoteFileSystem.changeDirectory proxy dir) self) /\
  (forall filePath,
      FileSystemManager.readFile localeCompare fs proxy filePath self
      = if decide (FileSystemManager.currentFileSystem self = local)
        then FileSystemManager.onLocal
               (LocalFileSystem.readFile fs filePath) self
        else FileSystemManager.onRemote
               (RemoteFileSystem.readFile proxy filePath) self) /\
  (forall filePath content,
      FileSystemManager.writeFile localeCompare fs proxy filePath content self
      = if decide (FileSystemManager.currentFileSystem self = local)
        then FileSystemManager.onLocal
               (LocalFileSystem.writeFile fs filePath content) self
        else FileSystemManager.onRemote
               (RemoteFileSystem.writeFile proxy filePath content) self).
Proof.
  unfold FileSystemManager.changeDirectory, FileSystemManager.readFile,
    FileSystemManager.writeFile, FileSystemManager.getCurrentFS.
  method. repeat split; intros; by destruct (decide _).
Qed.

Lemma manager_pathExists_state localeCompare fs proxy target self :
  snd (FileSystemManager.pathExists localeCompare fs proxy target self) = self.
Proof.
  unfold FileSystemManager.pathExists. method.
  destruct (bool_decide (FileSystemManager.currentFileSystem self = local)).
  - pose proof (manager_listDirectory_state localeCompare fs proxy None self) as Hs.
    by destruct (FileSystemManager.listDirectory _ _ _ None self) as [[|] s'];
      simpl in *; subst.
  - set (parent := Some _).
    pose proof (manager_listDirectory_state localeCompare fs proxy parent self)
      as Hs.
    by destruct (FileSystemManager.listDirectory _ _ _ parent self) as [[|] s'];
      simpl in *; subst.
Qed.

Lemma manager_executeCommand_state proxy command self :
  snd (FileSystemManager.executeCommand proxy command self) = self.
Proof.
  unfold FileSystemManager.executeCommand. method.
  destruct (bool_decide _); simpl; [|done].
  unfold FileSystemManager.onRemote, on_field.
  pose proof (proj2 (proj2 (proj2 (remote_readonly_calls proxy
                (FileSystemManager.remoteFS self)))) command) as Hs.
  destruct (RemoteFileSystem.executeCommand _ _ _) as [r s']; simpl in *.
  subst. apply set_remoteFS_same.
Qed.

(** The remote backend after a contract call of the manager: as it was, or
    as the same call of the remote backend leaves it. *)
Lemma manager_calls_remoteFS localeCompare fs proxy self :
  (forall dir,
      FileSystemManager.remoteFS
        (snd (FileSystemManager.listDirectory localeCompare fs proxy dir self))
      = FileSystemManager.remoteFS self) /\
  (forall dir,
      FileSystemManager.remoteFS
        (snd (FileSystemManager.changeDirectory localeCompare fs proxy dir self))
      = FileSystemManager.remoteFS self \/
      FileSystemManager.remoteFS
        (snd (FileSystemManager.changeDirectory localeCompare fs proxy dir self))
      = snd (RemoteFileSystem.changeDirectory proxy dir
               (FileSystemManager.remoteFS self))) /\
  (forall filePath,
      FileSystemManager.remoteFS
        (snd (FileSystemManager.readFile localeCompare fs proxy filePath self))
      = FileSystemManager.remoteFS self) /\
  (forall filePath content,
      FileSystemManager.remoteFS
        (snd (FileSystemManager.writeFile localeCompare fs proxy filePath
                content self))
      = FileSystemManager.remoteFS self).
Proof.
  destruct (manager_dispatch localeCompare fs proxy self)
    as (Hcd & Hread & Hwrite).
  destruct (remote_readonly_calls proxy (FileSystemManager.remoteFS self))
    as (_ & Hr & Hw & _).
  split; [|split; [|split]].
  - intros dir. by rewrite manager_listDirectory_state.
  - intros dir. rewrite Hcd. destruct (decide _).
    + left. apply onLocal_fields.
    + right. apply onRemote_fields.
  - intros filePath. rewrite Hread. destruct (decide _).
    + apply onLocal_fields.
    + rewrite (proj1 (proj2 (proj2 (onRemote_fields _ _)))). apply Hr.
  - intros filePath content. rewrite Hwrite. destruct (decide _).
    + apply onLocal_fields.
    + rewrite (proj1 (proj2 (proj2 (onRemote_fields _ _)))). apply Hw.
Qed.

Lemma manager_connect_remoteFS proxy credentials self :
  FileSystemManager.remoteFS
    (snd (FileSystemManager.connectToRemote proxy credentials self))
  = snd (RemoteFileSystem.connect proxy credentials
           (FileSystemManager.remoteFS self)) /\
  fst (FileSystemManager.connectToRemote proxy credentials self)
  = fst (RemoteFileSystem.connect proxy credentials
           (FileSystemManager.remoteFS self)).
Proof.
  unfold FileSystemManager.connectToRemote, FileSystemManager.onRemote. method.
  by destruct (RemoteFileSystem.connect proxy credentials
                 (FileSystemManager.remoteFS self)) as [[[|]|e] remote'].
Qed.

Lemma manager_disconnect_state proxy self :
  FileSystemManager.disconnectFromRemote proxy self
  = (Ok tt,
     {| FileSystemManager.currentFileSystem := local;
        FileSystemManager.localFS := FileSystemManager.localFS self;
        FileSystemManager.remoteFS :=
          {| RemoteFileSystem.sshService :=
               cleaned (Session.remoteService self) |} |}).
Proof.
  unfold FileSystemManager.disconnectFromRemote, FileSystemManager.onRemote,
    RemoteFileSystem.disconnect, RemoteFileSystem.ssh, Session.remoteService.
  method. by rewrite ws_disconnect_state.
Qed.

Lemma remote_connect_state proxy credentials self :
  RemoteFileSystem.connect proxy credentials self
  = (fst (WebSocketSSHService.connect proxy credentials
            (RemoteFileSystem.sshService self)),
     {| RemoteFileSystem.sshService :=
          snd (WebSocketSSHService.connect proxy credentials
                 (RemoteFileSystem.sshService self)) |}).
Proof.
  unfold RemoteFileSystem.connect, RemoteFileSystem.ssh, on_field.
  by destruct (WebSocketSSHService.connect _ _ _).
Qed.

(** ** What a session keeps true of the service *)

Lemma coherent_create : coherent WebSocketSSHService.create.
Proof. by repeat split. Qed.

(** What one action of a session can do to the service: nothing, a change
    of the streaming callback only, a clean-up, a successful connect, a
    change of directory while connected, or one of the three events of the
    socket. *)
Lemma perform_service localeCompare a s :
  Session.remoteService (Session.perform localeCompare a s)
  = Session.remoteService s \/
  (exists callback,
      a = Session.SetStreamingCallback callback /\
      Session.remoteService (Session.perform localeCompare a s)
      = WebSocketSSHService.set_streamingCallback (Some callback)
          (Session.remoteService s)) \/
  Session.remoteService (Session.perform localeCompare a s)
  = cleaned (Session.remoteService s) \/
  (exists credentials,
      Session.remoteService (Session.perform localeCompare a s)
      = established credentials (Session.remoteService s)) \/
  (exists dir,
      WebSocketSSHService.isConnected (Session.remoteService s) = true /\
      Session.remoteService (Session.perform localeCompare a s)
      = WebSocketSSHService.set_connectionInfo
          (match WebSocketSSHService.connectionInfo (Session.remoteService s) with
           | Some info =>
               Some {| rd_host := rd_host info; rd_username := rd_username info;
                       rd_currentPath := dir |}
           | None => None
           end)
          (WebSocketSSHService.set_currentPath dir (Session.remoteService s))) \/
  Session.remoteService (Session.perform localeCompare a s)
  = WebSocketSSHService.on_disconnect (Session.remoteService s) \/
  Session.remoteService (Session.perform localeCompare a s)
  = WebSocketSSHService.on_ssh_disconnected (Session.remoteService s) \/
  Session.remoteService (Session.perform localeCompare a s)
  = WebSocketSSHService.on_connect (Session.remoteService s).
Proof.
  unfold Session.remoteService.
  destruct a as [| |proxy credentials|proxy|fs proxy dir|fs proxy dir
                 |fs proxy filePath|fs proxy filePath content|proxy command
                 |callback|fs proxy target| | |]; simpl.
  - by left.
  - left. unfold FileSystemManager.switchToRemote. method.
    by destruct (negb _).
  - destruct (manager_connect_remoteFS proxy credentials s) as [-> _].
    rewrite remote_connect_state. simpl.
    destruct (ws_connect_state proxy credentials
                (RemoteFileSystem.sshService (FileSystemManager.remoteFS s)))
      as [(_ & _ & ->)|(error & -> & _)]; simpl; eauto 6.
  - rewrite manager_disconnect_state. simpl. by right; right; left.
  - left. by rewrite manager_listDirectory_state.
  - destruct (proj1 (proj2 (manager_calls_remoteFS localeCompare fs proxy s)) dir)
      as [->| ->]; [by left|].
    destruct (remote_changeDirectory_state proxy dir (FileSystemManager.remoteFS s))
      as [->|(Hc & _ & ->)]; [by left|].
    right; right; right; right; left. by exists dir.
  - left. by rewrite (proj1 (proj2 (proj2
              (manager_calls_remoteFS localeCompare fs proxy s)))).
  - left. by rewrite (proj2 (proj2 (proj2
              (manager_calls_remoteFS localeCompare fs proxy s)))).
  - left. by rewrite manager_executeCommand_state.
  - unfold FileSystemManager.setStreamingCallback. method.
    destruct (bool_decide _); simpl; [|by left].
    right; left. by exists callback.
  - left. by rewrite manager_pathExists_state.
  - do 5 right. by left.
  - do 6 right. by left.
  - do 7 right. done.
Qed.

Lemma perform_coherent localeCompare a s :
  coherent (Session.remoteService s) ->
  coherent (Session.remoteService (Session.perform localeCompare a s)).
Proof.
  pose proof (perform_service localeCompare a s) as Hstep.
  revert Hstep.
  generalize (Session.remoteService (Session.perform localeCompare a s)).
  generalize (Session.remoteService s).
  intros [sock conn cwd info callback] [sock' conn' cwd' info' callback'].
  unfold coherent, connection_state, established, cleaned,
    WebSocketSSHService.isConnected,
    WebSocketSSHService.on_disconnect, WebSocketSSHService.on_ssh_disconnected,
    WebSocketSSHService.on_connect, WebSocketSSHService.set_connected,
    WebSocketSSHService.set_socket, WebSocketSSHService.set_connectionInfo,
    WebSocketSSHService.set_currentPath.
  simpl.
  intros [Hsame|[(cb & _ & Hset)|[Hclean|[[credentials Hnew]|[(dir & Hc & Hcd)
          |[Hdrop|[Hclosed|Hback]]]]]]] (Hconn & Hinfo & Hsock);
    unfold WebSocketSSHService.set_streamingCallback in *;
    simplify_eq/=; try done.
  - destruct conn; [|discriminate Hc]. destruct Hconn as [-> Hsome].
    by destruct info.
  - destruct sock; [done|]. by destruct Hsock as (_ & -> & ->).
  - destruct sock; [done|]. by destruct Hsock as (_ & -> & ->).
  - destruct conn.
    + by destruct Hconn as [-> Hsome].
    + destruct sock; [done|]. by destruct Hsock as (_ & -> & ->).
Qed.

Lemma perform_all_coherent localeCompare actions : forall s,
  coherent (Session.remoteService s) ->
  coherent (Session.remoteService
              (Session.perform_all localeCompare actions s)).
Proof.
  induction actions as [|a actions IH]; intros s Hs; [done|].
  unfold Session.perform_all in *. simpl.
  by apply IH, perform_coherent.
Qed.

(** Between the calls of a session that starts with the manager as it is
    created, that is, once each call has returned or thrown and each event
    of the socket has been handled, whatever the calls, their outcomes and
    the events: the two status queries of the remote backend agree
    ([isConnected] is the [connected] of [getConnectionInfo]); the current
    path in the connection details, when there are details, is the current
    path of the backend; and a backend that has no socket is at ["/"] and
    has no details. The statement is about the states a call leaves, not
    about the states inside a call that is still awaiting an answer. *)
Theorem session_status_coherent localeCompare fs actions :
  RemoteFileSystem.isConnected
    (FileSystemManager.remoteFS
       (Session.perform_all localeCompare actions (FileSystemManager.create fs)))
  = ci_connected
      (RemoteFileSystem.getConnectionInfo
         (FileSystemManager.remoteFS
            (Session.perform_all localeCompare actions
               (FileSystemManager.create fs)))) /\
  match ci_details
          (RemoteFileSystem.getConnectionInfo
             (FileSystemManager.remoteFS
                (Session.perform_all localeCompare actions
                   (FileSystemManager.create fs)))) with
  | DetailsRemote (Some info) =>
      rd_currentPath info
      = RemoteFileSystem.getCurrentPath
          (FileSystemManager.remoteFS
             (Session.perform_all localeCompare actions
                (FileSystemManager.create fs)))
  | DetailsRemote None =>
      RemoteFileSystem.isConnected
        (FileSystemManager.remoteFS
           (Session.perform_all localeCompare actions
              (FileSystemManager.create fs))) = false
  | DetailsLocal _ => False
  end /\
  (WebSocketSSHService.socket
     (Session.remoteService
        (Session.perform_all localeCompare actions (FileSystemManager.create fs)))
   = None ->
   RemoteFileSystem.getCurrentPath
     (FileSystemManager.remoteFS
        (Session.perform_all localeCompare actions (FileSystemManager.create fs)))
   = "/").
Proof.
  pose proof (perform_all_coherent localeCompare actions
                (FileSystemManager.create fs) coherent_create) as Hinv.
  unfold Session.remoteService in *.
  destruct (Session.perform_all localeCompare actions
              (FileSystemManager.create fs))
    as [source [localPath] [[sock conn cwd info callback]]].
  unfold coherent in Hinv. simpl in *.
  unfold RemoteFileSystem.isConnected, RemoteFileSystem.getConnectionInfo,
    RemoteFileSystem.getCurrentPath, WebSocketSSHService.isConnected,
    WebSocketSSHService.getConnectionInfo, WebSocketSSHService.getCurrentPath.
  simpl.
  destruct Hinv as (Hconn & Hinfo & Hsock).
  destruct conn, sock as [[[|]]|], info; simpl in *; intuition congruence.
Qed.

(** ** Connecting *)

(** A [connect] that fails tears the service down, whatever state it was
    in, a connected one included: no socket, not connected, the current
    path back at ["/"], no connection details; the streaming callback stays.
    The error names the phase that failed: the socket did not connect in
    time, the socket reported a connection error, the server refused the
    credentials, or the server did not answer them in time. *)
Theorem connect_failure_tears_down proxy credentials self error self' :
  WebSocketSSHService.connect proxy credentials self = (Throw error, self') ->
  self' = cleaned self /\
  WebSocketSSHService.isConnected self' = false /\
  WebSocketSSHService.getCurrentPath self' = "/" /\
  error
  = Error match socket_connect proxy with
          | Success _ =>
              match ssh_connect proxy credentials with
              | Failure reason => "SSH connection failed: " ++ reason
              | _ => "SSH connection timeout"
              end
          | Failure message => "Socket connection failed: " ++ message
          | NoAnswer => "Socket connection timeout"
          end.
Proof.
  intros Hconnect.
  destruct (ws_connect_state proxy credentials self)
    as [(_ & _ & Hok)|(message & Hfail & Hmessage)];
    rewrite Hconnect in *; [discriminate|].
  injection Hfail as -> ->. repeat split.
  destruct (socket_connect proxy); [|by subst..].
  destruct (ssh_connect proxy credentials); [done|by subst..].
Qed.

Lemma connect_failure_tears_down_witness :
  WebSocketSSHService.isConnected connectedService = true /\
  cleaned connectedService = cleaned connectedService /\
  WebSocketSSHService.isConnected (cleaned connectedService) = false /\
  WebSocketSSHService.getCurrentPath (cleaned connectedService) = "/" /\
  Error "SSH connection failed: All configured authentication methods failed"
  = Error "SSH connection failed: All configured authentication methods failed".
Proof.
  split; [reflexivity|].
  exact (connect_failure_tears_down refusingProxy workCredentials
           connectedService
           (Error "SSH connection failed: All configured authentication methods failed")
           (cleaned connectedService) eq_refl).
Defined.

(** A [connect] that returns, returns [true], and only when the socket
    connected and the server accepted the credentials. The service is then
    connected, its current path is the initial path of the credentials or,
    without one, [/home/] followed by the user name, and the connection
    details carry the host, the user name and that path. *)
Theorem connect_success_establishes proxy credentials self result self' :
  WebSocketSSHService.connect proxy credentials self = (Ok result, self') ->
  result = true /\
  socket_connect proxy = Success tt /\
  ssh_connect proxy credentials = Success tt /\
  self' = established credentials self /\
  WebSocketSSHService.isConnected self' = true /\
  WebSocketSSHService.getCurrentPath self'
  = or_else (initialPath credentials) ("/home/" ++ username credentials) /\
  WebSocketSSHService.getConnectionInfo self'
  = {| ci_connected := true;
       ci_source := remote;
       ci_details :=
         DetailsRemote
           (Some {| rd_host := host credentials;
                    rd_username := username credentials;
                    rd_currentPath :=
                      or_else (initialPath credentials)
                              ("/home/" ++ username credentials) |}) |}.
Proof.
  intros Hconnect.
  destruct (ws_connect_state proxy credentials self)
    as [(Hsocket & Hssh & Hok)|(message & Hfail & _)];
    rewrite Hconnect in *; [|discriminate].
  by injection Hok as -> ->.
Qed.

Lemma connect_success_establishes_witness :
  true = true /\
  socket_connect workProxy = Success tt /\
  ssh_connect workProxy bareCredentials = Success tt /\
  established bareCredentials WebSocketSSHService.create
  = established bareCredentials WebSocketSSHService.create /\
  WebSocketSSHService.isConnected
    (established bareCredentials WebSocketSSHService.create) = true /\
  WebSocketSSHService.getCurrentPath
    (established bareCredentials WebSocketSSHService.create) = "/home/u" /\
  WebSocketSSHService.getConnectionInfo
    (established bareCredentials WebSocketSSHService.create)
  = {| ci_connected := true;
       ci_source := remote;
       ci_details :=
         DetailsRemote
           (Some {| rd_host := "h"; rd_username := "u";
                    rd_currentPath := "/home/u" |}) |}.
Proof.
  exact (connect_success_establishes workProxy bareCredentials
           WebSocketSSHService.create true
           (established bareCredentials WebSocketSSHService.create) eq_refl).
Defined.

(** ** The streaming callback *)

Lemma perform_callback localeCompare a s :
  sets_callback a = false ->
  WebSocketSSHService.streamingCallback
    (Session.remoteService (Session.perform localeCompare a s))
  = WebSocketSSHService.streamingCallback (Session.remoteService s).
Proof.
  intros Hnot.
  destruct (perform_service localeCompare a s)
    as [->|[(cb & -> & _)|[->|[[credentials ->]|[(dir & _ & ->)
        |[->|[->| ->]]]]]]]; try done.
Qed.

(** The streaming callback belongs to the service, not to a connection:
    through any actions of a session other than a registration (connects
    that succeed or fail, disconnects, losses of the socket, any call) the
    registered callback stays what it was. *)
Theorem streaming_callback_persists localeCompare actions : forall s,
  Forall (fun a => sets_callback a = false) actions ->
  WebSocketSSHService.streamingCallback
    (Session.remoteService (Session.perform_all localeCompare actions s))
  = WebSocketSSHService.streamingCallback (Session.remoteService s).
Proof.
  induction actions as [|a actions IH]; intros s Hnone; [done|].
  apply Forall_cons in Hnone as [Ha Hnone].
  unfold Session.perform_all in *. simpl.
  rewrite IH by done. by apply perform_callback.
Qed.

Lemma streaming_callback_persists_witness :
  WebSocketSSHService.streamingCallback
    (Session.remoteService
       (Session.perform_all codeUnitCompare
          [Session.SocketDisconnects;
           Session.DisconnectFromRemote workProxy;
           Session.ConnectToRemote refusingProxy workCredentials;
           Session.ConnectToRemote workProxy workCredentials;
           Session.ExecuteCommand workProxy "ls"]
          (snd (FileSystemManager.setStreamingCallback (fun _ _ => tt)
                  connectedManager))))
  = WebSocketSSHService.streamingCallback
      (Session.remoteService
         (snd (FileSystemManager.setStreamingCallback (fun _ _ => tt)
                 connectedManager))).
Proof.
  apply (streaming_callback_persists codeUnitCompare).
  repeat constructor.
Defined.

(** ** Edge cases of the remote backend *)

(** [changeDirectory('')] on a connected remote backend does not validate
    the empty path: the listing it attempts is of the current directory.
    When that listing succeeds the call succeeds and the current path
    becomes the empty string, whatever the server would say about the empty
    path; the next listing without a path asks the server for the empty
    path. *)
Theorem remote_changeDirectory_empty proxy self files :
  RemoteFileSystem.isConnected self = true ->
  ssh_listDir proxy (RemoteFileSystem.getCurrentPath self) = Success files ->
  fst (RemoteFileSystem.changeDirectory proxy "" self) = Ok tt /\
  RemoteFileSystem.getCurrentPath
    (snd (RemoteFileSystem.changeDirectory proxy "" self)) = "" /\
  fst (RemoteFileSystem.listDirectory proxy None
         (snd (RemoteFileSystem.changeDirectory proxy "" self)))
  = match ssh_listDir proxy "" with
    | Success listed => Ok listed
    | _ => Throw (Error "Failed to list remote directory: ")
    end.
Proof.
  destruct self as [[[[[|]]|] [|] cwd info callback]]; intros Hc Hlist;
    try discriminate Hc.
  unfold RemoteFileSystem.getCurrentPath, WebSocketSSHService.getCurrentPath
    in Hlist.
  simpl in Hlist.
  unfold RemoteFileSystem.changeDirectory, RemoteFileSystem.listDirectory,
    RemoteFileSystem.ssh, RemoteFileSystem.isConnected,
    RemoteFileSystem.getCurrentPath, WebSocketSSHService.isConnected,
    WebSocketSSHService.getCurrentPath.
  method. simpl.
  rewrite ws_changeDirectory_eq, ws_listDirectory_eq. simpl.
  rewrite Hlist. simpl.
  repeat split.
  rewrite ws_listDirectory_eq. simpl.
  by destruct (ssh_listDir proxy "").
Qed.

Lemma remote_changeDirectory_empty_witness :
  fst (RemoteFileSystem.changeDirectory workProxy "" connectedRemote) = Ok tt /\
  RemoteFileSystem.getCurrentPath
    (snd (RemoteFileSystem.changeDirectory workProxy "" connectedRemote)) = "" /\
  fst (RemoteFileSystem.listDirectory workProxy None
         (snd (RemoteFileSystem.changeDirectory workProxy "" connectedRemote)))
  = Throw (Error "Failed to list remote directory: ").
Proof.
  exact (remote_changeDirectory_empty workProxy connectedRemote
           [notesFile; srcFolder] eq_refl eq_refl).
Defined.

(** ** The manager on a remote backend that is gone *)

(** The manager does not fall back to the local backend when the remote
    session is lost. After either of the two losses, the socket's
    ['disconnect'] and the server's ['ssh:disconnected'], the remote backend
    reports not connected, and the handler has touched nothing else: the
    selector, the local backend, the current path, the connection details
    and the streaming callback of the remote backend are what they were, so
    the manager still reports the path and the details it reported. If the
    selector is [remote], the manager reports not connected and its
    listings fail with "Not connected to remote server". A later
    reconnection of the socket alone does not bring the session back. *)
Theorem channel_loss_observed localeCompare fs proxy s loss :
  loss = Session.SocketDisconnects \/ loss = Session.SshDisconnected ->
  RemoteFileSystem.isConnected
    (FileSystemManager.remoteFS (Session.perform localeCompare loss s))
  = false /\
  RemoteFileSystem.isConnected
    (FileSystemManager.remoteFS
       (Session.perform_all localeCompare [loss; Session.SocketConnects] s))
  = false /\
  (FileSystemManager.currentFileSystem (Session.perform localeCompare loss s)
   = FileSystemManager.currentFileSystem s /\
   FileSystemManager.localFS (Session.perform localeCompare loss s)
   = FileSystemManager.localFS s /\
   RemoteFileSystem.getCurrentPath
     (FileSystemManager.remoteFS (Session.perform localeCompare loss s))
   = RemoteFileSystem.getCurrentPath (FileSystemManager.remoteFS s) /\
   ci_details
     (RemoteFileSystem.getConnectionInfo
        (FileSystemManager.remoteFS (Session.perform localeCompare loss s)))
   = ci_details (RemoteFileSystem.getConnectionInfo
                   (FileSystemManager.remoteFS s)) /\
   WebSocketSSHService.streamingCallback
     (Session.remoteService (Session.perform localeCompare loss s))
   = WebSocketSSHService.streamingCallback (Session.remoteService s)) /\
  (FileSystemManager.getCurrentPath localeCompare fs proxy
     (Session.perform localeCompare loss s)
   = FileSystemManager.getCurrentPath localeCompare fs proxy s /\
   ci_details (FileSystemManager.getConnectionInfo localeCompare fs proxy
                 (Session.perform localeCompare loss s))
   = ci_details (FileSystemManager.getConnectionInfo localeCompare fs proxy s)) /\
  (FileSystemManager.currentFileSystem s = remote ->
   FileSystemManager.isConnected localeCompare fs proxy
     (Session.perform localeCompare loss s) = false /\
   ci_connected
     (FileSystemManager.getConnectionInfo localeCompare fs proxy
        (Session.perform localeCompare loss s)) = false /\
   forall dir,
     FileSystemManager.listDirectory localeCompare fs proxy dir
       (Session.perform localeCompare loss s)
     = (Throw (Error "Not connected to remote server"),
        Session.perform localeCompare loss s)).
Proof.
  destruct s as [source [localPath] [[sock conn cwd info callback]]].
  intros [-> | ->];
    unfold Session.perform_all, Session.perform, Session.on_socket,
      Session.remoteService,
      WebSocketSSHService.on_disconnect,
      WebSocketSSHService.on_ssh_disconnected, WebSocketSSHService.on_connect;
    simpl.
  all: split; [by destruct sock, conn|].
  all: split; [by destruct sock, conn|].
  all: split; [done|].
  all: split;
    [unfold FileSystemManager.getCurrentPath,
       FileSystemManager.getConnectionInfo, FileSystemManager.getCurrentFS;
     simpl; by destruct (decide (source = local))|].
  all: intros ->.
  all: unfold FileSystemManager.isConnected,
         FileSystemManager.getConnectionInfo,
         FileSystemManager.listDirectory, FileSystemManager.getCurrentFS.
  all: method; simpl.
  all: split; [by destruct sock|]; split; [done|].
  all: intros dir; unfold FileSystemManager.onRemote, on_field.
  all: rewrite remote_listDirectory_eq; simpl; by destruct sock.
Qed.

Lemma channel_loss_observed_witness :
  FileSystemManager.isConnected codeUnitCompare sampleStorage workProxy
    (Session.perform codeUnitCompare Session.SshDisconnected connectedManager)
  = false /\
  ci_connected
    (FileSystemManager.getConnectionInfo codeUnitCompare sampleStorage workProxy
       (Session.perform codeUnitCompare Session.SshDisconnected
          connectedManager)) = false /\
  forall dir,
    FileSystemManager.listDirectory codeUnitCompare sampleStorage workProxy dir
      (Session.perform codeUnitCompare Session.SshDisconnected connectedManager)
    = (Throw (Error "Not connected to remote server"),
       Session.perform codeUnitCompare Session.SshDisconnected connectedManager).
Proof.
  exact (proj2 (proj2 (proj2 (proj2
           (channel_loss_observed codeUnitCompare sampleStorage workProxy
              connectedManager Session.SshDisconnected
              (or_intror eq_refl)))))
         eq_refl).
Defined.

(** A [connectToRemote] that fails while the remote backend is selected
    ends the session that was there: the selector stays [remote], the remote
    backend is torn down, so the manager reports not connected, its current
    path is ["/"], and its listings fail with "Not connected to remote
    server" until a connect succeeds or the local backend is selected. *)
Theorem failed_reconnect_strands_manager
    localeCompare fs proxy credentials error s s' :
  FileSystemManager.currentFileSystem s = remote ->
  FileSystemManager.connectToRemote proxy credentials s = (Throw error, s') ->
  FileSystemManager.currentFileSystem s' = remote /\
  FileSystemManager.localFS s' = FileSystemManager.localFS s /\
  (forall proxy',
      FileSystemManager.isConnected localeCompare fs proxy' s' = false /\
      FileSystemManager.getCurrentPath localeCompare fs proxy' s' = "/" /\
      forall dir,
        FileSystemManager.listDirectory localeCompare fs proxy' dir s'
        = (Throw (Error "Not connected to remote server"), s')).
Proof.
  intros Hremote Hconnect.
  destruct (manager_connect_remoteFS proxy credentials s) as [Hstate Hresult].
  rewrite Hconnect in Hstate, Hresult. simpl in *.
  rewrite remote_connect_state in Hstate, Hresult. simpl in *.
  destruct (ws_connect_state proxy credentials
              (RemoteFileSystem.sshService (FileSystemManager.remoteFS s)))
    as [(_ & _ & Hok)|(message & Hfail & _)];
    [rewrite Hok in Hresult; discriminate|].
  rewrite Hfail in Hstate. simpl in Hstate.
  assert (Hfields : FileSystemManager.currentFileSystem s' = remote /\
                    FileSystemManager.localFS s' = FileSystemManager.localFS s).
  { revert Hconnect.
    unfold FileSystemManager.connectToRemote, FileSystemManager.onRemote. method.
    destruct (RemoteFileSystem.connect proxy credentials
                (FileSystemManager.remoteFS s)) as [[[|]|e] remote'];
      simpl; intros Heq; inversion Heq; by subst. }
  destruct Hfields as [Hsource Hlocal].
  split; [done|]. split; [done|].
  intros proxy'.
  unfold FileSystemManager.isConnected, FileSystemManager.getCurrentPath,
    FileSystemManager.listDirectory, FileSystemManager.getCurrentFS.
  method. rewrite Hsource. simpl. rewrite Hstate. repeat split.
  intros dir. unfold FileSystemManager.onRemote, on_field.
  rewrite Hstate, remote_listDirectory_eq. simpl.
  rewrite <- Hstate. by rewrite set_remoteFS_same.
Qed.

Lemma failed_reconnect_strands_manager_witness :
  FileSystemManager.currentFileSystem
    (snd (FileSystemManager.connectToRemote refusingProxy workCredentials
            connectedManager)) = remote /\
  FileSystemManager.localFS
    (snd (FileSystemManager.connectToRemote refusingProxy workCredentials
            connectedManager))
  = FileSystemManager.localFS connectedManager /\
  (forall proxy',
      FileSystemManager.isConnected codeUnitCompare sampleStorage proxy'
        (snd (FileSystemManager.connectToRemote refusingProxy workCredentials
                connectedManager)) = false /\
      FileSystemManager.getCurrentPath codeUnitCompare sampleStorage proxy'
        (snd (FileSystemManager.connectToRemote refusingProxy workCredentials
                connectedManager)) = "/" /\
      forall dir,
        FileSystemManager.listDirectory codeUnitCompare sampleStorage proxy' dir
          (snd (FileSystemManager.connectToRemote refusingProxy workCredentials
                  connectedManager))
        = (Throw (Error "Not connected to remote server"),
           snd (FileSystemManager.connectToRemote refusingProxy workCredentials
                  connectedManager))).
Proof.
  exact (failed_reconnect_strands_manager codeUnitCompare sampleStorage
           refusingProxy workCredentials
           (Error "SSH connection failed: All configured authentication methods failed")
           connectedManager
           (snd (FileSystemManager.connectToRemote refusingProxy workCredentials
                   connectedManager))
           eq_refl eq_refl).
Defined.

(** ** The manager and the backend that is not selected *)

(** The manager's contract calls reach only the selected backend. While
    the selector is [local], each of listing, changing directory, reading
    and writing gives the same result whatever the proxy server would
    answer and leaves the remote backend as it is. While the selector is
    [remote], each of them gives the same result whatever the device
    storage holds and whatever the collation is, and leaves the local
    backend as it is. *)
Theorem manager_reaches_selected_backend_only localeCompare fs proxy s :
  (FileSystemManager.currentFileSystem s = local ->
   forall proxy',
     (forall dir,
         FileSystemManager.listDirectory localeCompare fs proxy dir s
         = FileSystemManager.listDirectory localeCompare fs proxy' dir s /\
         FileSystemManager.remoteFS
           (snd (FileSystemManager.listDirectory localeCompare fs proxy dir s))
         = FileSystemManager.remoteFS s) /\
     (forall dir,
         FileSystemManager.changeDirectory localeCompare fs proxy dir s
         = FileSystemManager.changeDirectory localeCompare fs proxy' dir s /\
         FileSystemManager.remoteFS
           (snd (FileSystemManager.changeDirectory localeCompare fs proxy dir s))
         = FileSystemManager.remoteFS s) /\
     (forall filePath,
         FileSystemManager.readFile localeCompare fs proxy filePath s
         = FileSystemManager.readFile localeCompare fs proxy' filePath s /\
         FileSystemManager.remoteFS
           (snd (FileSystemManager.readFile localeCompare fs proxy filePath s))
         = FileSystemManager.remoteFS s) /\
     (forall filePath content,
         FileSystemManager.writeFile localeCompare fs proxy filePath content s
         = FileSystemManager.writeFile localeCompare fs proxy' filePath content s
         /\
         FileSystemManager.remoteFS
           (snd (FileSystemManager.writeFile localeCompare fs proxy filePath
                   content s))
         = FileSystemManager.remoteFS s)) /\
  (FileSystemManager.currentFileSystem s = remote ->
   forall localeCompare' fs',
     (forall dir,
         FileSystemManager.listDirectory localeCompare fs proxy dir s
         = FileSystemManager.listDirectory localeCompare' fs' proxy dir s /\
         FileSystemManager.localFS
           (snd (FileSystemManager.listDirectory localeCompare fs proxy dir s))
         = FileSystemManager.localFS s) /\
     (forall dir,
         FileSystemManager.changeDirectory localeCompare fs proxy dir s
         = FileSystemManager.changeDirectory localeCompare' fs' proxy dir s /\
         FileSystemManager.localFS
           (snd (FileSystemManager.changeDirectory localeCompare fs proxy dir s))
         = FileSystemManager.localFS s) /\
     (forall filePath,
         FileSystemManager.readFile localeCompare fs proxy filePath s
         = FileSystemManager.readFile localeCompare' fs' proxy filePath s /\
         FileSystemManager.localFS
           (snd (FileSystemManager.readFile localeCompare fs proxy filePath s))
         = FileSystemManager.localFS s) /\
     (forall filePath content,
         FileSystemManager.writeFile localeCompare fs proxy filePath content s
         = FileSystemManager.writeFile localeCompare' fs' proxy filePath content s
         /\
         FileSystemManager.localFS
           (snd (FileSystemManager.writeFile localeCompare fs proxy filePath
                   content s))
         = FileSystemManager.localFS s)).
Proof.
  split.
  - intros Hlocal proxy'.
    destruct (manager_dispatch localeCompare fs proxy s) as (Hcd & Hread & Hwrite).
    destruct (manager_dispatch localeCompare fs proxy' s)
      as (Hcd' & Hread' & Hwrite').
    repeat split; intros;
      rewrite ?manager_listDirectory_eq, ?Hcd, ?Hcd', ?Hread, ?Hread',
        ?Hwrite, ?Hwrite';
      destruct (decide _); try done; try congruence;
      apply onLocal_fields.
  - intros Hremote localeCompare' fs'.
    destruct (manager_dispatch localeCompare fs proxy s) as (Hcd & Hread & Hwrite).
    destruct (manager_dispatch localeCompare' fs' proxy s)
      as (Hcd' & Hread' & Hwrite').
    repeat split; intros;
      rewrite ?manager_listDirectory_eq, ?Hcd, ?Hcd', ?Hread, ?Hread',
        ?Hwrite, ?Hwrite';
      destruct (decide _); try done; try congruence;
      apply onRemote_fields.
Qed.

Lemma manager_reaches_selected_backend_only_witness :
  (forall dir,
      FileSystemManager.listDirectory codeUnitCompare sampleStorage workProxy dir
        (FileSystemManager.create sampleStorage)
      = FileSystemManager.listDirectory codeUnitCompare sampleStorage silentProxy
          dir (FileSystemManager.create sampleStorage)) /\
  (forall filePath,
      FileSystemManager.readFile codeUnitCompare sampleStorage workProxy filePath
        connectedManager
      = FileSystemManager.readFile (fun _ _ => 0) sampleStorage workProxy filePath
          connectedManager /\
      FileSystemManager.localFS
        (snd (FileSystemManager.readFile codeUnitCompare sampleStorage workProxy
                filePath connectedManager))
      = FileSystemManager.localFS connectedManager).
Proof.
  destruct (manager_reaches_selected_backend_only codeUnitCompare sampleStorage
              workProxy (FileSystemManager.create sampleStorage))
    as [Hlocal _].
  destruct (manager_reaches_selected_backend_only codeUnitCompare sampleStorage
              workProxy connectedManager)
    as [_ Hremote].
  split.
  - intros dir. exact (proj1 (proj1 (Hlocal eq_refl silentProxy) dir)).
  - exact (proj1 (proj2 (proj2 (Hremote eq_refl (fun _ _ => 0) sampleStorage)))).
Defined.

(** ** Strings *)

Lemma append_cons x (a b : string) : String x a ++ b = String x (a ++ b).
Proof. reflexivity. Qed.

Lemma append_nil (b : string) : "" ++ b = b.
Proof. reflexivity. Qed.

Lemma append_assoc (a b c : string) : (a ++ b) ++ c = a ++ b ++ c.
Proof.
  induction a as [|x a IH]; [done|].
  by rewrite !append_cons, IH.
Qed.

Lemma append_length (a b : string) :
  String.length (a ++ b) = (String.length a + String.length b)%nat.
Proof.
  induction a as [|x a IH]; [done|].
  rewrite append_cons. simpl. by rewrite IH.
Qed.

Lemma list_ascii_of_append (a b : string) :
  list_ascii_of_string (a ++ b)
  = (list_ascii_of_string a ++ list_ascii_of_string b)%list.
Proof.
  induction a as [|x a IH]; [done|].
  rewrite append_cons. simpl. by rewrite IH.
Qed.

Lemma endsWith_chars_app (a b : list ascii) :
  endsWith_chars (a ++ b) b = true.
Proof.
  induction a as [|x a IH]; simpl.
  - destruct b as [|y b]; simpl; [done|].
    by destruct (decide (y :: b = y :: b)).
  - by destruct (decide (x :: a ++ b = b)).
Qed.

(** [s.endsWith(suffix)] holds of every string that ends with [suffix]. *)
Lemma endsWith_append (a b : string) : endsWith (a ++ b) b = true.
Proof.
  unfold endsWith. rewrite list_ascii_of_append. apply endsWith_chars_app.
Qed.

(** ** The items of a local listing *)

Lemma itemFor_well_formed fs targetPath fileName :
  isFile (LocalFileSystem.itemFor fs targetPath fileName)
  = negb (isDirectory (LocalFileSystem.itemFor fs targetPath fileName)) /\
  FileSystemInterface.path (LocalFileSystem.itemFor fs targetPath fileName)
  = LocalFileSystem.fullPath targetPath fileName.
Proof.
  unfold LocalFileSystem.itemFor.
  destruct (getInfoAsync fs _) as [info|]; simpl; [|done].
  by rewrite orb_false_r.
Qed.

(** Every entry of a listing of the local backend is a file or a
    directory and not both, is named by one of the names the storage
    listed, and has as its path the listed directory joined with its name:
    the path ends with the name, and a slash is put between the two exactly
    when the directory does not end with one. *)
Theorem local_items_well_formed localeCompare fs dir self items self' :
  LocalFileSystem.listDirectory localeCompare fs dir self = (Ok items, self') ->
  exists files,
    readDirectoryAsync fs (or_else dir (LocalFileSystem.currentPath self))
    = Ok files /\
    Forall
      (fun item =>
         isFile item = negb (isDirectory item) /\
         name item ∈ files /\
         FileSystemInterface.path item
         = or_else dir (LocalFileSystem.currentPath self)
           ++ (if endsWith (or_else dir (LocalFileSystem.currentPath self)) "/"
               then "" else "/")
           ++ name item /\
         endsWith (FileSystemInterface.path item) (name item) = true)
      items.
Proof.
  intros (files & Hls & -> & _)%local_listDirectory_inv.
  exists files. split; [done|].
  rewrite (sort_Permutation (LocalFileSystem.compareItems localeCompare)).
  apply Forall_forall. intros item Hin.
  apply list_elem_of_In, in_map_iff in Hin as (fileName & <- & Hin).
  destruct (itemFor_well_formed fs
              (or_else dir (LocalFileSystem.currentPath self)) fileName)
    as [Hkind Hpath].
  rewrite itemFor_name, Hpath. unfold LocalFileSystem.fullPath.
  repeat split; try done.
  - by apply list_elem_of_In.
  - rewrite <- append_assoc. apply endsWith_append.
Qed.

Lemma local_items_well_formed_witness :
  exists files,
    readDirectoryAsync sampleStorage
      (or_else None
         (LocalFileSystem.currentPath (LocalFileSystem.create sampleStorage)))
    = Ok files /\
    Forall
      (fun item =>
         isFile item = negb (isDirectory item) /\
         name item ∈ files /\
         FileSystemInterface.path item
         = or_else None
             (LocalFileSystem.currentPath (LocalFileSystem.create sampleStorage))
           ++ (if endsWith
                    (or_else None
                       (LocalFileSystem.currentPath
                          (LocalFileSystem.create sampleStorage))) "/"
               then "" else "/")
           ++ name item /\
         endsWith (FileSystemInterface.path item) (name item) = true)
      sampleListing.
Proof.
  exact (local_items_well_formed codeUnitCompare sampleStorage None
           (LocalFileSystem.create sampleStorage) sampleListing
           (LocalFileSystem.create sampleStorage) eq_refl).
Defined.

(** The items built for a directory do not depend on whether the directory
    is named with a slash at its end: for a path that does not end with a
    slash, the path with a slash appended gives the same full paths, so the
    same items and no doubled slash. *)
Theorem trailing_slash_is_immaterial fs targetPath files :
  endsWith targetPath "/" = false ->
  (forall fileName,
      LocalFileSystem.fullPath (targetPath ++ "/") fileName
      = LocalFileSystem.fullPath targetPath fileName /\
      LocalFileSystem.fullPath targetPath fileName
      = targetPath ++ "/" ++ fileName) /\
  LocalFileSystem.collectItems fs (targetPath ++ "/") files
  = LocalFileSystem.collectItems fs targetPath files.
Proof.
  intros Hend.
  assert (Hfull : forall fileName,
             LocalFileSystem.fullPath (targetPath ++ "/") fileName
             = LocalFileSystem.fullPath targetPath fileName /\
             LocalFileSystem.fullPath targetPath fileName
             = targetPath ++ "/" ++ fileName).
  { intros fileName. unfold LocalFileSystem.fullPath.
    rewrite Hend, endsWith_append. by rewrite append_nil, append_assoc. }
  split; [done|].
  rewrite !collectItems_map. apply map_ext. intros fileName.
  unfold LocalFileSystem.itemFor.
  by rewrite (proj1 (Hfull fileName)).
Qed.

Lemma trailing_slash_is_immaterial_witness :
  (forall fileName,
      LocalFileSystem.fullPath ("/docs" ++ "/") fileName
      = LocalFileSystem.fullPath "/docs" fileName /\
      LocalFileSystem.fullPath "/docs" fileName = "/docs" ++ "/" ++ fileName) /\
  LocalFileSystem.collectItems sampleStorage ("/docs" ++ "/") ["a.txt"; "src"]
  = LocalFileSystem.collectItems sampleStorage "/docs" ["a.txt"; "src"].
Proof.
  exact (trailing_slash_is_immaterial sampleStorage "/docs" ["a.txt"; "src"]
           eq_refl).
Defined.

(** ** Where pathExists looks *)

Lemma existsb_Permutation {A} (f : A -> bool) (l l' : list A) :
  l ≡ₚ l' -> existsb f l = existsb f l'.
Proof.
  induction 1 as [|x l l' _ IH|x y l|l l' l'' _ IH _ IH']; simpl.
  - done.
  - by rewrite IH.
  - by rewrite !orb_assoc, (orb_comm (f y)).
  - by rewrite IH.
Qed.

(** With the local backend selected, [pathExists] looks in the current
    directory only, whatever directory the path names: when the storage
    lists the current directory, the answer is whether the path is the
    current directory joined with one of the listed names. *)
Theorem pathExists_local localeCompare fs proxy target s files :
  FileSystemManager.currentFileSystem s = local ->
  readDirectoryAsync fs
    (LocalFileSystem.currentPath (FileSystemManager.localFS s)) = Ok files ->
  fst (FileSystemManager.pathExists localeCompare fs proxy target s)
  = Ok (existsb
          (fun fileName =>
             String.eqb
               (LocalFileSystem.fullPath
                  (LocalFileSystem.currentPath (FileSystemManager.localFS s))
                  fileName)
               target)
          files).
Proof.
  intros Hlocal Hls.
  unfold FileSystemManager.pathExists. method.
  rewrite bool_decide_eq_true_2 by done.
  rewrite manager_listDirectory_eq. rewrite decide_True by done.
  unfold FileSystemManager.onLocal, on_field.
  rewrite (local_listDirectory_ok localeCompare fs None
             (FileSystemManager.localFS s) files) by done.
  simpl. f_equal. unfold some.
  rewrite (existsb_Permutation _ _ _ (sort_Permutation _ _)).
  clear Hls. induction files as [|fileName files IH]; simpl; [done|].
  rewrite IH.
  by rewrite (proj2 (itemFor_well_formed fs _ fileName)).
Qed.

Lemma pathExists_local_witness :
  fst (FileSystemManager.pathExists codeUnitCompare sampleStorage workProxy
         "/docs/src/main.ts" (FileSystemManager.create sampleStorage))
  = Ok (existsb
          (fun fileName =>
             String.eqb (LocalFileSystem.fullPath "/docs/" fileName)
                        "/docs/src/main.ts")
          ["b.txt"; "src"; "a.txt"]).
Proof.
  exact (pathExists_local codeUnitCompare sampleStorage workProxy
           "/docs/src/main.ts" (FileSystemManager.create sampleStorage)
           ["b.txt"; "src"; "a.txt"] eq_refl eq_refl).
Defined.

(** *** Splitting a path at its last slash *)

Lemma lastIndexOf_from_append i found (a b : string) c :
  lastIndexOf_from i found (a ++ b) c
  = lastIndexOf_from (i + Z.of_nat (String.length a))
      (lastIndexOf_from i found a c) b c.
Proof.
  revert i found. induction a as [|x a IH]; intros i found.
  - rewrite append_nil. simpl. by rewrite Z.add_0_r.
  - rewrite append_cons. cbn [lastIndexOf_from String.length].
    rewrite IH. f_equal. lia.
Qed.

Lemma lastIndexOf_from_absent i found (b : string) c :
  c ∉ list_ascii_of_string b -> lastIndexOf_from i found b c = found.
Proof.
  revert i found. induction b as [|x b IH]; intros i found Hne; [done|].
  simpl in *. apply not_elem_of_cons in Hne as [Hx Hb].
  rewrite IH by done.
  destruct (Ascii.eqb_spec x c); [congruence|done].
Qed.

Lemma substring_prefix (a b : string) :
  String.substring 0 (String.length a) (a ++ b) = a.
Proof.
  induction a as [|x a IH].
  - rewrite append_nil. by destruct b.
  - rewrite append_cons. simpl. by rewrite IH.
Qed.

Lemma substring_whole (b : string) :
  String.substring 0 (String.length b) b = b.
Proof. induction b as [|x b IH]; simpl; [done|]. by rewrite IH. Qed.

Lemma substring_skip (a b : string) n :
  String.substring (String.length a) n (a ++ b) = String.substring 0 n b.
Proof.
  induction a as [|x a IH]; [done|].
  rewrite append_cons. simpl. apply IH.
Qed.

(** The two strings [pathExists] computes for a path of the form
    [dir/base] whose [base] has no slash: [dir], or ["/"] when [dir] is
    empty, and [base]. *)
Lemma split_at_last_slash (dir base : string) :
  "/"%char ∉ list_ascii_of_string base ->
  or_else (Some (substring (dir ++ "/" ++ base) 0
                   (lastIndexOf (dir ++ "/" ++ base) "/"))) "/"
  = or_else (Some dir) "/" /\
  substring_from (dir ++ "/" ++ base)
    (lastIndexOf (dir ++ "/" ++ base) "/" + 1)
  = base.
Proof.
  intros Hbase.
  assert (Hlast : lastIndexOf (dir ++ "/" ++ base) "/"
                  = Z.of_nat (String.length dir)).
  { unfold lastIndexOf. rewrite lastIndexOf_from_append.
    change ("/" ++ base) with (String "/" base).
    cbn [lastIndexOf_from]. rewrite Ascii.eqb_refl.
    by rewrite lastIndexOf_from_absent. }
  rewrite Hlast. unfold substring_from, substring, clamp.
  rewrite !append_length. cbn [String.length].
  rewrite !Nat2Z.id. split.
  - f_equal. f_equal.
    match goal with
    | |- String.substring ?start ?len _ = _ =>
        replace len with (String.length dir) by lia;
        replace start with 0%nat by lia
    end.
    apply substring_prefix.
  - match goal with
    | |- String.substring ?start ?len _ = _ =>
        replace len with (String.length base) by lia;
        replace start with (String.length (dir ++ "/"))
          by (rewrite append_length; simpl; lia)
    end.
    rewrite <- (append_assoc dir "/" base).
    rewrite substring_skip. apply substring_whole.
Qed.

Lemma split_without_slash (target : string) :
  "/"%char ∉ list_ascii_of_string target ->
  or_else (Some (substring target 0 (lastIndexOf target "/"))) "/" = "/" /\
  substring_from target (lastIndexOf target "/" + 1) = target.
Proof.
  intros Hnone. unfold lastIndexOf.
  rewrite lastIndexOf_from_absent by done.
  unfold substring_from, substring, clamp.
  rewrite Nat2Z.id. split.
  - replace (String.substring _ _ target) with "" ; [done|].
    change (Z.to_nat (-1)) with 0%nat. change (Z.to_nat 0) with 0%nat.
    simpl. by destruct target.
  - match goal with
    | |- String.substring ?start ?len _ = _ =>
        replace len with (String.length target) by lia;
        replace start with 0%nat by lia
    end.
    apply substring_whole.
Qed.

(** With the remote backend selected and connected, [pathExists] splits
    the path at its last slash and asks the server for a listing of the
    part before it, or of ["/"] when that part is empty; the answer is
    whether an entry of that listing has the part after the slash as its
    name, and [false] when the listing fails. A path without any slash is
    looked up, under its whole name, in ["/"] and not in the current
    directory. *)
Theorem pathExists_remote localeCompare fs proxy s :
  FileSystemManager.currentFileSystem s = remote ->
  RemoteFileSystem.isConnected (FileSystemManager.remoteFS s) = true ->
  (forall dir base,
      "/"%char ∉ list_ascii_of_string base ->
      fst (FileSystemManager.pathExists localeCompare fs proxy
             (dir ++ "/" ++ base) s)
      = match ssh_listDir proxy (or_else (Some dir) "/") with
        | Success items =>
            Ok (existsb (fun item => String.eqb (name item) base) items)
        | _ => Ok false
        end) /\
  (forall target,
      "/"%char ∉ list_ascii_of_string target ->
      fst (FileSystemManager.pathExists localeCompare fs proxy target s)
      = match ssh_listDir proxy "/" with
        | Success items =>
            Ok (existsb (fun item => String.eqb (name item) target) items)
        | _ => Ok false
        end).
Proof.
  intros Hremote Hc.
  assert (Hlook : forall target parent base,
             or_else (Some (substring target 0 (lastIndexOf target "/"))) "/"
             = parent ->
             parent <> "" ->
             substring_from target (lastIndexOf target "/" + 1) = base ->
             fst (FileSystemManager.pathExists localeCompare fs proxy target s)
             = match ssh_listDir proxy parent with
               | Success items =>
                   Ok (existsb (fun item => String.eqb (name item) base) items)
               | _ => Ok false
               end).
  { intros target parent base Hparent Hnonempty Hbase.
    unfold FileSystemManager.pathExists. method.
    rewrite bool_decide_eq_false_2 by congruence.
    rewrite Hparent, Hbase.
    rewrite manager_listDirectory_eq.
    rewrite decide_False by congruence.
    unfold FileSystemManager.onRemote, on_field.
    rewrite remote_listDirectory_eq, Hc.
    assert (or_else (Some parent)
              (RemoteFileSystem.getCurrentPath (FileSystemManager.remoteFS s))
            = parent) as ->.
    { simpl. by destruct (String.eqb_spec parent ""). }
    by destruct (ssh_listDir proxy parent). }
  split.
  - intros dir base Hbase.
    destruct (split_at_last_slash dir base Hbase) as [Hparent Hname].
    apply Hlook; [done| |done].
    simpl. by destruct (String.eqb_spec dir "").
  - intros target Hnone.
    destruct (split_without_slash target Hnone) as [Hparent Hname].
    by apply Hlook.
Qed.

Lemma pathExists_remote_witness :
  fst (FileSystemManager.pathExists codeUnitCompare sampleStorage workProxy
         ("/work" ++ "/" ++ "notes.txt") connectedManager)
  = Ok true /\
  fst (FileSystemManager.pathExists codeUnitCompare sampleStorage workProxy
         "notes.txt" connectedManager)
  = Ok false.
Proof.
  destruct (pathExists_remote codeUnitCompare sampleStorage workProxy
              connectedManager eq_refl eq_refl) as [Hsplit Hbare].
  split.
  - rewrite (Hsplit "/work" "notes.txt"); [reflexivity|].
    rewrite list_elem_of_In. simpl. intuition discriminate.
  - rewrite (Hbare "notes.txt"); [reflexivity|].
    rewrite list_elem_of_In. simpl. intuition discriminate.
Defined.

(** ** Changing directory, then listing *)

(** A [changeDirectory] to a non-empty path that succeeds on the remote
    backend leaves the backend in that directory: the server has just
    answered a listing of the path, [getCurrentPath] is the path, the
    backend is still connected, the connection details (when there are any)
    carry the path, and a listing without a path asks the server for that
    path, so that with the same answer it returns the listing that
    validated the change. *)
Theorem remote_changeDirectory_then_list proxy dir self self' :
  dir <> "" ->
  RemoteFileSystem.changeDirectory proxy dir self = (Ok tt, self') ->
  RemoteFileSystem.getCurrentPath self' = dir /\
  RemoteFileSystem.isConnected self' = true /\
  (forall info,
      ci_details (RemoteFileSystem.getConnectionInfo self')
      = DetailsRemote (Some info) ->
      rd_currentPath info = dir) /\
  exists files,
    ssh_listDir proxy dir = Success files /\
    RemoteFileSystem.listDirectory proxy None self' = (Ok files, self').
Proof.
  intros Hdir.
  assert (Hpath : forall cwd, or_else (Some dir) cwd = dir).
  { intros cwd. simpl. by destruct (String.eqb_spec dir ""). }
  destruct self as [[[[[|]]|] [|] cwd info callback]];
    unfold RemoteFileSystem.changeDirectory, RemoteFileSystem.listDirectory,
      RemoteFileSystem.ssh, RemoteFileSystem.isConnected,
      RemoteFileSystem.getCurrentPath, RemoteFileSystem.getConnectionInfo,
      WebSocketSSHService.isConnected, WebSocketSSHService.getCurrentPath,
      WebSocketSSHService.getConnectionInfo;
    method; simpl; try discriminate.
  rewrite ws_changeDirectory_eq, ws_listDirectory_eq.
  cbn [WebSocketSSHService.not_connected WebSocketSSHService.socket
       WebSocketSSHService.connected WebSocketSSHService.currentPath
       WebSocketSSHService.socket_connected negb orb andb fst snd].
  rewrite Hpath.
  destruct (ssh_listDir proxy dir) as [files| |] eqn:Hlist; simpl;
    try discriminate.
  intros [= <-]. simpl.
  split; [done|]. split; [done|]. split.
  - destruct info; simpl; intros ? [= <-]; done.
  - exists files. split; [done|].
    rewrite ws_listDirectory_eq. simpl. by rewrite Hlist.
Qed.

Lemma remote_changeDirectory_then_list_witness :
  RemoteFileSystem.getCurrentPath
    (snd (RemoteFileSystem.changeDirectory workProxy "/work" connectedRemote))
  = "/work".
Proof.
  exact (proj1 (remote_changeDirectory_then_list workProxy "/work"
                  connectedRemote _ ltac:(discriminate) eq_refl)).
Defined.

(** ** The socket: replies carry no request identity *)

(** A reply is matched to calls by the name of its event alone. When two
    requests of one operation are pending, whatever their arguments, the
    first reply to that operation settles both calls with the same
    outcome: two listings of different directories resolve with one list,
    two reads of different files with one content (the [filePath] of the
    reply is not looked at). *)
Theorem replies_are_not_correlated before q1 mid q2 quiet r later :
  Transport.request_op q1 = Transport.reply_op r ->
  Transport.request_op q2 = Transport.reply_op r ->
  Forall (Transport.quiet_for (Transport.reply_op r)) mid ->
  Forall (Transport.quiet_for (Transport.reply_op r)) quiet ->
  Transport.elapsed mid + Transport.elapsed quiet
  < Transport.timeoutMs (Transport.reply_op r) ->
  let first := Transport.request q1 (Transport.run before Transport.fresh) in
  let second := Transport.request q2 (Transport.run mid (snd first)) in
  let final :=
    Transport.run (quiet ++ Transport.Arrives r :: later) (snd second) in
  fst first <> fst second /\
  Transport.promises final !! fst first = Some (Transport.settlement r) /\
  Transport.promises final !! fst second = Some (Transport.settlement r).
Proof.
  intros Hq1 Hq2 Hmid Hquiet Helapsed first second final.
  set (s := Transport.run before Transport.fresh).
  pose proof (issued_run before _ issued_fresh) as Hissued. fold s in Hissued.
  pose proof (request_unanswered q1 s Hissued) as Hfirst.
  rewrite Hq1 in Hfirst. fold first in Hfirst.
  pose proof (run_unanswered _ _ _ mid _ Hfirst Hmid) as Hfirst_mid.
  assert (Hissued_mid : Transport.issued (Transport.run mid (snd first))).
  { apply issued_run. apply (issued_step s (Transport.Issues q1) Hissued). }
  pose proof (request_unanswered q2 _ Hissued_mid) as Hsecond.
  rewrite Hq2 in Hsecond. fold second in Hsecond.
  pose proof (step_unanswered _ _ _ _ (Transport.Issues q2) Hfirst_mid I)
    as Hfirst_second.
  change (Transport.step _ _) with (snd second) in Hfirst_second.
  pose proof (run_unanswered _ _ _ quiet _ Hfirst_second Hquiet) as Hfirst_quiet.
  pose proof (run_unanswered _ _ _ quiet _ Hsecond Hquiet) as Hsecond_quiet.
  assert (Hmid_time : 0 <= Transport.elapsed mid).
  { clear. induction mid as [|[]]; simpl; lia. }
  assert (Hquiet_time : 0 <= Transport.elapsed quiet).
  { clear. induction quiet as [|[]]; simpl; lia. }
  subst s. fold first in Hfirst, Hfirst_mid, Hfirst_second, Hfirst_quiet.
  split; [|split].
  - destruct Hfirst_mid as (Hlt & _).
    change (fst second)
      with (length (Transport.promises (Transport.run mid (snd first)))).
    lia.
  - subst final. rewrite run_app.
    change (Transport.run (Transport.Arrives r :: later) ?s')
      with (Transport.run later (Transport.deliver r s')).
    apply run_settled; [|apply settlement_settled].
    eapply deliver_to_pending; [exact Hfirst_quiet| |done].
    rewrite now_run. subst second. simpl. rewrite now_run. subst first. simpl.
    lia.
  - subst final. rewrite run_app.
    change (Transport.run (Transport.Arrives r :: later) ?s')
      with (Transport.run later (Transport.deliver r s')).
    apply run_settled; [|apply settlement_settled].
    eapply deliver_to_pending; [exact Hsecond_quiet| |done].
    rewrite now_run. subst second. simpl. lia.
Qed.

Lemma replies_are_not_correlated_witness :
  Transport.promises
    (Transport.run
       [Transport.Issues (Transport.ReqReadFile "/work/a.txt");
        Transport.Passes 10;
        Transport.Issues (Transport.ReqReadFile "/work/b.txt");
        Transport.Passes 20;
        Transport.Arrives (Transport.ReadFileSuccess "/work/b.txt" "b")]
       Transport.fresh)
  !! 0%nat
  = Some (Transport.Resolved (Transport.VString "b")).
Proof.
  exact (proj1 (proj2
    (replies_are_not_correlated []
       (Transport.ReqReadFile "/work/a.txt") [Transport.Passes 10]
       (Transport.ReqReadFile "/work/b.txt") [Transport.Passes 20]
       (Transport.ReadFileSuccess "/work/b.txt" "b") []
       eq_refl eq_refl
       ltac:(repeat constructor) ltac:(repeat constructor)
       ltac:(reflexivity)))).
Defined.

(** ** The socket: a call settles by its deadline *)

Lemma pending_or_settled (x : Transport.Promise) :
  x = Transport.Pending \/ x <> Transport.Pending.
Proof. destruct x; [by left|by right..]. Qed.

Lemma settle_all_fires {B : Type} (call_of : B -> nat)
    (outcome : B -> Transport.Promise) callbacks i : forall ps,
  (i < length ps)%nat ->
  (exists b, b ∈ callbacks /\ call_of b = i) ->
  (forall b, b ∈ callbacks -> outcome b <> Transport.Pending) ->
  foldl (fun ps b => Transport.settle (call_of b) (outcome b) ps) ps callbacks
  !! i <> Some Transport.Pending.
Proof.
  induction callbacks as [|b callbacks IH]; intros ps Hi (b' & Hin & Hcall) Hout.
  - by apply elem_of_nil in Hin.
  - simpl. apply elem_of_cons in Hin as [->|Hin].
    + destruct (lookup_lt_is_Some_2 ps i Hi) as [x Hx].
      destruct (pending_or_settled x) as [->|Hsettled].
      * rewrite (settle_all_settled call_of outcome callbacks i (outcome b)).
        -- intros [= Heq]. by eapply Hout; [left|].
        -- rewrite Hcall. by apply settle_lookup_pending.
        -- apply Hout. left.
      * rewrite (settle_all_settled call_of outcome callbacks i x);
          [congruence| |done].
        by apply settle_lookup_settled.
    + apply IH.
      * by rewrite settle_length.
      * by exists b'.
      * intros b'' Hb''. apply Hout. by right.
Qed.

Lemma still_pending {B : Type} (call_of : B -> nat)
    (outcome : B -> Transport.Promise) callbacks i ps :
  (i < length ps)%nat ->
  foldl (fun ps b => Transport.settle (call_of b) (outcome b) ps) ps callbacks
  !! i = Some Transport.Pending ->
  ps !! i = Some Transport.Pending.
Proof.
  intros Hi Hafter.
  destruct (lookup_lt_is_Some_2 ps i Hi) as [x Hx].
  destruct (pending_or_settled x) as [->|Hsettled]; [done|].
  rewrite (settle_all_settled call_of outcome callbacks i x) in Hafter by done.
  congruence.
Qed.

Lemma request_guarded q s :
  guarded (fst (Transport.request q s))
    (Transport.now s + Transport.timeoutMs (Transport.request_op q))
    (snd (Transport.request q s)).
Proof.
  split; simpl.
  - rewrite length_app. simpl. lia.
  - intros _. pose proof (timeoutMs_positive (Transport.request_op q)).
    split; [lia|].
    eexists. split; [apply elem_of_app; right; left|]. done.
Qed.

Lemma step_guarded call due s e :
  guarded call due s -> guarded call due (Transport.step s e).
Proof.
  intros [Hcall Hguard]. destruct e as [r|ms|q]; simpl.
  - (* a reply: the timer is cleared only by a listener of the call, which
       settles the promise *)
    unfold guarded, Transport.deliver.
    rewrite promises_run_listeners, now_run_listeners. simpl.
    split; [by rewrite (settle_all_length Transport.l_call)|].
    intros Hafter.
    pose proof (still_pending Transport.l_call _ _ _ _ Hcall Hafter) as Hbefore.
    destruct (Hguard Hbefore) as (Hnow & tm & Hin & Htm & Hdue).
    split; [done|]. exists tm. split; [|done].
    apply timers_run_listeners. simpl. split; [done|].
    intros l Hl Heq. revert Hafter.
    apply (settle_all_fires Transport.l_call
             (fun _ => Transport.settlement r)); [done| |].
    + exists l. split; [done|]. congruence.
    + intros _ _. apply settlement_settled.
  - (* time passes: a timer that is taken off has fired *)
    unfold guarded. simpl. unfold Transport.run_timer.
    split; [|intros Hafter].
    + by rewrite (settle_all_length Transport.t_call
                    (fun tm => Transport.Rejected
                                 (Error (Transport.t_message tm)))).
    + pose proof (still_pending Transport.t_call
                    (fun tm => Transport.Rejected
                                 (Error (Transport.t_message tm)))
                    _ _ _ Hcall Hafter) as Hbefore.
      destruct (Hguard Hbefore) as (Hnow & tm & Hin & Htm & Hdue).
      destruct (decide (Transport.now s + Z.max 0 ms < due)) as [Hlt|Hge].
      * split; [done|]. exists tm. split; [|done].
        apply list_elem_of_filter. split; [lia|done].
      * exfalso. revert Hafter.
        apply (settle_all_fires Transport.t_call
                 (fun tm => Transport.Rejected
                              (Error (Transport.t_message tm)))); [done| |done].
        exists tm. split; [|done].
        apply list_elem_of_filter. split; [lia|done].
  - unfold guarded. simpl. split.
    + rewrite length_app. simpl. lia.
    + rewrite lookup_app_l by done. intros Hbefore.
      destruct (Hguard Hbefore) as (Hnow & tm & Hin & Htm & Hdue).
      split; [done|]. exists tm. split; [|done].
      apply elem_of_app. by left.
Qed.

Lemma run_guarded call due events : forall s,
  guarded call due s -> guarded call due (Transport.run events s).
Proof.
  induction events as [|e events IH]; intros s Hs; [done|].
  unfold Transport.run in *. simpl. by apply IH, step_guarded.
Qed.

(** A remote request is settled by its deadline as long as every reply
    that arrives carries the payload its listener reads (the replies of
    [Transport.Reply]). Whatever the state of the socket when the request
    is issued, and whichever such replies (to this or to other requests,
    success or error, in any order), further requests and passages of time
    follow, once the time given to the operation has passed (15 s for a
    listing, 20 s for a read or a write, 30 s for a command) the promise of
    the call is settled: resolved or rejected, not pending. An event whose
    listener throws on reading a payload that is missing is not among the
    events of this statement. *)
Theorem request_settles_by_deadline q s events :
  Transport.timeoutMs (Transport.request_op q) <= Transport.elapsed events ->
  exists outcome,
    Transport.promises (Transport.run events (snd (Transport.request q s)))
    !! fst (Transport.request q s) = Some outcome /\
    outcome <> Transport.Pending.
Proof.
  intros Helapsed.
  destruct (run_guarded _ _ events _ (request_guarded q s)) as [Hcall Hguard].
  destruct (lookup_lt_is_Some_2 _ _ Hcall) as [outcome Houtcome].
  exists outcome. split; [done|].
  intros ->. destruct (Hguard Houtcome) as (Hnow & _).
  rewrite now_run in Hnow. simpl in Hnow. lia.
Qed.

Lemma request_settles_by_deadline_witness :
  exists outcome,
    Transport.promises
      (Transport.run
         [Transport.Arrives (Transport.ReadFileSuccess "/work/notes.txt" "hello");
          Transport.Passes 30000]
         (snd (Transport.request (Transport.ReqExecuteCommand "make")
                 Transport.fresh)))
    !! 0%nat = Some outcome /\
    outcome <> Transport.Pending.
Proof.
  apply (request_settles_by_deadline (Transport.ReqExecuteCommand "make")
           Transport.fresh
           [Transport.Arrives (Transport.ReadFileSuccess "/work/notes.txt" "hello");
            Transport.Passes 30000]).
  simpl. lia.
Defined.

(** ** SecureCredentialStore: the keys *)

Lemma passwordKey_not_metadata id :
  SecureCredentialStore.passwordKey id <> SecureCredentialStore.CREDENTIALS_KEY.
Proof.
  unfold SecureCredentialStore.passwordKey,
    SecureCredentialStore.CREDENTIALS_KEY.
  rewrite !append_cons, append_nil. discriminate.
Qed.

Lemma privateKeyKey_not_metadata id :
  SecureCredentialStore.privateKeyKey id
  <> SecureCredentialStore.CREDENTIALS_KEY.
Proof.
  unfold SecureCredentialStore.privateKeyKey,
    SecureCredentialStore.CREDENTIALS_KEY.
  rewrite !append_cons, append_nil. discriminate.
Qed.

Lemma passwordKey_not_privateKeyKey id id' :
  SecureCredentialStore.passwordKey id
  <> SecureCredentialStore.privateKeyKey id'.
Proof.
  unfold SecureCredentialStore.passwordKey,
    SecureCredentialStore.privateKeyKey.
  rewrite !append_cons, !append_nil. discriminate.
Qed.

Lemma passwordKey_not_active id :
  SecureCredentialStore.passwordKey id
  <> SecureCredentialStore.ACTIVE_CONNECTION_KEY.
Proof.
  unfold SecureCredentialStore.passwordKey,
    SecureCredentialStore.ACTIVE_CONNECTION_KEY.
  rewrite !append_cons, append_nil. discriminate.
Qed.

Lemma privateKeyKey_not_active id :
  SecureCredentialStore.privateKeyKey id
  <> SecureCredentialStore.ACTIVE_CONNECTION_KEY.
Proof.
  unfold SecureCredentialStore.privateKeyKey,
    SecureCredentialStore.ACTIVE_CONNECTION_KEY.
  rewrite !append_cons, append_nil. discriminate.
Qed.

Lemma active_not_metadata :
  SecureCredentialStore.ACTIVE_CONNECTION_KEY
  <> SecureCredentialStore.CREDENTIALS_KEY.
Proof. discriminate. Qed.

Lemma passwordKey_inj id id' :
  SecureCredentialStore.passwordKey id = SecureCredentialStore.passwordKey id'
  -> id = id'.
Proof.
  unfold SecureCredentialStore.passwordKey.
  rewrite !append_cons, !append_nil. by intros [= ->].
Qed.

Lemma privateKeyKey_inj id id' :
  SecureCredentialStore.privateKeyKey id
  = SecureCredentialStore.privateKeyKey id'
  -> id = id'.
Proof.
  unfold SecureCredentialStore.privateKeyKey.
  rewrite !append_cons, !append_nil. by intros [= ->].
Qed.

(** ** SecureCredentialStore: a logic for its methods *)

Lemma triple_ret {A} (P : SecureStore.t -> Prop) (a : A) Q :
  (forall s, P s -> Q (Ok a) s) -> triple P (mret a) Q.
Proof. intros H s Hs. by apply H. Qed.

Lemma triple_throw {A} (P : SecureStore.t -> Prop) e
    (Q : Result A -> SecureStore.t -> Prop) :
  (forall s, P s -> Q (Throw e) s) -> triple P (throw e) Q.
Proof. intros H s Hs. by apply H. Qed.

Lemma triple_bind {A B} P (m : M SecureStore.t A) (k : A -> M SecureStore.t B)
    Q1 Q :
  triple P m Q1 ->
  (forall a, triple (Q1 (Ok a)) (k a) Q) ->
  (forall e s, Q1 (Throw e) s -> Q (Throw e) s) ->
  triple P (m ≫= k) Q.
Proof.
  intros Hm Hk Hthrow s Hs. specialize (Hm s Hs). method.
  destruct (m s) as [[a|e] s']; simpl in *.
  - by apply Hk.
  - by apply Hthrow.
Qed.

Lemma triple_try_catch {A} P (body : M SecureStore.t A) handler Q1 Q :
  triple P body Q1 ->
  (forall a s, Q1 (Ok a) s -> Q (Ok a) s) ->
  (forall e, triple (Q1 (Throw e)) (handler e) Q) ->
  triple P (try_catch body handler) Q.
Proof.
  intros Hbody Hok Hhandler s Hs. specialize (Hbody s Hs). method.
  destruct (body s) as [[a|e] s']; simpl in *.
  - by apply Hok.
  - by apply Hhandler.
Qed.

Lemma triple_weaken {A} (P P' : SecureStore.t -> Prop)
    (m : M SecureStore.t A) (Q Q' : Result A -> SecureStore.t -> Prop) :
  triple P' m Q' ->
  (forall s, P s -> P' s) ->
  (forall r s, Q' r s -> Q r s) ->
  triple P m Q.
Proof. intros Hm Hpre Hpost s Hs. by apply Hpost, Hm, Hpre. Qed.

(** A call of the library, for a property of the items alone: it is
    rejected and the items are as they were, or its body runs. *)
Lemma triple_call {A} (I : gmap string string -> Prop)
    (body : M SecureStore.t A) Q :
  triple (fun s => I (SecureStore.items s)) body Q ->
  (forall e s, I (SecureStore.items s) -> Q (Throw e) s) ->
  triple (fun s => I (SecureStore.items s)) (SecureStore.call body) Q.
Proof.
  intros Hbody Hreject [items faults] Hs. unfold SecureStore.call. simpl in *.
  destruct faults as [|[|] rest]; simpl.
  - by apply Hbody.
  - by apply Hreject.
  - by apply Hbody.
Qed.

(** ** SecureCredentialStore: secrets stay out of the metadata *)

Section Sealed.
Variable stringify : list SecureCredentialStore.StoredCredentials -> string.
Variable parse :
  string -> option (list SecureCredentialStore.StoredCredentials).
Hypothesis parse_stringify :
  forall credentials, parse (stringify credentials) = Some credentials.

Lemma sealed_setItemAsync_other key value :
  key <> SecureCredentialStore.CREDENTIALS_KEY ->
  triple (sealed stringify) (SecureStore.setItemAsync key value)
    (fun _ s => sealed stringify s).
Proof.
  intros Hkey. apply (triple_call (sealed_items stringify)); [|done].
  intros [items faults] Hs. unfold sealed, sealed_items in *. simpl in *.
  by rewrite lookup_insert_ne.
Qed.

Lemma sealed_setItemAsync_metadata credentials :
  Forall no_secrets credentials ->
  triple (sealed stringify)
    (SecureStore.setItemAsync SecureCredentialStore.CREDENTIALS_KEY
       (stringify credentials))
    (fun _ s => sealed stringify s).
Proof.
  intros Hsealed. apply (triple_call (sealed_items stringify)); [|done].
  intros [items faults] Hs. unfold sealed, sealed_items in *. simpl in *.
  right. exists credentials. split; [done|]. apply lookup_insert_eq.
Qed.

Lemma sealed_deleteItemAsync key :
  triple (sealed stringify) (SecureStore.deleteItemAsync key)
    (fun _ s => sealed stringify s).
Proof.
  apply (triple_call (sealed_items stringify)); [|done].
  intros [items faults] Hs. unfold sealed, sealed_items in *. simpl in *.
  destruct (decide (key = SecureCredentialStore.CREDENTIALS_KEY)) as [->|Hne].
  - left. apply lookup_delete_eq.
  - by rewrite lookup_delete_ne.
Qed.

Lemma sealed_getItemAsync key :
  triple (sealed stringify) (SecureStore.getItemAsync key)
    (fun r s => sealed stringify s /\
                forall value, r = Ok value ->
                              value = SecureStore.items s !! key).
Proof.
  apply (triple_call (sealed_items stringify)); [|done].
  intros [items faults] Hs. simpl. split; [done|]. by intros ? [= <-].
Qed.

Lemma sealed_storeSecret key secret :
  key <> SecureCredentialStore.CREDENTIALS_KEY ->
  triple (sealed stringify) (SecureCredentialStore.storeSecret key secret)
    (fun _ s => sealed stringify s).
Proof.
  intros Hkey. unfold SecureCredentialStore.storeSecret.
  destruct secret as [value|]; [|by apply triple_ret].
  destruct (String.eqb value ""); [by apply triple_ret|].
  by apply sealed_setItemAsync_other.
Qed.

(** What [getAllCredentials] returns never carries a secret, and it never
    throws. *)
Lemma sealed_getAllCredentials :
  triple (sealed stringify) (SecureCredentialStore.getAllCredentials parse)
    (fun r s => sealed stringify s /\
                exists credentials,
                  r = Ok credentials /\ Forall no_secrets credentials).
Proof.
  unfold SecureCredentialStore.getAllCredentials.
  eapply triple_try_catch with
    (Q1 := fun r s => sealed stringify s /\
                      forall credentials, r = Ok credentials ->
                                          Forall no_secrets credentials).
  - eapply triple_bind; [apply sealed_getItemAsync| |].
    + intros stored. simpl.
      destruct stored as [text|].
      * destruct (String.eqb text "").
        -- apply triple_ret. intros s [Hs _]. split; [done|].
           by intros ? [= <-].
        -- destruct (parse text) as [credentials|] eqn:Hparse.
           ++ apply triple_ret. intros s [Hs Hread]. split; [done|].
              intros ? [= <-].
              specialize (Hread _ eq_refl).
              destruct Hs as [Hnone|(stored & Hstored & Hitem)];
                [congruence|].
              rewrite Hitem in Hread. injection Hread as ->.
              rewrite parse_stringify in Hparse. by injection Hparse as <-.
           ++ apply triple_throw. by intros s [Hs _].
      * apply triple_ret. intros s [Hs _]. split; [done|].
        by intros ? [= <-].
    + by intros e s [Hs _].
  - intros credentials s [Hs Hok]. split; [done|].
    exists credentials. split; [done|]. by apply Hok.
  - intros e. apply triple_ret. intros s [Hs _]. split; [done|].
    exists []. by split.
Qed.

Lemma sealed_getCredentials id :
  triple (sealed stringify) (SecureCredentialStore.getCredentials parse id)
    (fun _ s => sealed stringify s).
Proof.
  unfold SecureCredentialStore.getCredentials.
  eapply triple_try_catch with (Q1 := fun _ s => sealed stringify s);
    [|done|by intros; apply triple_ret].
  eapply triple_bind; [apply sealed_getAllCredentials| |by intros e s [Hs _]].
  intros allCredentials. simpl.
  destruct (find _ allCredentials) as [credential|];
    [|by apply triple_ret; intros s [Hs _]].
  eapply triple_bind with (Q1 := fun _ s => sealed stringify s).
  - eapply triple_weaken; [apply sealed_getItemAsync| |].
    + by intros s [Hs _].
    + by intros r s [Hs _].
  - intros storedPassword.
    eapply triple_bind with (Q1 := fun _ s => sealed stringify s).
    + eapply triple_weaken; [apply sealed_getItemAsync|done|].
      by intros r s [Hs _].
    + intros storedKey. by apply triple_ret.
    + done.
  - done.
Qed.

Lemma no_secrets_with_secrets c :
  no_secrets (SecureCredentialStore.with_secrets None None c).
Proof. by split. Qed.

Lemma no_secrets_with_lastUsed date c :
  no_secrets c -> no_secrets (SecureCredentialStore.with_lastUsed date c).
Proof. done. Qed.

Lemma sealed_saveCredentials credentials generatedId date :
  triple (sealed stringify)
    (SecureCredentialStore.saveCredentials stringify parse credentials
       generatedId date)
    (fun _ s => sealed stringify s).
Proof.
  unfold SecureCredentialStore.saveCredentials.
  eapply triple_try_catch with (Q1 := fun _ s => sealed stringify s);
    [|done|by intros; apply triple_throw].
  cbv zeta.
  eapply triple_bind; [apply sealed_storeSecret, passwordKey_not_metadata| |done].
  intros u1.
  eapply triple_bind; [apply sealed_storeSecret, privateKeyKey_not_metadata| |done].
  intros u2.
  eapply triple_bind; [apply sealed_getAllCredentials| |by intros e s [Hs _]].
  intros existingCredentials.
  eapply triple_bind with (Q1 := fun _ s => sealed stringify s);
    [|intros u3; by apply triple_ret|done].
  intros s (Hs & stored & [= <-] & Hstored).
  refine (sealed_setItemAsync_metadata _ _ s Hs).
  apply Forall_app. split; [done|].
  apply Forall_singleton, no_secrets_with_secrets.
Qed.

Lemma sealed_updateLastUsed id date :
  triple (sealed stringify)
    (SecureCredentialStore.updateLastUsed stringify parse id date)
    (fun _ s => sealed stringify s).
Proof.
  unfold SecureCredentialStore.updateLastUsed.
  eapply triple_try_catch with (Q1 := fun _ s => sealed stringify s);
    [|done|by intros; apply triple_ret].
  eapply triple_bind; [apply sealed_getAllCredentials| |by intros e s [Hs _]].
  intros credentials s (Hs & stored & [= <-] & Hstored).
  refine (sealed_setItemAsync_metadata _ _ s Hs).
  apply Forall_map. eapply Forall_impl; [done|].
  intros c Hc. simpl.
  destruct (String.eqb _ id); [by apply no_secrets_with_lastUsed|done].
Qed.

Lemma sealed_deleteCredentials id :
  triple (sealed stringify)
    (SecureCredentialStore.deleteCredentials stringify parse id)
    (fun _ s => sealed stringify s).
Proof.
  unfold SecureCredentialStore.deleteCredentials.
  eapply triple_try_catch with (Q1 := fun _ s => sealed stringify s);
    [|done|by intros; apply triple_throw].
  eapply triple_bind; [apply sealed_getAllCredentials| |by intros e s [Hs _]].
  intros credentials.
  eapply triple_bind with (Q1 := fun _ s => sealed stringify s); [| |done].
  - intros s (Hs & stored & [= <-] & Hstored).
    refine (sealed_setItemAsync_metadata _ _ s Hs).
    rewrite Forall_forall in Hstored. apply Forall_forall.
    intros c [Hc _]%list_elem_of_In%filter_In. by apply Hstored, list_elem_of_In.
  - intros u1.
    eapply triple_bind with (Q1 := fun _ s => sealed stringify s); [| |done].
    + eapply triple_try_catch; [apply sealed_deleteItemAsync|done|].
      intros e. by apply triple_ret.
    + intros u2.
      eapply triple_try_catch; [apply sealed_deleteItemAsync|done|].
      intros e. by apply triple_ret.
Qed.

Lemma sealed_setActiveConnection credentialId :
  triple (sealed stringify)
    (SecureCredentialStore.setActiveConnection credentialId)
    (fun _ s => sealed stringify s).
Proof.
  unfold SecureCredentialStore.setActiveConnection.
  eapply triple_try_catch;
    [apply sealed_setItemAsync_other, active_not_metadata|done|].
  intros e. by apply triple_ret.
Qed.

Lemma sealed_getActiveConnection :
  triple (sealed stringify) (SecureCredentialStore.getActiveConnection parse)
    (fun _ s => sealed stringify s).
Proof.
  unfold SecureCredentialStore.getActiveConnection.
  eapply triple_try_catch with (Q1 := fun _ s => sealed stringify s);
    [|done|by intros; apply triple_ret].
  eapply triple_bind with (Q1 := fun _ s => sealed stringify s); [| |done].
  - eapply triple_weaken; [apply sealed_getItemAsync|done|].
    by intros r s [Hs _].
  - intros [activeId|]; [|by apply triple_ret].
    destruct (String.eqb activeId ""); [by apply triple_ret|].
    apply sealed_getCredentials.
Qed.

Lemma sealed_clearActiveConnection :
  triple (sealed stringify) SecureCredentialStore.clearActiveConnection
    (fun _ s => sealed stringify s).
Proof.
  unfold SecureCredentialStore.clearActiveConnection.
  eapply triple_try_catch; [apply sealed_deleteItemAsync|done|].
  intros e. by apply triple_ret.
Qed.

Lemma sealed_after_call s c :
  sealed stringify s -> sealed stringify (after_call stringify parse s c).
Proof.
  intros Hs. destruct c; simpl.
  - by apply sealed_saveCredentials.
  - by apply sealed_getAllCredentials.
  - by apply sealed_getCredentials.
  - by apply sealed_updateLastUsed.
  - by apply sealed_deleteCredentials.
  - by apply sealed_setActiveConnection.
  - by apply sealed_getActiveConnection.
  - by apply sealed_clearActiveConnection.
Qed.

Lemma sealed_after_calls calls : forall s,
  sealed stringify s ->
  sealed stringify (foldl (after_call stringify parse) s calls).
Proof.
  induction calls as [|c calls IH]; intros s Hs; [done|].
  simpl. by apply IH, sealed_after_call.
Qed.

End Sealed.

(** The store keeps the secrets out of the metadata item. From a keystore
    whose metadata item is absent or the serialisation of entries without
    secrets (the empty keystore is one), after any sequence of calls of the
    store, whichever calls of the keystore are rejected on the way, the
    metadata item is still the serialisation of entries that carry neither
    a password nor a private key, and [getAllCredentials] returns such
    entries and does not throw. [JSON.parse] is taken to give back the
    entries that [JSON.stringify] serialised. *)
Theorem metadata_holds_no_secrets stringify parse calls s :
  (forall credentials, parse (stringify credentials) = Some credentials) ->
  sealed stringify s ->
  sealed stringify (foldl (after_call stringify parse) s calls) /\
  exists credentials,
    fst (SecureCredentialStore.getAllCredentials parse
           (foldl (after_call stringify parse) s calls))
    = Ok credentials /\
    Forall no_secrets credentials.
Proof.
  intros Hcodec Hs.
  pose proof (sealed_after_calls stringify parse Hcodec calls s Hs) as Hafter.
  split; [done|].
  by apply (sealed_getAllCredentials stringify parse Hcodec).
Qed.

Lemma number_digits p : number (digits p) = Some p.
Proof. induction p as [p IH|p IH|]; simpl; by rewrite ?IH. Qed.

Lemma sampleParse_stringify credentials :
  sampleParse (sampleStringify credentials) = Some credentials.
Proof.
  unfold sampleParse, sampleStringify. rewrite number_digits.
  apply decode_encode.
Qed.

Lemma sampleStringify_nonempty credentials : sampleStringify credentials <> "".
Proof. done. Qed.

Lemma metadata_holds_no_secrets_witness :
  sealed sampleStringify
    (foldl (after_call sampleStringify sampleParse) flakyStore
       [SaveCredentials workLogin "ssh_1_a" 1000;
        SaveCredentials workLogin "ssh_2_b" 2000;
        DeleteCredentials "ssh_1_a"]) /\
  exists credentials,
    fst (SecureCredentialStore.getAllCredentials sampleParse
           (foldl (after_call sampleStringify sampleParse) flakyStore
              [SaveCredentials workLogin "ssh_1_a" 1000;
               SaveCredentials workLogin "ssh_2_b" 2000;
               DeleteCredentials "ssh_1_a"]))
    = Ok credentials /\
    Forall no_secrets credentials.
Proof.
  apply (metadata_holds_no_secrets sampleStringify sampleParse
           [SaveCredentials workLogin "ssh_1_a" 1000;
            SaveCredentials workLogin "ssh_2_b" 2000;
            DeleteCredentials "ssh_1_a"]
           flakyStore sampleParse_stringify).
  by left.
Defined.

(** ** SecureCredentialStore on a keystore that performs every call *)

Lemma getAllCredentials_reliable parse items :
  SecureCredentialStore.getAllCredentials parse (reliable items)
  = (Ok (listed parse items), reliable items).
Proof.
  unfold SecureCredentialStore.getAllCredentials, listed,
    SecureStore.getItemAsync, SecureStore.call. method. simpl.
  destruct (items !! _) as [text|]; [|done].
  destruct (String.eqb text ""); [done|].
  by destruct (parse text).
Qed.

Lemma storeSecret_reliable key secret items :
  SecureCredentialStore.storeSecret key secret (reliable items)
  = (Ok tt, reliable (withSecret key secret items)).
Proof.
  unfold SecureCredentialStore.storeSecret, withSecret.
  destruct secret as [value|]; [|done].
  simpl. by destruct (String.eqb value "").
Qed.

Lemma getCredentials_reliable parse id items :
  SecureCredentialStore.getCredentials parse id (reliable items)
  = (Ok (match find (fun cred =>
                       String.eqb (SecureCredentialStore.id cred) id)
                    (listed parse items) with
         | Some credential =>
             Some (SecureCredentialStore.with_secrets
                     (SecureCredentialStore.or_undefined
                        (items !! SecureCredentialStore.passwordKey id))
                     (SecureCredentialStore.or_undefined
                        (items !! SecureCredentialStore.privateKeyKey id))
                     credential)
         | None => None
         end),
     reliable items).
Proof.
  unfold SecureCredentialStore.getCredentials. method.
  rewrite getAllCredentials_reliable.
  by destruct (find _ _).
Qed.

Lemma listed_insert_other parse key value items :
  key <> SecureCredentialStore.CREDENTIALS_KEY ->
  listed parse (<[key := value]> items) = listed parse items.
Proof. intros Hkey. unfold listed. by rewrite lookup_insert_ne. Qed.

Lemma listed_delete_other parse key items :
  key <> SecureCredentialStore.CREDENTIALS_KEY ->
  listed parse (delete key items) = listed parse items.
Proof. intros Hkey. unfold listed. by rewrite lookup_delete_ne. Qed.

Lemma listed_insert_metadata stringify parse credentials items :
  (forall l, parse (stringify l) = Some l) ->
  (forall l, stringify l <> "") ->
  listed parse
    (<[SecureCredentialStore.CREDENTIALS_KEY := stringify credentials]> items)
  = credentials.
Proof.
  intros Hcodec Hnonempty. unfold listed. rewrite lookup_insert_eq.
  destruct (String.eqb_spec (stringify credentials) "") as [Heq|_].
  - by apply Hnonempty in Heq.
  - by rewrite Hcodec.
Qed.

Lemma find_app_absent {A} (f : A -> bool) l x :
  (forall y, y ∈ l -> f y = false) ->
  find f (l ++ [x]) = if f x then Some x else None.
Proof.
  induction l as [|y l IH]; intros Hl; [done|].
  simpl. rewrite (Hl y) by left. apply IH. intros z Hz. apply Hl. by right.
Qed.

Lemma find_app_other {A} (f : A -> bool) l x :
  f x = false -> find f (l ++ [x]) = find f l.
Proof.
  intros Hx. induction l as [|y l IH]; simpl; [by rewrite Hx|].
  by destruct (f y).
Qed.

Lemma find_filter_other {A} (f g : A -> bool) l :
  (forall x, f x = true -> g x = true) ->
  find f (List.filter g l) = find f l.
Proof.
  intros Hfg. induction l as [|y l IH]; [done|]. simpl.
  destruct (g y) eqn:Hg; simpl.
  - by destruct (f y).
  - destruct (f y) eqn:Hf; [|done]. apply Hfg in Hf. congruence.
Qed.

Lemma find_filter_absent {A} (f : A -> bool) l :
  find f (List.filter (fun x => negb (f x)) l) = None.
Proof.
  induction l as [|y l IH]; [done|]. simpl.
  destruct (f y) eqn:Hf; simpl; [done|]. by rewrite Hf.
Qed.

Lemma listed_withSecret parse key secret items :
  key <> SecureCredentialStore.CREDENTIALS_KEY ->
  listed parse (withSecret key secret items) = listed parse items.
Proof.
  intros Hkey. unfold withSecret.
  destruct (truthy secret); [by apply listed_insert_other|done].
Qed.

Lemma lookup_withSecret key secret items :
  items !! key = None ->
  SecureCredentialStore.or_undefined (withSecret key secret items !! key)
  = SecureCredentialStore.or_undefined secret.
Proof.
  intros Habsent. unfold withSecret, SecureCredentialStore.or_undefined.
  destruct secret as [value|]; simpl; [|by rewrite Habsent].
  destruct (String.eqb value "") eqn:Hvalue; simpl.
  - by rewrite Habsent.
  - rewrite lookup_insert_eq. simpl. by rewrite Hvalue.
Qed.

Lemma lookup_withSecret_ne key key' secret items :
  key <> key' -> withSecret key secret items !! key' = items !! key'.
Proof.
  intros Hne. unfold withSecret.
  destruct (truthy secret); [by rewrite lookup_insert_ne|done].
Qed.

Lemma saveCredentials_reliable stringify parse credentials generatedId date
    items :
  SecureCredentialStore.saveCredentials stringify parse credentials
    generatedId date (reliable items)
  = (Ok generatedId,
     reliable
       (<[SecureCredentialStore.CREDENTIALS_KEY :=
            stringify
              (listed parse items ++
               [SecureCredentialStore.with_secrets None None
                  (entryOf credentials generatedId date)])%list]>
          (withSecret (SecureCredentialStore.privateKeyKey generatedId)
             (privateKey (SecureCredentialStore.new_connection credentials))
             (withSecret (SecureCredentialStore.passwordKey generatedId)
                (password (SecureCredentialStore.new_connection credentials))
                items)))).
Proof.
  unfold SecureCredentialStore.saveCredentials. method. simpl.
  rewrite !storeSecret_reliable, getAllCredentials_reliable.
  rewrite !listed_withSecret
    by (apply privateKeyKey_not_metadata || apply passwordKey_not_metadata).
  done.
Qed.

(** A credential that is saved is read back. On a keystore that performs
    every call, when the generated identifier is not the identifier of an
    entry that is listed and no item is left under the two secret keys of
    that identifier, [saveCredentials] returns the identifier, and
    [getCredentials] of it returns the saved fields with the generated
    identifier and the date of the call, the password and the private key
    included; an empty password or key comes back as [undefined]. The
    credentials of every other identifier are read as before. *)
Theorem saved_credentials_are_read_back stringify parse credentials
    generatedId date items :
  (forall l, parse (stringify l) = Some l) ->
  (forall l, stringify l <> "") ->
  (forall c, c ∈ listed parse items ->
             SecureCredentialStore.id c <> generatedId) ->
  items !! SecureCredentialStore.passwordKey generatedId = None ->
  items !! SecureCredentialStore.privateKeyKey generatedId = None ->
  let saved :=
    SecureCredentialStore.saveCredentials stringify parse credentials
      generatedId date (reliable items) in
  fst saved = Ok generatedId /\
  fst (SecureCredentialStore.getCredentials parse generatedId (snd saved))
  = Ok (Some (SecureCredentialStore.with_secrets
                (SecureCredentialStore.or_undefined
                   (password (SecureCredentialStore.new_connection credentials)))
                (SecureCredentialStore.or_undefined
                   (privateKey
                      (SecureCredentialStore.new_connection credentials)))
                (entryOf credentials generatedId date))) /\
  (forall id,
      id <> generatedId ->
      fst (SecureCredentialStore.getCredentials parse id (snd saved))
      = fst (SecureCredentialStore.getCredentials parse id (reliable items))).
Proof.
  intros Hcodec Hnonempty Hfresh Hpassword Hkey saved. subst saved.
  rewrite saveCredentials_reliable. simpl.
  split; [done|]. split.
  - rewrite getCredentials_reliable. simpl.
    rewrite (listed_insert_metadata stringify) by done.
    rewrite find_app_absent.
    + simpl. rewrite String.eqb_refl.
      rewrite !lookup_insert_ne
        by (apply not_eq_sym;
            (apply privateKeyKey_not_metadata || apply passwordKey_not_metadata)).
      rewrite lookup_withSecret_ne by (apply not_eq_sym, passwordKey_not_privateKeyKey).
      rewrite lookup_withSecret by done.
      rewrite lookup_withSecret; [done|].
      by rewrite lookup_withSecret_ne by apply passwordKey_not_privateKeyKey.
    + intros c Hc. apply String.eqb_neq. by apply Hfresh.
  - intros id Hid. rewrite !getCredentials_reliable. simpl.
    rewrite (listed_insert_metadata stringify) by done.
    rewrite find_app_other by (simpl; by apply String.eqb_neq).
    rewrite !lookup_insert_ne
      by (apply not_eq_sym;
          (apply privateKeyKey_not_metadata || apply passwordKey_not_metadata)).
    rewrite (lookup_withSecret_ne (SecureCredentialStore.privateKeyKey generatedId)
               (SecureCredentialStore.passwordKey id))
      by (apply not_eq_sym, passwordKey_not_privateKeyKey).
    rewrite (lookup_withSecret_ne (SecureCredentialStore.passwordKey generatedId)
               (SecureCredentialStore.passwordKey id))
      by (intros Heq%passwordKey_inj; congruence).
    rewrite (lookup_withSecret_ne (SecureCredentialStore.privateKeyKey generatedId)
               (SecureCredentialStore.privateKeyKey id))
      by (intros Heq%privateKeyKey_inj; congruence).
    rewrite (lookup_withSecret_ne (SecureCredentialStore.passwordKey generatedId)
               (SecureCredentialStore.privateKeyKey id))
      by apply passwordKey_not_privateKeyKey.
    done.
Qed.

Lemma saved_credentials_are_read_back_witness :
  fst (SecureCredentialStore.getCredentials sampleParse "ssh_1_a"
         (snd (SecureCredentialStore.saveCredentials sampleStringify
                 sampleParse workLogin "ssh_1_a" 1000 (reliable ∅))))
  = Ok (Some (SecureCredentialStore.with_secrets (Some "secret") None
                (entryOf workLogin "ssh_1_a" 1000))).
Proof.
  refine (proj1 (proj2
    (saved_credentials_are_read_back sampleStringify sampleParse workLogin
       "ssh_1_a" 1000 ∅ sampleParse_stringify sampleStringify_nonempty
       _ _ _))).
  - intros c Hc. unfold listed in Hc. rewrite lookup_empty in Hc.
    by apply elem_of_nil in Hc.
  - apply lookup_empty.
  - apply lookup_empty.
Defined.

Lemma deleteCredentials_reliable stringify parse id items :
  SecureCredentialStore.deleteCredentials stringify parse id (reliable items)
  = (Ok tt,
     reliable
       (delete (SecureCredentialStore.privateKeyKey id)
          (delete (SecureCredentialStore.passwordKey id)
             (<[SecureCredentialStore.CREDENTIALS_KEY :=
                  stringify
                    (List.filter
                       (fun cred =>
                          negb (String.eqb (SecureCredentialStore.id cred) id))
                       (listed parse items))]> items)))).
Proof.
  unfold SecureCredentialStore.deleteCredentials. method.
  by rewrite getAllCredentials_reliable.
Qed.

Lemma listed_after_delete stringify parse id items :
  (forall l, parse (stringify l) = Some l) ->
  (forall l, stringify l <> "") ->
  listed parse
    (delete (SecureCredentialStore.privateKeyKey id)
       (delete (SecureCredentialStore.passwordKey id)
          (<[SecureCredentialStore.CREDENTIALS_KEY :=
               stringify
                 (List.filter
                    (fun cred =>
                       negb (String.eqb (SecureCredentialStore.id cred) id))
                    (listed parse items))]> items)))
  = List.filter
      (fun cred => negb (String.eqb (SecureCredentialStore.id cred) id))
      (listed parse items).
Proof.
  intros Hcodec Hnonempty.
  rewrite !listed_delete_other
    by (apply privateKeyKey_not_metadata || apply passwordKey_not_metadata).
  by apply (listed_insert_metadata stringify).
Qed.

Lemma getCredentials_after_delete stringify parse id items :
  (forall l, parse (stringify l) = Some l) ->
  (forall l, stringify l <> "") ->
  fst (SecureCredentialStore.getCredentials parse id
         (snd (SecureCredentialStore.deleteCredentials stringify parse id
                 (reliable items))))
  = Ok None.
Proof.
  intros Hcodec Hnonempty.
  rewrite deleteCredentials_reliable. simpl.
  rewrite getCredentials_reliable, (listed_after_delete stringify) by done.
  simpl.
  by rewrite (find_filter_absent
                (fun cred => String.eqb (SecureCredentialStore.id cred) id)).
Qed.

(** A credential that is deleted is gone, and only that one. On a keystore
    that performs every call, [deleteCredentials] returns normally;
    afterwards [getCredentials] of the identifier returns [null], no item
    is left under its two secret keys, and the credentials of every other
    identifier are read as before. *)
Theorem deleted_credentials_are_gone stringify parse id items :
  (forall l, parse (stringify l) = Some l) ->
  (forall l, stringify l <> "") ->
  let deleted :=
    SecureCredentialStore.deleteCredentials stringify parse id
      (reliable items) in
  fst deleted = Ok tt /\
  fst (SecureCredentialStore.getCredentials parse id (snd deleted)) = Ok None /\
  SecureStore.items (snd deleted) !! SecureCredentialStore.passwordKey id
  = None /\
  SecureStore.items (snd deleted) !! SecureCredentialStore.privateKeyKey id
  = None /\
  (forall id',
      id' <> id ->
      fst (SecureCredentialStore.getCredentials parse id' (snd deleted))
      = fst (SecureCredentialStore.getCredentials parse id' (reliable items))).
Proof.
  intros Hcodec Hnonempty deleted. subst deleted.
  rewrite deleteCredentials_reliable. simpl.
  pose proof (listed_after_delete stringify parse id items Hcodec Hnonempty)
    as Hlisted.
  split; [done|]. split; [|split; [|split]].
  - pose proof (getCredentials_after_delete stringify parse id items
                  Hcodec Hnonempty) as Hgone.
    by rewrite deleteCredentials_reliable in Hgone.
  - rewrite lookup_delete_ne by (apply not_eq_sym, passwordKey_not_privateKeyKey).
    apply lookup_delete_eq.
  - apply lookup_delete_eq.
  - intros id' Hid'. rewrite !getCredentials_reliable, Hlisted. simpl.
    rewrite find_filter_other.
    + rewrite (lookup_delete_ne _ (SecureCredentialStore.privateKeyKey id)
                 (SecureCredentialStore.passwordKey id'))
        by (apply not_eq_sym, passwordKey_not_privateKeyKey).
      rewrite (lookup_delete_ne _ (SecureCredentialStore.passwordKey id)
                 (SecureCredentialStore.passwordKey id'))
        by (intros Heq%passwordKey_inj; congruence).
      rewrite (lookup_delete_ne _ (SecureCredentialStore.privateKeyKey id)
                 (SecureCredentialStore.privateKeyKey id'))
        by (intros Heq%privateKeyKey_inj; congruence).
      rewrite (lookup_delete_ne _ (SecureCredentialStore.passwordKey id)
                 (SecureCredentialStore.privateKeyKey id'))
        by apply passwordKey_not_privateKeyKey.
      rewrite !lookup_insert_ne
        by (apply not_eq_sym;
            (apply privateKeyKey_not_metadata || apply passwordKey_not_metadata)).
      done.
    + intros c Hc%String.eqb_eq. apply negb_true_iff, String.eqb_neq.
      congruence.
Qed.

Lemma deleted_credentials_are_gone_witness :
  fst (SecureCredentialStore.getCredentials sampleParse "ssh_1_a"
         (snd (SecureCredentialStore.deleteCredentials sampleStringify
                 sampleParse "ssh_1_a"
                 (reliable
                    (SecureStore.items
                       (snd (SecureCredentialStore.saveCredentials
                               sampleStringify sampleParse workLogin
                               "ssh_1_a" 1000 (reliable ∅))))))))
  = Ok None.
Proof.
  exact (proj1 (proj2
    (deleted_credentials_are_gone sampleStringify sampleParse "ssh_1_a" _
       sampleParse_stringify sampleStringify_nonempty))).
Defined.

Lemma getActiveConnection_reliable parse items :
  fst (SecureCredentialStore.getActiveConnection parse (reliable items))
  = match items !! SecureCredentialStore.ACTIVE_CONNECTION_KEY with
    | Some activeId =>
        if String.eqb activeId "" then Ok None
        else fst (SecureCredentialStore.getCredentials parse activeId
                    (reliable items))
    | None => Ok None
    end.
Proof.
  unfold SecureCredentialStore.getActiveConnection,
    SecureStore.getItemAsync, SecureStore.call. method. simpl.
  destruct (items !! _) as [activeId|]; [|done].
  destruct (String.eqb activeId ""); [done|].
  by rewrite getCredentials_reliable.
Qed.

Lemma getCredentials_insert_active parse id value items :
  fst (SecureCredentialStore.getCredentials parse id
         (reliable
            (<[SecureCredentialStore.ACTIVE_CONNECTION_KEY := value]> items)))
  = fst (SecureCredentialStore.getCredentials parse id (reliable items)).
Proof.
  rewrite !getCredentials_reliable. simpl.
  rewrite listed_insert_other by apply active_not_metadata.
  by rewrite !lookup_insert_ne
    by (apply not_eq_sym;
        (apply privateKeyKey_not_active || apply passwordKey_not_active)).
Qed.

(** The active connection is a reference to a stored credential. On a
    keystore that performs every call: after [setActiveConnection] of a
    non-empty identifier, [getActiveConnection] returns what
    [getCredentials] returns for it (and [null] for the empty identifier);
    after [clearActiveConnection] it returns [null]; and when the
    credential it refers to is deleted, the reference is left in the
    keystore and [getActiveConnection] returns [null]. *)
Theorem active_connection_follows_credentials stringify parse id items :
  (forall l, parse (stringify l) = Some l) ->
  (forall l, stringify l <> "") ->
  fst (SecureCredentialStore.getActiveConnection parse
         (snd (SecureCredentialStore.setActiveConnection id (reliable items))))
  = (if String.eqb id "" then Ok None
     else fst (SecureCredentialStore.getCredentials parse id (reliable items)))
  /\
  fst (SecureCredentialStore.getActiveConnection parse
         (snd (SecureCredentialStore.clearActiveConnection (reliable items))))
  = Ok None /\
  (let deleted :=
     snd (SecureCredentialStore.deleteCredentials stringify parse id
            (snd (SecureCredentialStore.setActiveConnection id
                    (reliable items)))) in
   SecureStore.items deleted !! SecureCredentialStore.ACTIVE_CONNECTION_KEY
   = Some id /\
   fst (SecureCredentialStore.getActiveConnection parse deleted) = Ok None).
Proof.
  intros Hcodec Hnonempty.
  change (snd (SecureCredentialStore.setActiveConnection id (reliable items)))
    with (reliable
            (<[SecureCredentialStore.ACTIVE_CONNECTION_KEY := id]> items)).
  change (snd (SecureCredentialStore.clearActiveConnection (reliable items)))
    with (reliable
            (delete SecureCredentialStore.ACTIVE_CONNECTION_KEY items)).
  split; [|split].
  - rewrite getActiveConnection_reliable, lookup_insert_eq.
    destruct (String.eqb id ""); [done|].
    apply getCredentials_insert_active.
  - by rewrite getActiveConnection_reliable, lookup_delete_eq.
  - pose proof (getCredentials_after_delete stringify parse id
                  (<[SecureCredentialStore.ACTIVE_CONNECTION_KEY := id]> items)
                  Hcodec Hnonempty) as Hgone.
    rewrite deleteCredentials_reliable in *. simpl in *.
    split.
    + rewrite !lookup_delete_ne
        by (apply privateKeyKey_not_active || apply passwordKey_not_active).
      rewrite lookup_insert_ne by apply not_eq_sym, active_not_metadata.
      apply lookup_insert_eq.
    + rewrite getActiveConnection_reliable.
      destruct (_ !! SecureCredentialStore.ACTIVE_CONNECTION_KEY)
        as [activeId|] eqn:Hactive; [|done].
      rewrite !lookup_delete_ne in Hactive
        by (apply privateKeyKey_not_active || apply passwordKey_not_active).
      rewrite lookup_insert_ne in Hactive
        by apply not_eq_sym, active_not_metadata.
      rewrite lookup_insert_eq in Hactive. injection Hactive as <-.
      destruct (String.eqb id ""); [done|]. apply Hgone.
Qed.

Lemma active_connection_follows_credentials_witness :
  fst (SecureCredentialStore.getActiveConnection sampleParse
         (snd (SecureCredentialStore.clearActiveConnection (reliable ∅))))
  = Ok None.
Proof.
  exact (proj1 (proj2
    (active_connection_follows_credentials sampleStringify sampleParse
       "ssh_1_a" ∅ sampleParse_stringify sampleStringify_nonempty))).
Defined.

(** ** SecureCredentialStore: errors *)

Lemma caught_is_ok {S A} (body : M S A) (fallback : A) s :
  is_ok (fst (try_catch body (fun _ => mret fallback) s)) = true.
Proof. method. by destruct (body s) as [[a|e] s']. Qed.

Lemma rethrown {S A} (body : M S A) message s :
  (exists a, fst (try_catch body (fun _ => throw (Error message)) s) = Ok a /\
             fst (body s) = Ok a) \/
  fst (try_catch body (fun _ => throw (Error message)) s)
  = Throw (Error message).
Proof.
  method. destruct (body s) as [[a|e] s']; simpl; [left|by right].
  by exists a.
Qed.

(** The errors of the keystore and of [JSON.parse] stay inside the store.
    Whatever the keystore holds and whichever of its calls are rejected,
    [getAllCredentials], [getCredentials], [updateLastUsed],
    [setActiveConnection], [getActiveConnection] and
    [clearActiveConnection] return normally; [saveCredentials] returns the
    generated identifier or throws 'Failed to save SSH credentials', and
    [deleteCredentials] returns or throws 'Failed to delete SSH
    credentials'. *)
Theorem store_errors_are_contained stringify parse credentials generatedId
    date id s :
  is_ok (fst (SecureCredentialStore.getAllCredentials parse s)) = true /\
  is_ok (fst (SecureCredentialStore.getCredentials parse id s)) = true /\
  is_ok (fst (SecureCredentialStore.updateLastUsed stringify parse id date s))
  = true /\
  is_ok (fst (SecureCredentialStore.setActiveConnection id s)) = true /\
  is_ok (fst (SecureCredentialStore.getActiveConnection parse s)) = true /\
  is_ok (fst (SecureCredentialStore.clearActiveConnection s)) = true /\
  (fst (SecureCredentialStore.saveCredentials stringify parse credentials
          generatedId date s) = Ok generatedId \/
   fst (SecureCredentialStore.saveCredentials stringify parse credentials
          generatedId date s)
   = Throw (Error "Failed to save SSH credentials")) /\
  (fst (SecureCredentialStore.deleteCredentials stringify parse id s) = Ok tt \/
   fst (SecureCredentialStore.deleteCredentials stringify parse id s)
   = Throw (Error "Failed to delete SSH credentials")).
Proof.
  repeat split; try apply caught_is_ok.
  - unfold SecureCredentialStore.saveCredentials.
    match goal with
    | |- context [try_catch ?body _ s] =>
        destruct (rethrown body "Failed to save SSH credentials" s)
          as [(a & Hresult & Hbody)|Hresult]; rewrite Hresult; [left|by right]
    end.
    revert Hbody. cbv zeta. method.
    repeat match goal with
           | |- context [match ?m with (_, _) => _ end] =>
               destruct m as [[?|?] ?]; simpl; try discriminate
           end.
    congruence.
  - unfold SecureCredentialStore.deleteCredentials.
    match goal with
    | |- context [try_catch ?body _ s] =>
        destruct (rethrown body "Failed to delete SSH credentials" s)
          as [([] & Hresult & _)|Hresult]; rewrite Hresult; [by left|by right]
    end.
Qed.

Lemma getAllCredentials_rejected parse items rest :
  SecureCredentialStore.getAllCredentials parse
    {| SecureStore.items := items; SecureStore.faults := true :: rest |}
  = (Ok [], {| SecureStore.items := items; SecureStore.faults := rest |}).
Proof. reflexivity. Qed.

Lemma storeSecret_performed key secret items performed rest :
  SecureCredentialStore.storeSecret key secret
    {| SecureStore.items := items;
       SecureStore.faults :=
         replicate ((if truthy secret then 1 else 0) + performed) false
         ++ rest |}
  = (Ok tt,
     {| SecureStore.items := withSecret key secret items;
        SecureStore.faults := replicate performed false ++ rest |}).
Proof.
  unfold SecureCredentialStore.storeSecret, withSecret.
  destruct secret as [value|]; [|done].
  simpl. by destruct (String.eqb value "").
Qed.

Lemma storeSecret_last key secret items rest :
  SecureCredentialStore.storeSecret key secret
    {| SecureStore.items := items;
       SecureStore.faults :=
         replicate (if truthy secret then 1 else 0) false ++ rest |}
  = (Ok tt,
     {| SecureStore.items := withSecret key secret items;
        SecureStore.faults := rest |}).
Proof.
  unfold SecureCredentialStore.storeSecret, withSecret.
  destruct secret as [value|]; [|done].
  simpl. by destruct (String.eqb value "").
Qed.

(** A rejected read of the metadata item loses the stored entries. When
    the keystore rejects the read that [getAllCredentials] makes inside
    [updateLastUsed], [deleteCredentials] or [saveCredentials] and performs
    the write that follows, the method returns normally and the metadata
    item is overwritten as if nothing had been stored: after
    [updateLastUsed] and [deleteCredentials] no entry is listed, and after
    [saveCredentials] only the new entry is, whatever was listed before. *)
Theorem rejected_read_loses_entries stringify parse items :
  (forall l, parse (stringify l) = Some l) ->
  (forall l, stringify l <> "") ->
  (forall id date,
      let updated :=
        SecureCredentialStore.updateLastUsed stringify parse id date
          (rejectingAfter 0 items) in
      fst updated = Ok tt /\
      listed parse (SecureStore.items (snd updated)) = []) /\
  (forall id,
      let deleted :=
        SecureCredentialStore.deleteCredentials stringify parse id
          (rejectingAfter 0 items) in
      fst deleted = Ok tt /\
      listed parse (SecureStore.items (snd deleted)) = []) /\
  (forall credentials generatedId date,
      let saved :=
        SecureCredentialStore.saveCredentials stringify parse credentials
          generatedId date (rejectingAfter (secretCount credentials) items) in
      fst saved = Ok generatedId /\
      listed parse (SecureStore.items (snd saved))
      = [SecureCredentialStore.with_secrets None None
           (entryOf credentials generatedId date)]).
Proof.
  intros Hcodec Hnonempty. split; [|split].
  - intros id date updated. subst updated.
    change (rejectingAfter 0 items)
      with {| SecureStore.items := items; SecureStore.faults := [true] |}.
    unfold SecureCredentialStore.updateLastUsed. method.
    rewrite getAllCredentials_rejected. simpl.
    split; [done|]. by apply (listed_insert_metadata stringify).
  - intros id deleted. subst deleted.
    change (rejectingAfter 0 items)
      with {| SecureStore.items := items; SecureStore.faults := [true] |}.
    unfold SecureCredentialStore.deleteCredentials. method.
    rewrite getAllCredentials_rejected. simpl.
    split; [done|].
    rewrite !listed_delete_other
      by (apply privateKeyKey_not_metadata || apply passwordKey_not_metadata).
    by apply (listed_insert_metadata stringify).
  - intros credentials generatedId date saved. subst saved.
    unfold SecureCredentialStore.saveCredentials, rejectingAfter, secretCount.
    method. cbv zeta. simpl SecureCredentialStore.id.
    rewrite storeSecret_performed, storeSecret_last.
    rewrite getAllCredentials_rejected. simpl.
    split; [done|]. by apply (listed_insert_metadata stringify).
Qed.

Lemma rejected_read_loses_entries_witness :
  listed sampleParse
    (SecureStore.items
       (snd (SecureCredentialStore.updateLastUsed sampleStringify sampleParse
               "ssh_1_a" 2000
               (rejectingAfter 0
                  (SecureStore.items
                     (snd (SecureCredentialStore.saveCredentials
                             sampleStringify sampleParse workLogin
                             "ssh_1_a" 1000 (reliable ∅))))))))
  = [].
Proof.
  exact (proj2 (proj1
    (rejected_read_loses_entries sampleStringify sampleParse _
       sampleParse_stringify sampleStringify_nonempty)
    "ssh_1_a" 2000)).
Defined.

(** ** The connection form *)

(** The form hands over only credentials that can be used. When
    [handleConnect] calls [onConnect], the credentials are those of the
    form, host and user name are not empty, and the secret of the selected
    method is there; so [RealSSHService.connectFallback] does not reject
    them with 'No password or private key provided'. Nothing removes the
    secret of the method that is not selected: credentials with both a
    password and a private key are handed over as they are. *)
Theorem handleConnect_hands_over_checked_credentials self handed :
  SSHConnection.handleConnect self = SSHConnection.OnConnect handed ->
  handed = SSHConnection.credentials self /\
  host handed <> "" /\
  username handed <> "" /\
  truthy (match SSHConnection.authMethod self with
          | SSHConnection.Password => password handed
          | SSHConnection.Key => privateKey handed
          end) = true /\
  forall service,
    fst (RealSSHService.connectFallback handed service)
    <> Throw (Error "No password or private key provided").
Proof.
  unfold SSHConnection.handleConnect. intros Hhanded.
  destruct (String.eqb_spec (host (SSHConnection.credentials self)) "")
    as [|Hhost]; [done|].
  destruct (String.eqb_spec (username (SSHConnection.credentials self)) "")
    as [|Huser]; [done|].
  simpl in Hhanded.
  assert (Hsecret :
    handed = SSHConnection.credentials self /\
    truthy (match SSHConnection.authMethod self with
            | SSHConnection.Password => password handed
            | SSHConnection.Key => privateKey handed
            end) = true).
  { destruct (SSHConnection.authMethod self);
      destruct (truthy _) eqn:Htruthy; simpl in Hhanded; try done;
      injection Hhanded as <-; by split. }
  destruct Hsecret as [-> Hsecret].
  repeat split; try done.
  intros service. unfold RealSSHService.connectFallback. method.
  assert (negb (truthy (password (SSHConnection.credentials self)))
          && negb (truthy (privateKey (SSHConnection.credentials self)))
          = false) as ->.
  { destruct (SSHConnection.authMethod self); rewrite Hsecret; simpl; [done|].
    apply andb_false_r. }
  by destruct (_ && _).
Qed.

Lemma handleConnect_hands_over_checked_credentials_witness :
  host workCredentials <> "" /\ username workCredentials <> "".
Proof.
  destruct (handleConnect_hands_over_checked_credentials filledForm
              workCredentials eq_refl) as (_ & Hhost & Huser & _).
  by split.
Defined.
